(** * Audika UTM Master: the URL splitter, the URL merger and the column detector

    A shallow embedding of [splitUrl] and [mergeUrl] (utils/urlUtils), of
    [detectBestUrlColumn] and of the table handlers of the [App] component
    (App.tsx), together with the parts of the JavaScript
    platform they call: strings of UTF-16 code units, [URLSearchParams]
    (WHATWG URL, application/x-www-form-urlencoded), UTF-8 (WHATWG Encoding),
    ordinary objects used as records, and IEEE 754 binary64 numbers. *)

From Stdlib Require Import List NArith ZArith Bool Lia String Ascii Permutation.
From Stdlib Require Import Floats.SpecFloat.
Import ListNotations.

Set Implicit Arguments.

(* ================================================================= *)
(** * JavaScript strings *)
(* ================================================================= *)

(** A JavaScript string is a sequence of 16-bit code units. *)
Abbreviation codeUnit := N (only parsing).
Abbreviation jsstring := (list N) (only parsing).

Definition isCodeUnit (c : N) : Prop := (c < 0x10000)%N.

(** An ASCII literal of the source, as code units. *)
Definition js (s : string) : jsstring :=
  map N_of_ascii (list_ascii_of_string s).

Fixpoint jseqb (a b : jsstring) : bool :=
  match a, b with
  | [], [] => true
  | x :: a', y :: b' => N.eqb x y && jseqb a' b'
  | _, _ => false
  end.

(** [!s] on a string: only the empty string is falsy. *)
Definition isEmpty (s : jsstring) : bool :=
  match s with [] => true | _ :: _ => false end.

(** [s.startsWith(pat)] *)
Fixpoint startsWith (s pat : jsstring) : bool :=
  match pat, s with
  | [], _ => true
  | _ :: _, [] => false
  | p :: pat', c :: s' => N.eqb c p && startsWith s' pat'
  end.

(** [s.includes(pat)] *)
Fixpoint includes (s pat : jsstring) : bool :=
  startsWith s pat ||
  match s with
  | [] => false
  | _ :: s' => includes s' pat
  end.

(** [s.indexOf(pat)], [-1] when [pat] does not occur. *)
Fixpoint indexOf (s pat : jsstring) : Z :=
  if startsWith s pat then 0%Z
  else match s with
       | [] => (-1)%Z
       | _ :: s' => let i := indexOf s' pat in
                    if (i <? 0)%Z then (-1)%Z else (i + 1)%Z
       end.

(** [s.substring(start, end)]: both indices are clamped to [0, length] and
    swapped when [start > end]. *)
Definition clampIndex (s : jsstring) (i : Z) : nat :=
  Nat.min (Z.to_nat i) (List.length s).

Definition substring (s : jsstring) (start stop : Z) : jsstring :=
  let a := clampIndex s start in
  let b := clampIndex s stop in
  let lo := Nat.min a b in
  let hi := Nat.max a b in
  firstn (hi - lo) (skipn lo s).

(** [s.substring(start)] *)
Definition substringFrom (s : jsstring) (start : Z) : jsstring :=
  substring s start (Z.of_nat (List.length s)).

(** [s.split(sep)] for a separator of one code unit: the pieces between the
    occurrences of [sep]; never an empty array. *)
Fixpoint splitOn (sep : N) (s : list N) : list (list N) :=
  match s with
  | [] => [[]]
  | c :: s' =>
      if N.eqb c sep then [] :: splitOn sep s'
      else match splitOn sep s' with
           | [] => [[c]]
           | p :: ps => (c :: p) :: ps
           end
  end.

(** WhiteSpace and LineTerminator code units of ECMAScript, the ones
    [String.prototype.trim] removes. *)
Definition isWhiteSpace (c : N) : bool :=
  ((0x09 <=? c) && (c <=? 0x0D) || (c =? 0x20) || (c =? 0xA0) || (c =? 0x1680)
   || (0x2000 <=? c) && (c <=? 0x200A) || (c =? 0x2028) || (c =? 0x2029)
   || (c =? 0x202F) || (c =? 0x205F) || (c =? 0x3000) || (c =? 0xFEFF))%N.

Fixpoint trimStart (s : jsstring) : jsstring :=
  match s with
  | [] => []
  | c :: s' => if isWhiteSpace c then trimStart s' else s
  end.

Definition trimEnd (s : jsstring) : jsstring := rev (trimStart (rev s)).

(** [s.trim()] *)
Definition trim (s : jsstring) : jsstring := trimEnd (trimStart s).

(** [s.toLowerCase()].  The table is the Unicode one for U+0000..U+00FF plus
    the two code points outside ASCII whose lowercase contains an ASCII
    letter (U+0130, U+212A); every other code unit is left as it is.  The
    Unicode table maps those to code units outside ASCII as well, and the
    program only ever compares lowercased text with ASCII patterns. *)
Definition lowerCodeUnit (c : N) : list N :=
  if ((0x41 <=? c) && (c <=? 0x5A))%N then [(c + 32)%N]
  else if ((0xC0 <=? c) && (c <=? 0xDE) && negb (c =? 0xD7))%N then [(c + 32)%N]
  else if (c =? 0x130)%N then [0x69%N; 0x307%N]
  else if (c =? 0x212A)%N then [0x6B%N]
  else [c].

Definition toLowerCase (s : jsstring) : jsstring := flat_map lowerCodeUnit s.

(** Canonicalize of a regular expression with the [i] flag and without the
    [u] flag, on the code units that can equal an ASCII pattern character:
    an ASCII letter is uppercased, and no code unit outside ASCII ever
    canonicalizes to an ASCII one. *)
Definition regexCanonicalize (c : N) : N :=
  if ((0x61 <=? c) && (c <=? 0x7A))%N then (c - 32)%N else c.

(** The input starts with the literal [pat], matched with the [i] flag. *)
Fixpoint startsWithIgnoreCase (s pat : jsstring) : bool :=
  match pat, s with
  | [], _ => true
  | _ :: _, [] => false
  | p :: pat', c :: s' =>
      N.eqb (regexCanonicalize c) (regexCanonicalize p)
      && startsWithIgnoreCase s' pat'
  end.

(* ================================================================= *)
(** * Ordinary objects used as string records *)
(* ================================================================= *)

(** An object whose properties hold strings, as the list of its own
    enumerable properties in enumeration order (keys are distinct). *)
Definition JsObject := list (jsstring * jsstring).

(** [o[k]], [None] for [undefined]. *)
Fixpoint getProp (o : JsObject) (k : jsstring) : option jsstring :=
  match o with
  | [] => None
  | (k', v) :: o' => if jseqb k' k then Some v else getProp o' k
  end.

Fixpoint updateProp (o : JsObject) (k v : jsstring) : JsObject :=
  match o with
  | [] => [(k, v)]
  | (k', v') :: o' =>
      if jseqb k' k then (k', v) :: o' else (k', v') :: updateProp o' k v
  end.

(** [o[k] = v] on an object created by [{}], with [v] a string.  A present
    key keeps its place and takes the new value, a new key is added last.
    (An engine enumerates the keys that are array indices before the other
    ones, in ascending order; the list keeps them where they were added.
    What [o[k]] reads does not depend on it.)
    The key [__proto__] is not stored: the assignment reaches the accessor
    that [Object.prototype] inherits to every [{}], whose setter ignores a
    value that is neither an object nor [null]. *)
Definition setProp (o : JsObject) (k v : jsstring) : JsObject :=
  if jseqb k (js "__proto__") then o else updateProp o k v.

(** [Object.keys(o)] and [Object.entries(o)] *)
Definition objectKeys (o : JsObject) : list jsstring := map fst o.
Definition objectEntries (o : JsObject) : list (jsstring * jsstring) := o.

(* ================================================================= *)
(** * UTF-16 and UTF-8 *)
(* ================================================================= *)

Definition isLeadSurrogate (c : N) : bool := ((0xD800 <=? c) && (c <=? 0xDBFF))%N.
Definition isTrailSurrogate (c : N) : bool := ((0xDC00 <=? c) && (c <=? 0xDFFF))%N.

(** Conversion of a string to a scalar value string (USVString), as code
    points: a surrogate pair is one code point, a lone surrogate becomes
    U+FFFD. *)
Fixpoint toScalarValues (s : jsstring) : list N :=
  match s with
  | [] => []
  | c :: t =>
      if isLeadSurrogate c then
        match t with
        | d :: t' =>
            if isTrailSurrogate d
            then (0x10000 + N.shiftl (c - 0xD800) 10 + (d - 0xDC00))%N :: toScalarValues t'
            else 0xFFFD%N :: toScalarValues t
        | [] => [0xFFFD%N]
        end
      else if isTrailSurrogate c then 0xFFFD%N :: toScalarValues t
      else c :: toScalarValues t
  end.

(** Code points back to code units. *)
Definition codeUnitsOf (cp : N) : list N :=
  if (cp <? 0x10000)%N then [cp]
  else [(0xD800 + N.shiftr (cp - 0x10000) 10)%N;
        (0xDC00 + N.land (cp - 0x10000) 0x3FF)%N].

Definition fromCodePoints (cps : list N) : jsstring := flat_map codeUnitsOf cps.

Definition toUSVString (s : jsstring) : jsstring := fromCodePoints (toScalarValues s).

(** The UTF-8 encoder of the Encoding standard, on one scalar value. *)
Definition utf8EncodeCodePoint (cp : N) : list N :=
  let continuation (k : N) := N.lor 0x80 (N.land (N.shiftr cp (6 * k)) 0x3F) in
  if (cp <=? 0x7F)%N then [cp]
  else if (cp <=? 0x7FF)%N then
    [(N.shiftr cp 6 + 0xC0)%N; continuation 0%N]
  else if (cp <=? 0xFFFF)%N then
    [(N.shiftr cp 12 + 0xE0)%N; continuation 1%N; continuation 0%N]
  else
    [(N.shiftr cp 18 + 0xF0)%N; continuation 2%N; continuation 1%N; continuation 0%N].

Definition utf8Encode (cps : list N) : list N := flat_map utf8EncodeCodePoint cps.

(** The UTF-8 decoder of the Encoding standard, error mode replacement. *)
Record Utf8Decoder := {
  codePoint : N;
  bytesSeen : N;
  bytesNeeded : N;
  lowerBoundary : N;
  upperBoundary : N
}.

Definition utf8Initial : Utf8Decoder :=
  {| codePoint := 0; bytesSeen := 0; bytesNeeded := 0;
     lowerBoundary := 0x80; upperBoundary := 0xBF |}.

(** The handler on a byte when no continuation byte is awaited: the code
    points it emits and the next state. *)
Definition utf8Lead (b : N) : list N * Utf8Decoder :=
  if (b <=? 0x7F)%N then ([b], utf8Initial)
  else if ((0xC2 <=? b) && (b <=? 0xDF))%N then
    ([], {| codePoint := N.land b 0x1F; bytesSeen := 0; bytesNeeded := 1;
            lowerBoundary := 0x80; upperBoundary := 0xBF |})
  else if ((0xE0 <=? b) && (b <=? 0xEF))%N then
    ([], {| codePoint := N.land b 0xF; bytesSeen := 0; bytesNeeded := 2;
            lowerBoundary := if (b =? 0xE0)%N then 0xA0%N else 0x80%N;
            upperBoundary := if (b =? 0xED)%N then 0x9F%N else 0xBF%N |})
  else if ((0xF0 <=? b) && (b <=? 0xF4))%N then
    ([], {| codePoint := N.land b 0x7; bytesSeen := 0; bytesNeeded := 3;
            lowerBoundary := if (b =? 0xF0)%N then 0x90%N else 0x80%N;
            upperBoundary := if (b =? 0xF4)%N then 0x8F%N else 0xBF%N |})
  else ([0xFFFD%N], utf8Initial).

(** The handler on a byte.  A byte outside the awaited range is an error
    and is then read again from the initial state. *)
Definition utf8Step (st : Utf8Decoder) (b : N) : list N * Utf8Decoder :=
  if (bytesNeeded st =? 0)%N then utf8Lead b
  else if negb ((lowerBoundary st <=? b) && (b <=? upperBoundary st))%N then
    let (out, st') := utf8Lead b in (0xFFFD%N :: out, st')
  else
    let cp := N.lor (N.shiftl (codePoint st) 6) (N.land b 0x3F) in
    if (bytesSeen st + 1 =? bytesNeeded st)%N then ([cp], utf8Initial)
    else ([], {| codePoint := cp; bytesSeen := bytesSeen st + 1;
                 bytesNeeded := bytesNeeded st;
                 lowerBoundary := 0x80; upperBoundary := 0xBF |}).

Fixpoint utf8DecodeFrom (st : Utf8Decoder) (bytes : list N) : list N :=
  match bytes with
  | [] => if (bytesNeeded st =? 0)%N then [] else [0xFFFD%N]
  | b :: rest =>
      let (out, st') := utf8Step st b in out ++ utf8DecodeFrom st' rest
  end.

(** UTF-8 decode without BOM *)
Definition utf8Decode (bytes : list N) : list N := utf8DecodeFrom utf8Initial bytes.

(* ================================================================= *)
(** * URLSearchParams *)
(* ================================================================= *)

Definition isHexDigit (b : N) : bool :=
  ((0x30 <=? b) && (b <=? 0x39) || (0x41 <=? b) && (b <=? 0x46)
   || (0x61 <=? b) && (b <=? 0x66))%N.

Definition hexValue (b : N) : N :=
  if (b <=? 0x39)%N then (b - 0x30)%N
  else if (b <=? 0x46)%N then (b - 0x37)%N
  else (b - 0x57)%N.

(** Percent-decode of a byte sequence. *)
Fixpoint percentDecode (bytes : list N) : list N :=
  match bytes with
  | [] => []
  | b :: rest =>
      if (b =? 0x25)%N then
        match rest with
        | h1 :: h2 :: rest' =>
            if isHexDigit h1 && isHexDigit h2
            then (hexValue h1 * 16 + hexValue h2)%N :: percentDecode rest'
            else b :: percentDecode rest
        | _ => b :: percentDecode rest
        end
      else b :: percentDecode rest
  end.

Definition plusToSpace (b : N) : N := if (b =? 0x2B)%N then 0x20%N else b.

(** One name or value of the parser: [+] to space, percent-decode, UTF-8
    decode without BOM. *)
Definition urlencodedDecode (bytes : list N) : jsstring :=
  fromCodePoints (utf8Decode (percentDecode (map plusToSpace bytes))).

(** The bytes before the first [sep] and the bytes after it; the whole
    sequence and nothing when there is no [sep]. *)
Fixpoint splitAtFirst (sep : N) (bytes : list N) : list N * list N :=
  match bytes with
  | [] => ([], [])
  | b :: rest =>
      if (b =? sep)%N then ([], rest)
      else let (name, value) := splitAtFirst sep rest in (b :: name, value)
  end.

(** The parser on one of the sequences between [&]: an empty sequence is
    skipped, another one is split at its first [=]. *)
Definition urlencodedParsePiece (bytes : list N) : list (jsstring * jsstring) :=
  match bytes with
  | [] => []
  | _ :: _ =>
      let (name, value) := splitAtFirst 0x3D bytes in
      [(urlencodedDecode name, urlencodedDecode value)]
  end.

(** The application/x-www-form-urlencoded parser, on bytes. *)
Definition urlencodedParse (input : list N) : list (jsstring * jsstring) :=
  flat_map urlencodedParsePiece (splitOn 0x26 input).

(** The application/x-www-form-urlencoded percent-encode set leaves only
    ASCII alphanumerics and [*], [-], [.], [_] as they are. *)
Definition isUrlencodedPlain (b : N) : bool :=
  ((0x30 <=? b) && (b <=? 0x39) || (0x41 <=? b) && (b <=? 0x5A)
   || (0x61 <=? b) && (b <=? 0x7A)
   || (b =? 0x2A) || (b =? 0x2D) || (b =? 0x2E) || (b =? 0x5F))%N.

Definition upperHexDigit (n : N) : N :=
  if (n <? 10)%N then (0x30 + n)%N else (0x37 + n)%N.

Definition percentEncodeByte (b : N) : list N :=
  [0x25%N; upperHexDigit (N.shiftr b 4); upperHexDigit (N.land b 0xF)].

Definition urlencodedByte (b : N) : list N :=
  if (b =? 0x20)%N then [0x2B%N]
  else if isUrlencodedPlain b then [b]
  else percentEncodeByte b.

(** Percent-encode after encoding (UTF-8), with space as plus. *)
Definition urlencodedEncode (s : jsstring) : jsstring :=
  flat_map urlencodedByte (utf8Encode (toScalarValues s)).

(** The application/x-www-form-urlencoded serializer. *)
Definition urlencodedSerialize (tuples : list (jsstring * jsstring)) : jsstring :=
  fold_left
    (fun output '(name, value) =>
       let pair := urlencodedEncode name ++ [0x3D%N] ++ urlencodedEncode value in
       if isEmpty output then pair else output ++ [0x26%N] ++ pair)
    tuples [].

(** A [URLSearchParams] object is its list of name-value tuples. *)
Definition URLSearchParams := list (jsstring * jsstring).

(** [new URLSearchParams(init)] for a string: a leading [?] is removed and
    the rest is parsed. *)
Definition newURLSearchParams (init : jsstring) : URLSearchParams :=
  let init' := match init with
               | c :: rest => if (c =? 0x3F)%N then rest else init
               | [] => init
               end in
  urlencodedParse (utf8Encode (toScalarValues init')).

Fixpoint setFirst (l : URLSearchParams) (name value : jsstring) : URLSearchParams :=
  match l with
  | [] => []
  | (n, v) :: l' =>
      if jseqb n name
      then (n, value) :: filter (fun t => negb (jseqb (fst t) name)) l'
      else (n, v) :: setFirst l' name value
  end.

(** [params.set(name, value)]: both arguments are converted to scalar
    value strings; the first tuple named [name] takes the value and the
    other ones are removed, or a tuple is appended. *)
Definition uspSet (l : URLSearchParams) (name value : jsstring) : URLSearchParams :=
  let name := toUSVString name in
  let value := toUSVString value in
  if existsb (fun t => jseqb (fst t) name) l
  then setFirst l name value
  else l ++ [(name, value)].

(** [params.toString()] *)
Definition uspToString (l : URLSearchParams) : jsstring := urlencodedSerialize l.

(* ================================================================= *)
(** * utils/urlUtils: splitUrl and mergeUrl *)
(* ================================================================= *)

Record SplitResult := {
  cleanUrl : jsstring;
  params : JsObject
}.

(** [trimmedUrl.split('#')] destructured into its first element. *)
Definition urlWithoutFragmentOf (trimmedUrl : jsstring) : jsstring :=
  hd [] (splitOn 0x23 trimmedUrl).

(** The condition of the naked query branch. *)
Definition isNakedQuery (urlWithoutFragment : jsstring) : bool :=
  let hasEquals := includes urlWithoutFragment (js "=") in
  let hasStructure := includes urlWithoutFragment (js ".")
                      || includes urlWithoutFragment (js "/") in
  let isExplicitUtm := includes (toLowerCase urlWithoutFragment) (js "utm_") in
  hasEquals && (negb hasStructure || isExplicitUtm).

(** The first half of [splitUrl], after the trim: the values of [cleanUrl]
    and [searchPart] when the parameters are about to be extracted. *)
Definition locateQuery (trimmedUrl : jsstring) : jsstring * jsstring :=
  let searchPart := [] in
  let cleanUrl := trimmedUrl in
  let urlWithoutFragment := urlWithoutFragmentOf trimmedUrl in
  if includes urlWithoutFragment (js "?") then
    let queryIndex := indexOf urlWithoutFragment (js "?") in
    (substring urlWithoutFragment 0 queryIndex,
     substringFrom urlWithoutFragment (queryIndex + 1))
  else
    if isNakedQuery urlWithoutFragment then ([], urlWithoutFragment)
    else (cleanUrl, searchPart).

(** The callback of [params.forEach]. *)
Definition recordParam (extractedParams : JsObject) (entry : jsstring * jsstring)
    : JsObject :=
  let '(key, value) := entry in
  if negb (isEmpty key) then setProp extractedParams key value
  else extractedParams.

(** The second half: the object built from the search part.  The
    constructor of [URLSearchParams] does not throw on a string, so the
    [catch] branch is never entered. *)
Definition extractParams (searchPart : jsstring) : JsObject :=
  let extractedParams : JsObject := [] in
  if negb (isEmpty searchPart) then
    fold_left recordParam (newURLSearchParams searchPart) extractedParams
  else extractedParams.

Definition splitUrl (urlStr : jsstring) : SplitResult :=
  if isEmpty urlStr then {| cleanUrl := []; params := [] |}
  else
    let trimmedUrl := trim urlStr in
    let (cleanUrl, searchPart) := locateQuery trimmedUrl in
    {| cleanUrl := cleanUrl; params := extractParams searchPart |}.

(** A value passes the filter of [mergeUrl] when it is non-empty and not
    all white space: [value && value.trim() !== '']. *)
Definition isNonBlank (value : jsstring) : bool :=
  negb (isEmpty value) && negb (jseqb (trim value) []).

(** The callback of [Object.entries(parameters).forEach]. *)
Definition mergeEntry (params : URLSearchParams) (entry : jsstring * jsstring)
    : URLSearchParams :=
  let '(key, value) := entry in
  if isNonBlank value then uspSet params key value else params.

(** The [URLSearchParams] that [mergeUrl] fills from the entries. *)
Definition mergeParams (parameters : JsObject) : URLSearchParams :=
  fold_left mergeEntry (objectEntries parameters) [].

(** No call in the [try] block throws on strings, so the [catch] branch
    is never entered. *)
Definition mergeUrl (cleanUrl : jsstring) (parameters : JsObject) : jsstring :=
  if isEmpty cleanUrl && (List.length (objectKeys parameters) =? 0)%nat then []
  else
    let params := mergeParams parameters in
    let queryString := uspToString params in
    if isEmpty cleanUrl then queryString
    else if negb (isEmpty queryString)
    then cleanUrl ++ (if includes cleanUrl (js "?") then js "&" else js "?")
                  ++ queryString
    else cleanUrl.

(* ================================================================= *)
(** * Numbers *)
(* ================================================================= *)

(** A JavaScript number is an IEEE 754 binary64 value; the operations round
    to nearest, ties to even. *)
Definition number := spec_float.

Definition numAdd : number -> number -> number := SFadd 53 1024.
Definition numMul : number -> number -> number := SFmul 53 1024.
Definition numDiv : number -> number -> number := SFdiv 53 1024.

(** [a > b] *)
Definition numGt (a b : number) : bool := SFltb b a.

(** [a >= b], used to state results only. *)
Definition numGe (a b : number) : bool := SFleb b a.

(** An integer literal or an integer-valued variable as a number. *)
Definition numOfZ (z : Z) : number := binary_normalize 53 1024 z 0 false.
Definition numOfNat (n : nat) : number := numOfZ (Z.of_nat n).

(* ================================================================= *)
(** * App.tsx: detectBestUrlColumn *)
(* ================================================================= *)

(** Modelled from the spec: the type [FileRow] is declared in ./types,
    which is not part of the sources at hand.  A row is a mapping from
    column name to a string value, absence and the empty string both
    reading as the empty string. *)
Definition FileRow := JsObject.

(** [String(row[h] || '')] *)
Definition cellText (row : FileRow) (h : jsstring) : jsstring :=
  match getProp row h with
  | Some v => if isEmpty v then [] else v
  | None => []
  end.

(** The five counters of the content pattern scoring.  They hold whole
    numbers no larger than the sample size, which binary64 represents
    exactly, and are kept as naturals until they are divided. *)
Record ContentCounts := {
  utmMatchCount : nat;
  urlMatchCount : nat;
  trackingIdMatchCount : nat;
  queryStringMatchCount : nat;
  ampersandMatchCount : nat
}.

Definition noCounts : ContentCounts :=
  {| utmMatchCount := 0; urlMatchCount := 0; trackingIdMatchCount := 0;
     queryStringMatchCount := 0; ampersandMatchCount := 0 |}.

(** The five tests on a trimmed, non-empty cell value. *)
Definition isUtmValue (val : jsstring) : bool :=
  let lowerVal := toLowerCase val in
  includes lowerVal (js "utm_source=") || includes lowerVal (js "utm_medium=")
  || includes lowerVal (js "utm_campaign=") || includes lowerVal (js "utm_id=").

(** [/^https?:\/\//i], [/^www\./i] and [startsWith('/?')] *)
Definition isUrlValue (val : jsstring) : bool :=
  startsWithIgnoreCase val (js "http://") || startsWithIgnoreCase val (js "https://")
  || startsWithIgnoreCase val (js "www.") || startsWith val (js "/?").

Definition isTrackingIdValue (val : jsstring) : bool :=
  let lowerVal := toLowerCase val in
  includes lowerVal (js "gclid=") || includes lowerVal (js "fbclid=")
  || includes lowerVal (js "msclkid=").

Definition isQueryStringValue (val : jsstring) : bool :=
  includes val (js "?") && includes val (js "=").

Definition isAmpersandValue (val : jsstring) : bool :=
  includes val (js "&") && includes val (js "=").

(** The body of [sample.forEach(row => ...)] for the header [h]. *)
Definition countRow (h : jsstring) (c : ContentCounts) (row : FileRow) : ContentCounts :=
  let val := trim (cellText row h) in
  if isEmpty val then c
  else
    {| utmMatchCount :=
         if isUtmValue val then S (utmMatchCount c) else utmMatchCount c;
       urlMatchCount :=
         if isUrlValue val then S (urlMatchCount c) else urlMatchCount c;
       trackingIdMatchCount :=
         if isTrackingIdValue val then S (trackingIdMatchCount c)
         else trackingIdMatchCount c;
       queryStringMatchCount :=
         if isQueryStringValue val then S (queryStringMatchCount c)
         else queryStringMatchCount c;
       ampersandMatchCount :=
         if isAmpersandValue val then S (ampersandMatchCount c)
         else ampersandMatchCount c |}.

Definition countSample (h : jsstring) (sample : list FileRow) : ContentCounts :=
  fold_left (countRow h) sample noCounts.

(** 1. Header name scoring: the seven [if] statements in sequence. *)
Definition headerNameScore (h : jsstring) : number :=
  let score := numOfZ 0 in
  let lowerH := toLowerCase h in
  let score :=
    if jseqb lowerH (js "url") || jseqb lowerH (js "original_url")
       || jseqb lowerH (js "link")
    then numAdd score (numOfZ 25) else score in
  let score :=
    if includes lowerH (js "utm") then numAdd score (numOfZ 20) else score in
  let score :=
    if includes lowerH (js "landing_page") then numAdd score (numOfZ 15) else score in
  let score :=
    if includes lowerH (js "destination") then numAdd score (numOfZ 12) else score in
  let score :=
    if includes lowerH (js "campaign") then numAdd score (numOfZ 10) else score in
  let score :=
    if includes lowerH (js "source") || includes lowerH (js "medium")
    then numAdd score (numOfZ 8) else score in
  let score :=
    if jseqb lowerH (js "g") || jseqb lowerH (js "gclid")
       || jseqb lowerH (js "click_id")
    then numAdd score (numOfZ 5) else score in
  score.

(** The score of the header [h]: the body of [headers.forEach(h => ...)]
    up to the comparison with [highestScore]. *)
Definition columnScore (sampleSize : nat) (sample : list FileRow) (h : jsstring) : number :=
  let score := headerNameScore h in
  let c := countSample h sample in
  let n := numOfNat sampleSize in
  let score := numAdd score (numMul (numDiv (numOfNat (utmMatchCount c)) n) (numOfZ 50)) in
  let score := numAdd score (numMul (numDiv (numOfNat (urlMatchCount c)) n) (numOfZ 30)) in
  let score := numAdd score (numMul (numDiv (numOfNat (trackingIdMatchCount c)) n) (numOfZ 20)) in
  let score := numAdd score (numMul (numDiv (numOfNat (queryStringMatchCount c)) n) (numOfZ 10)) in
  let score := numAdd score (numMul (numDiv (numOfNat (ampersandMatchCount c)) n) (numOfZ 25)) in
  score.

(** The state of the loop over the headers: [bestCol] and [highestScore]. *)
Definition trackBest (score : jsstring -> number)
    (best : jsstring * number) (h : jsstring) : jsstring * number :=
  let (bestCol, highestScore) := best in
  if numGt (score h) highestScore then (h, score h) else (bestCol, highestScore).

Definition detectBestUrlColumn (headers : list jsstring) (data : list FileRow) : jsstring :=
  if (List.length data =? 0)%nat then []
  else
    let sampleSize := Nat.min (List.length data) 25 in
    let sample := firstn sampleSize data in
    let (bestCol, highestScore) :=
      fold_left (trackBest (columnScore sampleSize sample)) headers
                ([], numOfZ (-1)) in
    if numGt highestScore (numOfZ 5) then bestCol else [].

(* ================================================================= *)
(** * The detector's score as the specification describes it *)
(* ================================================================= *)

(** The score that [detectBestUrlColumn] compares for the header [h]: the
    sample is the first [min(data.length, 25)] rows. *)
Definition detectorScore (data : list FileRow) (h : jsstring) : number :=
  columnScore (Nat.min (List.length data) 25)
              (firstn (Nat.min (List.length data) 25) data) h.

(** The header-name conditions with their points, each a test on the
    lowercased header. *)
Definition headerNameRules : list ((jsstring -> bool) * Z) :=
  [ (fun l => jseqb l (js "url") || jseqb l (js "original_url")
              || jseqb l (js "link"), 25%Z);
    (fun l => includes l (js "utm"), 20%Z);
    (fun l => includes l (js "landing_page"), 15%Z);
    (fun l => includes l (js "destination"), 12%Z);
    (fun l => includes l (js "campaign"), 10%Z);
    (fun l => includes l (js "source") || includes l (js "medium"), 8%Z);
    (fun l => jseqb l (js "g") || jseqb l (js "gclid")
              || jseqb l (js "click_id"), 5%Z) ].

(** The sum of the points of every rule that matches the header. *)
Definition headerNameBonus (h : jsstring) : Z :=
  fold_right
    (fun (rule : (jsstring -> bool) * Z) acc =>
       ((if fst rule (toLowerCase h) then snd rule else 0) + acc)%Z)
    0%Z headerNameRules.

(** The number of sampled rows whose trimmed value in column [h] is not
    empty and passes [test]. *)
Definition matchCount (test : jsstring -> bool) (h : jsstring)
    (sample : list FileRow) : nat :=
  List.length
    (filter (fun row => let val := trim (cellText row h) in
                        negb (isEmpty val) && test val) sample).

(** A count divided by the sample size, times its weight. *)
Definition weightedRate (count sampleSize : nat) (weight : Z) : number :=
  numMul (numDiv (numOfNat count) (numOfNat sampleSize)) (numOfZ weight).

(** A number that is not NaN and whose sign bit is clear. *)
Definition nonNegative (x : number) : bool :=
  match x with
  | S754_zero false | S754_infinity false | S754_finite false _ _ => true
  | _ => false
  end.

Definition isNaN (x : number) : bool :=
  match x with S754_nan => true | _ => false end.

(** A row used in the examples. *)
Definition campaignRow : FileRow :=
  [ (js "name", js "spring sale");
    (js "campaign_url", js "https://x.com/a?utm_source=g&utm_medium=cpc") ].

(* ================================================================= *)
(** * Well-formed strings and parameter mappings *)
(* ================================================================= *)

(** [s.isWellFormed()]: every code unit is below 2^16 and no surrogate is
    unpaired. *)
Fixpoint isWellFormed (s : jsstring) : bool :=
  match s with
  | [] => true
  | c :: t =>
      if isLeadSurrogate c then
        match t with
        | d :: t' => isTrailSurrogate d && isWellFormed t'
        | [] => false
        end
      else (c <? 0x10000)%N && negb (isTrailSurrogate c) && isWellFormed t
  end.

(** A Unicode scalar value. *)
Definition isScalarValue (cp : N) : bool :=
  ((cp <? 0xD800) || (0xE000 <=? cp) && (cp <? 0x110000))%N.

(** A byte. *)
Definition isByte (b : N) : bool := (b <? 256)%N.

(** A code unit that the serializer can write: a plain byte, [+] or [%]. *)
Definition isEncodedChar (c : N) : bool :=
  isUrlencodedPlain c || (c =? 0x2B)%N || (c =? 0x25)%N.

(** A code unit of a serialized query string. *)
Definition isQueryChar (c : N) : bool :=
  isEncodedChar c || (c =? 0x3D)%N || (c =? 0x26)%N.

(** Names and values of a tuple are well-formed strings. *)
Definition isWellFormedEntry (t : jsstring * jsstring) : bool :=
  isWellFormed (fst t) && isWellFormed (snd t).

(** A key that [splitUrl] records: not empty and not [__proto__]. *)
Definition isRecordedKey (k : jsstring) : bool :=
  negb (isEmpty k) && negb (jseqb k (js "__proto__")).

(** An entry that goes through [mergeUrl] and back through [splitUrl]:
    its key is recorded and well-formed, its value is neither empty nor
    all white space and is well-formed. *)
Definition isRoundTripEntry (e : jsstring * jsstring) : bool :=
  isRecordedKey (fst e) && isWellFormed (fst e)
  && isNonBlank (snd e) && isWellFormed (snd e).

(** The value of the last tuple named [k]. *)
Fixpoint lastValue (tuples : list (jsstring * jsstring)) (k : jsstring) : option jsstring :=
  match tuples with
  | [] => None
  | (n, v) :: rest =>
      match lastValue rest k with
      | Some v' => Some v'
      | None => if jseqb n k then Some v else None
      end
  end.

(** [c] is the ASCII letter whose lowercase form is [l], in either case. *)
Definition isLetterIgnoreCase (l c : N) : bool := ((c =? l) || (c =? l - 32))%N.

(** The string begins with [utm_], in any letter case. *)
Definition startsWithUtmMarker (s : jsstring) : bool :=
  match s with
  | c1 :: c2 :: c3 :: c4 :: _ =>
      isLetterIgnoreCase 0x75 c1 && isLetterIgnoreCase 0x74 c2
      && isLetterIgnoreCase 0x6D c3 && (c4 =? 0x5F)%N
  | _ => false
  end.

(** The string holds [utm_] somewhere, in any letter case. *)
Fixpoint containsUtmMarker (s : jsstring) : bool :=
  startsWithUtmMarker s ||
  match s with
  | [] => false
  | _ :: s' => containsUtmMarker s'
  end.

(** One [name=value] piece of the serializer's output. *)
Definition pairString (t : jsstring * jsstring) : jsstring :=
  urlencodedEncode (fst t) ++ [0x3D%N] ++ urlencodedEncode (snd t).

(** An entry that [mergeUrl] leaves out: its value is empty or all white
    space. *)
Definition isBlankEntry (e : jsstring * jsstring) : bool :=
  negb (isNonBlank (snd e)).

(* ================================================================= *)
(** * Arrays and objects of the component *)
(* ================================================================= *)

(** [a.includes(x)] on an array of strings *)
Definition arrayIncludes (a : list jsstring) (x : jsstring) : bool :=
  existsb (jseqb x) a.

(** [a.indexOf(x)], [-1] when [x] is not an element. *)
Fixpoint arrayIndexOf (a : list jsstring) (x : jsstring) : Z :=
  match a with
  | [] => (-1)%Z
  | y :: a' =>
      if jseqb y x then 0%Z
      else let i := arrayIndexOf a' x in
           if (i <? 0)%Z then (-1)%Z else (i + 1)%Z
  end.

(** An index argument of [slice] and [splice]: a negative one counts from
    the end, and the result is kept between 0 and the length. *)
Definition relativeIndex {A} (a : list A) (i : Z) : nat :=
  if (i <? 0)%Z then Z.to_nat (Z.max (Z.of_nat (List.length a) + i) 0)
  else Nat.min (Z.to_nat i) (List.length a).

(** [a.slice(0, stop)] *)
Definition arraySliceTo {A} (a : list A) (stop : Z) : list A :=
  firstn (relativeIndex a stop) a.

(** [a[i]], [None] for [undefined]. *)
Definition arrayGet {A} (a : list A) (i : Z) : option A :=
  if (i <? 0)%Z then None else nth_error a (Z.to_nat i).

(** [a.splice(start, 1)] and [a.splice(start, 0, x)], as the array left
    behind. *)
Definition spliceDelete {A} (a : list A) (start : Z) : list A :=
  let i := relativeIndex a start in
  firstn i a ++ skipn (S i) a.

Definition spliceInsert {A} (a : list A) (start : Z) (x : A) : list A :=
  let i := relativeIndex a start in
  firstn i a ++ x :: skipn i a.

(** [values.join(separator)] *)
Fixpoint arrayJoin (values : list jsstring) (separator : jsstring) : jsstring :=
  match values with
  | [] => []
  | [v] => v
  | v :: rest => v ++ separator ++ arrayJoin rest separator
  end.

(** A [Set<string>] as its elements in insertion order; [s.add(x)]. *)
Definition setAdd (s : list jsstring) (x : jsstring) : list jsstring :=
  if arrayIncludes s x then s else s ++ [x].

(** [const { [k]: _, ...rest } = o]: the object without the key [k]. *)
Definition omitProp (o : JsObject) (k : jsstring) : JsObject :=
  filter (fun p => negb (jseqb (fst p) k)) o.

(** [{ ...o, ...extra }]: the properties of [extra] are defined on a copy
    of [o], in their order. *)
Definition spreadProps (o extra : JsObject) : JsObject :=
  fold_left (fun acc '(k, v) => updateProp acc k v) extra o.

(** [row[col]?.toString() || ''] on a row of strings *)
Definition cellString (row : FileRow) (col : jsstring) : jsstring :=
  cellText row col.

Module App.

(** [type MergeMode = 'simple' | 'utm_params' | 'utm_url'] *)
Inductive MergeMode := simple | utm_params | utm_url.

(** A [Record<string, number>] of column widths.  A width is a whole
    number of pixels; [renameColumn] can store [undefined], here [None]. *)
Definition WidthMap := list (jsstring * option Z).

Fixpoint getWidth (w : WidthMap) (k : jsstring) : option (option Z) :=
  match w with
  | [] => None
  | (k', v) :: w' => if jseqb k' k then Some v else getWidth w' k
  end.

(** A property definition, as in a spread or a computed key. *)
Fixpoint defineWidth (w : WidthMap) (k : jsstring) (v : option Z) : WidthMap :=
  match w with
  | [] => [(k, v)]
  | (k', v') :: w' =>
      if jseqb k' k then (k', v) :: w' else (k', v') :: defineWidth w' k v
  end.

(** [w[k] = v]: an assignment, which does not store the key [__proto__]
    (see [setProp]). *)
Definition assignWidth (w : WidthMap) (k : jsstring) (v : option Z) : WidthMap :=
  if jseqb k (js "__proto__") then w else defineWidth w k v.

(** The map without the key [k]: a rest pattern, or [delete w[k]]. *)
Definition omitWidth (w : WidthMap) (k : jsstring) : WidthMap :=
  filter (fun p => negb (jseqb (fst p) k)) w.

(** [{ ...w, ...extra }] *)
Definition spreadWidths (w extra : WidthMap) : WidthMap :=
  fold_left (fun acc '(k, v) => defineWidth acc k v) extra w.

(** [w[h] || 120]: a missing, [undefined] or zero width reads as 120. *)
Definition widthOrDefault (w : WidthMap) (h : jsstring) : Z :=
  match getWidth w h with
  | Some (Some z) => if (z =? 0)%Z then 120%Z else z
  | _ => 120%Z
  end.

Record HistoryItem := {
  itemData : list FileRow;
  itemHeaders : list jsstring;
  itemColumnWidths : WidthMap
}.

(** The state of the component that the handlers below read or write:
    [state] (its fields [data], [headers], [isLoading], [error],
    [fileName]) and the other state hooks. *)
Record State := {
  data : list FileRow;
  headers : list jsstring;
  isLoading : bool;
  error : option jsstring;
  fileName : option jsstring;
  urlColumn : jsstring;
  mergeMode : MergeMode;
  mergeSourceColumns : list jsstring;
  mergeTargetColumn : jsstring;
  mergeSeparator : jsstring;
  isCustomSeparator : bool;
  customSeparator : jsstring;
  baseUrlColumn : jsstring;
  columnWidths : WidthMap;
  draggedHeader : option jsstring;
  dragOverHeader : option jsstring;
  editingHeader : option jsstring;
  history : list HistoryItem;
  historyIndex : Z
}.

(** The state setters. *)
Definition setTable (d : list FileRow) (h : list jsstring) (s : State) : State :=
  {| data := d; headers := h; isLoading := isLoading s; error := error s;
     fileName := fileName s; urlColumn := urlColumn s; mergeMode := mergeMode s;
     mergeSourceColumns := mergeSourceColumns s;
     mergeTargetColumn := mergeTargetColumn s; mergeSeparator := mergeSeparator s;
     isCustomSeparator := isCustomSeparator s; customSeparator := customSeparator s;
     baseUrlColumn := baseUrlColumn s; columnWidths := columnWidths s;
     draggedHeader := draggedHeader s; dragOverHeader := dragOverHeader s;
     editingHeader := editingHeader s; history := history s;
     historyIndex := historyIndex s |}.

Definition setLoaded (name : jsstring) (s : State) : State :=
  {| data := data s; headers := headers s; isLoading := false; error := None;
     fileName := Some name; urlColumn := urlColumn s; mergeMode := mergeMode s;
     mergeSourceColumns := mergeSourceColumns s;
     mergeTargetColumn := mergeTargetColumn s; mergeSeparator := mergeSeparator s;
     isCustomSeparator := isCustomSeparator s; customSeparator := customSeparator s;
     baseUrlColumn := baseUrlColumn s; columnWidths := columnWidths s;
     draggedHeader := draggedHeader s; dragOverHeader := dragOverHeader s;
     editingHeader := editingHeader s; history := history s;
     historyIndex := historyIndex s |}.

Definition setError (e : option jsstring) (s : State) : State :=
  {| data := data s; headers := headers s; isLoading := isLoading s; error := e;
     fileName := fileName s; urlColumn := urlColumn s; mergeMode := mergeMode s;
     mergeSourceColumns := mergeSourceColumns s;
     mergeTargetColumn := mergeTargetColumn s; mergeSeparator := mergeSeparator s;
     isCustomSeparator := isCustomSeparator s; customSeparator := customSeparator s;
     baseUrlColumn := baseUrlColumn s; columnWidths := columnWidths s;
     draggedHeader := draggedHeader s; dragOverHeader := dragOverHeader s;
     editingHeader := editingHeader s; history := history s;
     historyIndex := historyIndex s |}.

Definition setUrlColumn (c : jsstring) (s : State) : State :=
  {| data := data s; headers := headers s; isLoading := isLoading s;
     error := error s; fileName := fileName s; urlColumn := c;
     mergeMode := mergeMode s; mergeSourceColumns := mergeSourceColumns s;
     mergeTargetColumn := mergeTargetColumn s; mergeSeparator := mergeSeparator s;
     isCustomSeparator := isCustomSeparator s; customSeparator := customSeparator s;
     baseUrlColumn := baseUrlColumn s; columnWidths := columnWidths s;
     draggedHeader := draggedHeader s; dragOverHeader := dragOverHeader s;
     editingHeader := editingHeader s; history := history s;
     historyIndex := historyIndex s |}.

Definition setMergeSourceColumns (c : list jsstring) (s : State) : State :=
  {| data := data s; headers := headers s; isLoading := isLoading s;
     error := error s; fileName := fileName s; urlColumn := urlColumn s;
     mergeMode := mergeMode s; mergeSourceColumns := c;
     mergeTargetColumn := mergeTargetColumn s; mergeSeparator := mergeSeparator s;
     isCustomSeparator := isCustomSeparator s; customSeparator := customSeparator s;
     baseUrlColumn := baseUrlColumn s; columnWidths := columnWidths s;
     draggedHeader := draggedHeader s; dragOverHeader := dragOverHeader s;
     editingHeader := editingHeader s; history := history s;
     historyIndex := historyIndex s |}.

Definition setMergeTargetColumn (c : jsstring) (s : State) : State :=
  {| data := data s; headers := headers s; isLoading := isLoading s;
     error := error s; fileName := fileName s; urlColumn := urlColumn s;
     mergeMode := mergeMode s; mergeSourceColumns := mergeSourceColumns s;
     mergeTargetColumn := c; mergeSeparator := mergeSeparator s;
     isCustomSeparator := isCustomSeparator s; customSeparator := customSeparator s;
     baseUrlColumn := baseUrlColumn s; columnWidths := columnWidths s;
     draggedHeader := draggedHeader s; dragOverHeader := dragOverHeader s;
     editingHeader := editingHeader s; history := history s;
     historyIndex := historyIndex s |}.

Definition setBaseUrlColumn (c : jsstring) (s : State) : State :=
  {| data := data s; headers := headers s; isLoading := isLoading s;
     error := error s; fileName := fileName s; urlColumn := urlColumn s;
     mergeMode := mergeMode s; mergeSourceColumns := mergeSourceColumns s;
     mergeTargetColumn := mergeTargetColumn s; mergeSeparator := mergeSeparator s;
     isCustomSeparator := isCustomSeparator s; customSeparator := customSeparator s;
     baseUrlColumn := c; columnWidths := columnWidths s;
     draggedHeader := draggedHeader s; dragOverHeader := dragOverHeader s;
     editingHeader := editingHeader s; history := history s;
     historyIndex := historyIndex s |}.

Definition setColumnWidths (w : WidthMap) (s : State) : State :=
  {| data := data s; headers := headers s; isLoading := isLoading s;
     error := error s; fileName := fileName s; urlColumn := urlColumn s;
     mergeMode := mergeMode s; mergeSourceColumns := mergeSourceColumns s;
     mergeTargetColumn := mergeTargetColumn s; mergeSeparator := mergeSeparator s;
     isCustomSeparator := isCustomSeparator s; customSeparator := customSeparator s;
     baseUrlColumn := baseUrlColumn s; columnWidths := w;
     draggedHeader := draggedHeader s; dragOverHeader := dragOverHeader s;
     editingHeader := editingHeader s; history := history s;
     historyIndex := historyIndex s |}.

Definition setDrag (dragged over : option jsstring) (s : State) : State :=
  {| data := data s; headers := headers s; isLoading := isLoading s;
     error := error s; fileName := fileName s; urlColumn := urlColumn s;
     mergeMode := mergeMode s; mergeSourceColumns := mergeSourceColumns s;
     mergeTargetColumn := mergeTargetColumn s; mergeSeparator := mergeSeparator s;
     isCustomSeparator := isCustomSeparator s; customSeparator := customSeparator s;
     baseUrlColumn := baseUrlColumn s; columnWidths := columnWidths s;
     draggedHeader := dragged; dragOverHeader := over;
     editingHeader := editingHeader s; history := history s;
     historyIndex := historyIndex s |}.

Definition setEditingHeader (e : option jsstring) (s : State) : State :=
  {| data := data s; headers := headers s; isLoading := isLoading s;
     error := error s; fileName := fileName s; urlColumn := urlColumn s;
     mergeMode := mergeMode s; mergeSourceColumns := mergeSourceColumns s;
     mergeTargetColumn := mergeTargetColumn s; mergeSeparator := mergeSeparator s;
     isCustomSeparator := isCustomSeparator s; customSeparator := customSeparator s;
     baseUrlColumn := baseUrlColumn s; columnWidths := columnWidths s;
     draggedHeader := draggedHeader s; dragOverHeader := dragOverHeader s;
     editingHeader := e; history := history s;
     historyIndex := historyIndex s |}.

Definition setHistory (h : list HistoryItem) (i : Z) (s : State) : State :=
  {| data := data s; headers := headers s; isLoading := isLoading s;
     error := error s; fileName := fileName s; urlColumn := urlColumn s;
     mergeMode := mergeMode s; mergeSourceColumns := mergeSourceColumns s;
     mergeTargetColumn := mergeTargetColumn s; mergeSeparator := mergeSeparator s;
     isCustomSeparator := isCustomSeparator s; customSeparator := customSeparator s;
     baseUrlColumn := baseUrlColumn s; columnWidths := columnWidths s;
     draggedHeader := draggedHeader s; dragOverHeader := dragOverHeader s;
     editingHeader := editingHeader s; history := h;
     historyIndex := i |}.

(** ** The undo/redo history *)

(** [pushToHistory(data, headers, widths)]: the entries after the current
    one are dropped, the new one is appended and becomes the current
    one. *)
Definition pushToHistory (d : list FileRow) (h : list jsstring) (w : WidthMap)
    (s : State) : State :=
  let newHistory := arraySliceTo (history s) (historyIndex s + 1) in
  setHistory
    (newHistory ++ [{| itemData := d; itemHeaders := h; itemColumnWidths := w |}])
    (historyIndex s + 1) s.

(** Destructuring [history[i]] throws when there is no such entry, before
    any state is set: the state is then left as it is. *)
Definition restoreEntry (i : Z) (s : State) : State :=
  match arrayGet (history s) i with
  | Some item =>
      setColumnWidths (itemColumnWidths item)
        (setTable (itemData item) (itemHeaders item)
           (setHistory (history s) i s))
  | None => s
  end.

Definition undo (s : State) : State :=
  if (historyIndex s >? 0)%Z then
    let prevIndex := (historyIndex s - 1)%Z in restoreEntry prevIndex s
  else s.

Definition redo (s : State) : State :=
  if (historyIndex s <? Z.of_nat (List.length (history s)) - 1)%Z then
    let nextIndex := (historyIndex s + 1)%Z in restoreEntry nextIndex s
  else s.

(** ** Column widths *)

(** [Math.max(h.length, ...sampleRows.map(row => (row[h]?.toString() || "").length))] *)
Definition maxCharsOf (h : jsstring) (sampleRows : list FileRow) : Z :=
  fold_left Z.max
    (map (fun row => Z.of_nat (List.length (cellString row h))) sampleRows)
    (Z.of_nat (List.length h)).

Definition initialWidth (h : jsstring) (data : list FileRow) : Z :=
  let sampleRows := firstn 15 data in
  let maxChars := maxCharsOf h sampleRows in
  Z.min 500 (Z.max 120 (maxChars * 9 + 48)).

Definition calculateInitialWidths (headers : list jsstring) (data : list FileRow)
    : WidthMap :=
  fold_left (fun widths h => assignWidth widths h (Some (initialWidth h data)))
    headers [].

(** The memoized [totalTableWidth] *)
Definition totalTableWidth (s : State) : Z :=
  fold_left (fun acc h => (acc + widthOrDefault (columnWidths s) h)%Z)
    (headers s) 0%Z.

(** ** Loading a table *)

(** The [try] block of [reader.onload] in [processFile], from the point
    where the parser has returned [headers] and [jsonData]. *)
Definition tableLoaded (name : jsstring) (headers0 : list jsstring)
    (jsonData : list FileRow) (s : State) : State :=
  let initialWidths := calculateInitialWidths headers0 jsonData in
  let s := setTable jsonData headers0 (setLoaded name s) in
  let s := setColumnWidths initialWidths s in
  let s := setHistory
             [{| itemData := jsonData; itemHeaders := headers0;
                 itemColumnWidths := initialWidths |}] 0 s in
  let detectedCol := detectBestUrlColumn headers0 jsonData in
  if negb (isEmpty detectedCol) then setUrlColumn detectedCol s else s.

(** ** Deleting and renaming a column *)

Definition deleteColumn (headerToDelete : jsstring) (s : State) : State :=
  let newHeaders := filter (fun h => negb (jseqb h headerToDelete)) (headers s) in
  let newData := map (fun row => omitProp row headerToDelete) (data s) in
  let newWidths := omitWidth (columnWidths s) headerToDelete in
  let s1 := setTable newData newHeaders s in
  let s1 := setColumnWidths newWidths s1 in
  let s1 := pushToHistory newData newHeaders newWidths s1 in
  let s1 := if jseqb (urlColumn s) headerToDelete then setUrlColumn [] s1 else s1 in
  let s1 := if jseqb (baseUrlColumn s) headerToDelete
            then setBaseUrlColumn [] s1 else s1 in
  let s1 := if jseqb (mergeTargetColumn s) headerToDelete
            then setMergeTargetColumn [] s1 else s1 in
  if arrayIncludes (mergeSourceColumns s) headerToDelete
  then setMergeSourceColumns
         (filter (fun c => negb (jseqb c headerToDelete)) (mergeSourceColumns s1)) s1
  else s1.

(** The message [`Column name "${newName}" already exists.`] *)
Definition duplicateColumnMessage (newName : jsstring) : jsstring :=
  js "Column name " ++ [0x22%N] ++ newName ++ [0x22%N] ++ js " already exists.".

(** The renamed row: [{ ...rest, [newName]: value }].  A row without the
    old key gives the new key the value [undefined], which a row of
    strings holds here as the empty string, what every reader of a cell
    turns [undefined] into. *)
Definition renameInRow (oldName newName : jsstring) (row : FileRow) : FileRow :=
  let value := match getProp row oldName with Some v => v | None => [] end in
  let rest := omitProp row oldName in
  updateProp rest newName value.

(** [newWidths[newName] = newWidths[oldName]; delete newWidths[oldName]] on
    the copy of the widths. *)
Definition renameInWidths (oldName newName : jsstring) (w : WidthMap) : WidthMap :=
  let value := match getWidth w oldName with Some v => v | None => None end in
  omitWidth (assignWidth w newName value) oldName.

(** The timer that clears the error three seconds later is a later event:
    [clearError]. *)
Definition renameColumn (oldName newName : jsstring) (s : State) : State :=
  if isEmpty newName || jseqb (trim newName) [] || jseqb oldName newName then
    setEditingHeader None s
  else if arrayIncludes (headers s) newName then
    setEditingHeader None (setError (Some (duplicateColumnMessage newName)) s)
  else
    let newHeaders := map (fun h => if jseqb h oldName then newName else h) (headers s) in
    let newData := map (renameInRow oldName newName) (data s) in
    let newWidths := renameInWidths oldName newName (columnWidths s) in
    let s1 := setTable newData newHeaders s in
    let s1 := setColumnWidths newWidths s1 in
    let s1 := pushToHistory newData newHeaders newWidths s1 in
    let s1 := if jseqb (urlColumn s) oldName then setUrlColumn newName s1 else s1 in
    let s1 := if jseqb (baseUrlColumn s) oldName
              then setBaseUrlColumn newName s1 else s1 in
    let s1 := if jseqb (mergeTargetColumn s) oldName
              then setMergeTargetColumn newName s1 else s1 in
    let s1 := if arrayIncludes (mergeSourceColumns s) oldName
              then setMergeSourceColumns
                     (map (fun c => if jseqb c oldName then newName else c)
                          (mergeSourceColumns s1)) s1
              else s1 in
    setEditingHeader None s1.

Definition clearError (s : State) : State := setError None s.

(** ** Splitting the URL column *)

(** The row that [processSplit] builds: [{ ...row, 'Clean URL': cleanUrl,
    ...params }]. *)
Definition splitRow (urlColumn0 : jsstring) (row : FileRow) : FileRow :=
  let url := cellText row urlColumn0 in
  let r := splitUrl url in
  spreadProps (updateProp row (js "Clean URL") (cleanUrl r)) (params r).

(** The keys added to [discoveredKeys] while the rows are mapped. *)
Definition discoverKeys (urlColumn0 : jsstring) (rows : list FileRow) : list jsstring :=
  fold_left
    (fun discoveredKeys row =>
       fold_left setAdd
         (objectKeys (params (splitUrl (cellText row urlColumn0))))
         discoveredKeys)
    rows [].

(** [newHeaders] and [addedHeaders] after one more candidate header. *)
Definition addHeader (acc : list jsstring * list jsstring) (key : jsstring)
    : list jsstring * list jsstring :=
  let (newHeaders, addedHeaders) := acc in
  if negb (arrayIncludes newHeaders key)
  then (newHeaders ++ [key], addedHeaders ++ [key])
  else (newHeaders, addedHeaders).

Definition processSplit (s : State) : State :=
  if isEmpty (urlColumn s) || (List.length (data s) =? 0)%nat then s
  else
    let discoveredKeys := discoverKeys (urlColumn s) (data s) in
    let newData := map (splitRow (urlColumn s)) (data s) in
    let (newHeaders, addedHeaders) :=
      fold_left addHeader (js "Clean URL" :: discoveredKeys) (headers s, []) in
    let newWidths :=
      spreadWidths (columnWidths s) (calculateInitialWidths addedHeaders newData) in
    let s1 := setColumnWidths newWidths s in
    let s1 := setTable newData newHeaders s1 in
    pushToHistory newData newHeaders newWidths s1.

(** ** Merging columns *)

(** The [URLSearchParams] filled from the source columns of a row. *)
Definition columnParams (sources : list jsstring) (row : FileRow) : URLSearchParams :=
  fold_left
    (fun params col =>
       let val := cellString row col in
       if negb (isEmpty val) then uspSet params col val else params)
    sources [].

(** The value of [result] for one row. *)
Definition mergeResult (s : State) (row : FileRow) : jsstring :=
  let separator :=
    if isCustomSeparator s then customSeparator s else mergeSeparator s in
  match mergeMode s with
  | simple =>
      let values :=
        filter (fun v => negb (jseqb v []))
               (map (fun col => cellString row col) (mergeSourceColumns s)) in
      arrayJoin values separator
  | mode =>
      let params := columnParams (mergeSourceColumns s) row in
      let queryString := uspToString params in
      match mode with
      | utm_params => queryString
      | _ =>
          let base := cellString row (baseUrlColumn s) in
          if isEmpty base then queryString
          else
            let connector := if includes base (js "?") then js "&" else js "?" in
            if negb (isEmpty queryString) then base ++ connector ++ queryString
            else base
      end
  end.

Definition processColumnMerge (s : State) : State :=
  if (List.length (mergeSourceColumns s) =? 0)%nat
     || isEmpty (mergeTargetColumn s)
     || (List.length (data s) =? 0)%nat
  then s
  else
    let newData :=
      map (fun row => updateProp row (mergeTargetColumn s) (mergeResult s row))
          (data s) in
    if negb (arrayIncludes (headers s) (mergeTargetColumn s)) then
      let newHeaders := headers s ++ [mergeTargetColumn s] in
      let newWidth := calculateInitialWidths [mergeTargetColumn s] newData in
      let newWidths := spreadWidths (columnWidths s) newWidth in
      let s1 := setColumnWidths newWidths s in
      let s1 := setTable newData newHeaders s1 in
      pushToHistory newData newHeaders newWidths s1
    else
      let s1 := setTable newData (headers s) s in
      pushToHistory newData (headers s) (columnWidths s) s1.

Definition toggleMergeColumn (col : jsstring) (s : State) : State :=
  setMergeSourceColumns
    (if arrayIncludes (mergeSourceColumns s) col
     then filter (fun c => negb (jseqb c col)) (mergeSourceColumns s)
     else mergeSourceColumns s ++ [col])
    s.

(** ** Moving a column *)

(** [!draggedHeader] holds when no header is being dragged or when its
    name is empty. *)
Definition handleColDrop (targetHeader : jsstring) (s : State) : State :=
  match draggedHeader s with
  | Some dragged =>
      if isEmpty dragged || jseqb dragged targetHeader then setDrag None None s
      else
        let fromIndex := arrayIndexOf (headers s) dragged in
        let toIndex := arrayIndexOf (headers s) targetHeader in
        let newHeaders := spliceDelete (headers s) fromIndex in
        let newHeaders := spliceInsert newHeaders toIndex dragged in
        let s1 := setTable (data s) newHeaders s in
        let s1 := pushToHistory (data s) newHeaders (columnWidths s) s1 in
        setDrag None None s1
  | None => setDrag None None s
  end.

(** ** What the handlers keep *)

(** [historyIndex] is -1 with an empty history, or points at an entry. *)
Definition historyInRange (s : State) : Prop :=
  (-1 <= historyIndex s < Z.of_nat (List.length (history s)))%Z.

(** The current history entry is the table on display. *)
Definition historyCurrent (s : State) : Prop :=
  arrayGet (history s) (historyIndex s) =
  Some {| itemData := data s; itemHeaders := headers s;
          itemColumnWidths := columnWidths s |}.

(** The column selections refer to headers of the table. *)
Definition selectionsValid (s : State) : Prop :=
  (urlColumn s = [] \/ In (urlColumn s) (headers s))
  /\ (baseUrlColumn s = [] \/ In (baseUrlColumn s) (headers s))
  /\ (forall c, In c (mergeSourceColumns s) -> In c (headers s)).

(** Every cell of every row stands under a header. *)
Definition cellsUnderHeaders (hs : list jsstring) (rows : list FileRow) : Prop :=
  forall row k, In row rows -> getProp row k <> None -> In k hs.

End App.

(* ================================================================= *)
(** * The component: inherited keys, the history invariant, a sample state *)
(* ================================================================= *)

(** The keys that every ordinary object inherits from [Object.prototype].
    Reading one of them from a row or from a width map that has no own
    property of that name gives the inherited member, not [undefined];
    [getProp] and [getWidth] model the read of every other key. *)
Definition objectPrototypeKeys : list jsstring :=
  [js "constructor"; js "__defineGetter__"; js "__defineSetter__";
   js "hasOwnProperty"; js "__lookupGetter__"; js "__lookupSetter__";
   js "isPrototypeOf"; js "propertyIsEnumerable"; js "toString";
   js "valueOf"; js "__proto__"; js "toLocaleString"].

Definition isPlainKey (k : jsstring) : bool :=
  negb (arrayIncludes objectPrototypeKeys k).

(** The value of a string of decimal digits. *)
Definition decimalValue (k : jsstring) : N :=
  fold_left (fun acc c => (10 * acc + (c - 0x30))%N) k 0%N.

(** A key that is an array index: the canonical decimal form of a whole
    number below 2^32 - 1.  An object enumerates such keys first, in
    ascending order, wherever they were added. *)
Definition isArrayIndex (k : jsstring) : bool :=
  match k with
  | [] => false
  | [c] => ((0x30 <=? c) && (c <=? 0x39))%N
  | c :: _ =>
      ((0x31 <=? c) && (c <=? 0x39))%N
      && forallb (fun d => ((0x30 <=? d) && (d <=? 0x39))%N) k
      && (List.length k <=? 10)%nat
      && (decimalValue k <? 4294967295)%N
  end.

(** The history invariant: the index is in range and the current entry
    is the table on display. *)
Definition historyInStep (s : App.State) : Prop :=
  App.historyInRange s /\ App.historyCurrent s.

(** A state with one row, used to exercise the handlers. *)
Definition sampleState : App.State :=
  {| App.data := [campaignRow]; App.headers := [js "name"; js "campaign_url"];
     App.isLoading := false; App.error := None; App.fileName := Some (js "a.csv");
     App.urlColumn := js "campaign_url"; App.mergeMode := App.utm_url;
     App.mergeSourceColumns := [js "name"]; App.mergeTargetColumn := js "merged";
     App.mergeSeparator := js " "; App.isCustomSeparator := false;
     App.customSeparator := []; App.baseUrlColumn := js "campaign_url";
     App.columnWidths := [(js "name", Some 147%Z); (js "campaign_url", Some 435%Z)];
     App.draggedHeader := Some (js "campaign_url"); App.dragOverHeader := None;
     App.editingHeader := None;
     App.history :=
       [{| App.itemData := [campaignRow];
           App.itemHeaders := [js "name"; js "campaign_url"];
           App.itemColumnWidths :=
             [(js "name", Some 147%Z); (js "campaign_url", Some 435%Z)] |}];
     App.historyIndex := 0 |}.

(** The sample state after one edit. *)
Definition editedState : App.State := App.deleteColumn (js "name") sampleState.

(* ================================================================= *)
(** * Strings: basic facts *)
(* ================================================================= *)

Lemma jseqb_eq (a b : jsstring) : jseqb a b = true <-> a = b.
Proof.
  revert b; induction a as [|x a IH]; intros [|y b]; simpl; split;
    try congruence; try reflexivity.
  - intros H. apply andb_true_iff in H as [H1 H2].
    apply N.eqb_eq in H1. apply IH in H2. congruence.
  - intros H. injection H as -> ->. rewrite N.eqb_refl. simpl. now apply IH.
Qed.

Lemma jseqb_refl (a : jsstring) : jseqb a a = true.
Proof. now apply jseqb_eq. Qed.

Lemma jseqb_neq (a b : jsstring) : jseqb a b = false <-> a <> b.
Proof.
  split.
  - intros H E. apply jseqb_eq in E. congruence.
  - intros H. destruct (jseqb a b) eqn:E; [|reflexivity].
    apply jseqb_eq in E. contradiction.
Qed.


Lemma isEmpty_false (s : jsstring) : isEmpty s = false <-> s <> [].
Proof. destruct s; simpl; split; congruence. Qed.

(* ================================================================= *)
(** * Numbers: sign and order *)
(* ================================================================= *)

Section Rounding.

Variables prec emax : Z.

Lemma shr_1_nonneg mrs : (0 <= shr_m mrs)%Z -> (0 <= shr_m (shr_1 mrs))%Z.
Proof.
  destruct mrs as [m r s]. simpl.
  destruct m as [|[p|p|]|[p|p|]]; simpl; lia.
Qed.

Lemma iter_shr_1_nonneg p : forall mrs,
  (0 <= shr_m mrs)%Z -> (0 <= shr_m (iter_pos shr_1 p mrs))%Z.
Proof.
  induction p as [p IH|p IH|]; intros mrs H; simpl.
  - apply IH, IH, shr_1_nonneg, H.
  - apply IH, IH, H.
  - apply shr_1_nonneg, H.
Qed.

Lemma shr_fexp_nonneg m e l :
  (0 <= m)%Z -> (0 <= shr_m (fst (shr_fexp prec emax m e l)))%Z.
Proof.
  intros H. unfold shr_fexp, shr.
  assert (H0 : (0 <= shr_m (shr_record_of_loc m l))%Z)
    by (destruct l as [|[]]; simpl; exact H).
  destruct (fexp prec emax (Zdigits2 m + e) - e)%Z; simpl; auto.
  apply iter_shr_1_nonneg, H0.
Qed.

Lemma round_nearest_even_nonneg m l :
  (0 <= m)%Z -> (0 <= round_nearest_even m l)%Z.
Proof.
  intros H. destruct l as [|[]]; simpl; try lia.
  destruct (Z.even m); lia.
Qed.

Lemma binary_round_aux_nonNegative m e l :
  (0 <= m)%Z -> nonNegative (binary_round_aux prec emax false m e l) = true.
Proof.
  intros H. unfold binary_round_aux.
  pose proof (shr_fexp_nonneg e l H) as H1.
  destruct (shr_fexp prec emax m e l) as [mrs' e']. simpl in H1.
  pose proof (round_nearest_even_nonneg (loc_of_shr_record mrs') H1) as H2.
  pose proof (shr_fexp_nonneg e' loc_Exact H2) as H3.
  destruct (shr_fexp prec emax _ e' loc_Exact) as [mrs'' e'']. simpl in H3.
  destruct (shr_m mrs''); try lia; try reflexivity.
  destruct (e'' <=? emax - prec)%Z; reflexivity.
Qed.

Lemma binary_round_nonNegative m e :
  nonNegative (binary_round prec emax false m e) = true.
Proof.
  unfold binary_round. destruct (shl_align _ _ _) as [mz ez].
  apply binary_round_aux_nonNegative. lia.
Qed.

Lemma SFadd_nonNegative x y :
  nonNegative x = true -> nonNegative y = true ->
  nonNegative (SFadd prec emax x y) = true.
Proof.
  destruct x as [[]|[]| |[] mx ex], y as [[]|[]| |[] my ey];
    simpl; try discriminate; try reflexivity.
  intros _ _. apply binary_round_nonNegative.
Qed.

Lemma SFmul_nonNegative x y :
  nonNegative x = true ->
  (exists m e, y = S754_finite false m e) ->
  nonNegative (SFmul prec emax x y) = true.
Proof.
  intros Hx (m & e & ->).
  destruct x as [[]|[]| |[] mx ex]; simpl; try discriminate; try reflexivity.
  apply binary_round_aux_nonNegative. lia.
Qed.

Lemma SFdiv_nonNegative x y :
  (x = S754_zero false \/ exists m e, x = S754_finite false m e) ->
  (exists m e, y = S754_finite false m e) ->
  nonNegative (SFdiv prec emax x y) = true.
Proof.
  intros [->|(mx & ex & ->)] (my & ey & ->); simpl; [reflexivity|].
  unfold SFdiv_core_binary.
  set (e' := Z.min _ _). set (m' := match (ex - ey - e')%Z with
                                   | 0%Z => Z.pos mx
                                   | Z.pos _ => Z.shiftl (Z.pos mx) (ex - ey - e')
                                   | Z.neg _ => 0%Z end).
  assert (Hm : (0 <= m')%Z).
  { subst m'. destruct (ex - ey - e')%Z; try lia.
    apply Z.shiftl_nonneg. lia. }
  pose proof (Z.div_pos m' (Z.pos my) Hm ltac:(lia)) as Hq.
  unfold Z.div in Hq.
  destruct (Z.div_eucl m' (Z.pos my)) as [q r].
  apply binary_round_aux_nonNegative. exact Hq.
Qed.

End Rounding.

Ltac order_cases :=
  repeat match goal with
  | |- context [Z.compare ?a ?b] => destruct (Z.compare_spec a b)
  | H : context [Z.compare ?a ?b] |- _ => destruct (Z.compare_spec a b)
  | |- context [Pos.compare_cont Eq ?a ?b] =>
      change (Pos.compare_cont Eq a b) with (Pos.compare a b);
      destruct (Pos.compare_spec a b)
  | H : context [Pos.compare_cont Eq ?a ?b] |- _ =>
      change (Pos.compare_cont Eq a b) with (Pos.compare a b) in H;
      destruct (Pos.compare_spec a b)
  end; simpl in *; try congruence; try lia.

(** The comparison of binary64 values is a total preorder away from NaN. *)
Lemma SFltb_trans x y z :
  SFltb x y = true -> SFltb y z = true -> SFltb x z = true.
Proof.
  unfold SFltb.
  destruct x as [[]|[]| |[] mx ex], y as [[]|[]| |[] my ey],
           z as [[]|[]| |[] mz ez]; simpl; try congruence; order_cases.
Qed.

Lemma SFleb_SFltb_trans x y z :
  SFleb x y = true -> SFltb y z = true -> SFltb x z = true.
Proof.
  unfold SFltb, SFleb.
  destruct x as [[]|[]| |[] mx ex], y as [[]|[]| |[] my ey],
           z as [[]|[]| |[] mz ez]; simpl; try congruence; order_cases.
Qed.

Lemma SFltb_false_SFleb x y :
  isNaN x = false -> isNaN y = false -> SFltb x y = false -> SFleb y x = true.
Proof.
  unfold SFltb, SFleb.
  destruct x as [[]|[]| |[] mx ex], y as [[]|[]| |[] my ey];
    simpl; try congruence; order_cases.
Qed.

Lemma nonNegative_not_NaN x : nonNegative x = true -> isNaN x = false.
Proof. destruct x as [[]|[]| |[] m e]; simpl; congruence. Qed.

Lemma nonNegative_above_minus_one x :
  nonNegative x = true -> numGt x (numOfZ (-1)) = true.
Proof.
  unfold numGt. change (numOfZ (-1)) with (S754_finite true 4503599627370496 (-52)).
  destruct x as [[]|[]| |[] m e]; simpl; try discriminate; reflexivity.
Qed.

(* ================================================================= *)
(** * The detector: scores *)
(* ================================================================= *)

Lemma numOfNat_small c :
  c <= 25 ->
  numOfNat c = S754_zero false \/ exists m e, numOfNat c = S754_finite false m e.
Proof.
  intros H.
  do 26 (destruct c as [|c];
         [first [left; reflexivity | right; do 2 eexists; vm_compute; reflexivity]|]).
  lia.
Qed.

Lemma numOfNat_small_pos n :
  1 <= n <= 25 -> exists m e, numOfNat n = S754_finite false m e.
Proof.
  intros H. destruct (numOfNat_small (c := n)) as [E|E]; [lia| |exact E].
  destruct n as [|n]; [lia|].
  do 25 (destruct n as [|n]; [vm_compute in E; discriminate|]). lia.
Qed.

Lemma weightedRate_nonNegative c n w :
  c <= 25 -> 1 <= n <= 25 ->
  (exists m e, numOfZ w = S754_finite false m e) ->
  nonNegative (weightedRate c n w) = true.
Proof.
  intros Hc Hn Hw. unfold weightedRate, numMul, numDiv.
  apply SFmul_nonNegative; [|exact Hw].
  apply SFdiv_nonNegative.
  - apply numOfNat_small, Hc.
  - apply numOfNat_small_pos, Hn.
Qed.

(** The seven [if] statements add up the points of the matching rules;
    the additions are exact. *)
Lemma headerNameScore_bonus h : headerNameScore h = numOfZ (headerNameBonus h).
Proof.
  unfold headerNameScore, headerNameBonus, headerNameRules.
  cbn [fold_right fst snd].
  generalize (toLowerCase h); intros l.
  repeat match goal with
         | |- context [if ?b then _ else _] => destruct b
         end; vm_compute; reflexivity.
Qed.

Lemma headerNameScore_nonNegative h : nonNegative (headerNameScore h) = true.
Proof.
  unfold headerNameScore.
  generalize (toLowerCase h); intros l.
  repeat match goal with
         | |- context [if ?b then _ else _] => destruct b
         end; vm_compute; reflexivity.
Qed.

(** The loop over the sample counts, for each pattern, the rows with a
    non-empty trimmed value that match it. *)
Lemma countSample_from h sample : forall c,
  fold_left (countRow h) sample c =
  {| utmMatchCount := utmMatchCount c + matchCount isUtmValue h sample;
     urlMatchCount := urlMatchCount c + matchCount isUrlValue h sample;
     trackingIdMatchCount :=
       trackingIdMatchCount c + matchCount isTrackingIdValue h sample;
     queryStringMatchCount :=
       queryStringMatchCount c + matchCount isQueryStringValue h sample;
     ampersandMatchCount :=
       ampersandMatchCount c + matchCount isAmpersandValue h sample |}.
Proof.
  unfold matchCount.
  induction sample as [|row sample IH]; intros c.
  - destruct c; simpl. now rewrite !Nat.add_0_r.
  - cbn [fold_left filter]. rewrite IH. unfold countRow.
    destruct (isEmpty (trim (cellText row h))); cbn [negb andb]; [reflexivity|].
    cbn [utmMatchCount urlMatchCount trackingIdMatchCount
         queryStringMatchCount ampersandMatchCount].
    destruct (isUtmValue _), (isUrlValue _), (isTrackingIdValue _),
      (isQueryStringValue _), (isAmpersandValue _); cbn [List.length];
      f_equal; lia.
Qed.

Lemma countSample_matchCount h sample :
  countSample h sample =
  {| utmMatchCount := matchCount isUtmValue h sample;
     urlMatchCount := matchCount isUrlValue h sample;
     trackingIdMatchCount := matchCount isTrackingIdValue h sample;
     queryStringMatchCount := matchCount isQueryStringValue h sample;
     ampersandMatchCount := matchCount isAmpersandValue h sample |}.
Proof. unfold countSample. now rewrite countSample_from. Qed.

Lemma matchCount_le test h sample : matchCount test h sample <= List.length sample.
Proof. unfold matchCount. apply filter_length_le. Qed.

Lemma columnScore_formula n sample h :
  columnScore n sample h =
  fold_left numAdd
    [ weightedRate (matchCount isUtmValue h sample) n 50;
      weightedRate (matchCount isUrlValue h sample) n 30;
      weightedRate (matchCount isTrackingIdValue h sample) n 20;
      weightedRate (matchCount isQueryStringValue h sample) n 10;
      weightedRate (matchCount isAmpersandValue h sample) n 25 ]
    (numOfZ (headerNameBonus h)).
Proof.
  unfold columnScore. rewrite countSample_matchCount, headerNameScore_bonus.
  cbn [utmMatchCount urlMatchCount trackingIdMatchCount
       queryStringMatchCount ampersandMatchCount fold_left].
  reflexivity.
Qed.

Lemma columnScore_nonNegative n sample h :
  1 <= n <= 25 -> List.length sample <= 25 ->
  nonNegative (columnScore n sample h) = true.
Proof.
  intros Hn Hs. rewrite columnScore_formula, <- headerNameScore_bonus.
  cbn [fold_left]. unfold numAdd.
  repeat apply SFadd_nonNegative; try apply headerNameScore_nonNegative;
    (apply weightedRate_nonNegative;
     [ etransitivity; [apply matchCount_le | exact Hs]
     | exact Hn
     | do 2 eexists; vm_compute; reflexivity ]).
Qed.

Lemma detectorScore_nonNegative data h :
  data <> [] -> nonNegative (detectorScore data h) = true.
Proof.
  intros H. unfold detectorScore. apply columnScore_nonNegative.
  - destruct data; [congruence|]. simpl List.length. lia.
  - rewrite length_firstn. lia.
Qed.

(* ================================================================= *)
(** * The detector: selection *)
(* ================================================================= *)

Lemma detectBestUrlColumn_nonempty headers data :
  data <> [] ->
  detectBestUrlColumn headers data =
  let (bestCol, highestScore) :=
    fold_left (trackBest (detectorScore data)) headers
              (@pair jsstring number [] (numOfZ (-1))) in
  if numGt highestScore (numOfZ 5) then bestCol else [].
Proof.
  intros H. unfold detectBestUrlColumn, detectorScore.
  destruct data; [congruence|reflexivity].
Qed.

Section TrackBest.

Variable score : jsstring -> number.

(** The tracked column is always the initial one or one of the headers. *)
Lemma trackBest_fold_in hs : forall b m,
  fst (fold_left (trackBest score) hs (b, m)) = b
  \/ In (fst (fold_left (trackBest score) hs (b, m))) hs.
Proof.
  induction hs as [|h hs IH]; intros b m; simpl; [now left|].
  destruct (numGt (score h) m).
  - destruct (IH h (score h)) as [E|E]; [rewrite E|]; auto.
  - destruct (IH b m) as [E|E]; auto.
Qed.

(** Either no header exceeds the initial score and the state is left as
    it was, or the state holds the first header of maximal score. *)
Lemma trackBest_fold_first_max hs : forall b m,
  (forall h, In h hs -> isNaN (score h) = false) ->
  isNaN m = false ->
  (fold_left (trackBest score) hs (b, m) = (b, m)
   /\ forall h, In h hs -> numGt (score h) m = false)
  \/ exists pre best post,
       hs = pre ++ best :: post
       /\ fold_left (trackBest score) hs (b, m) = (best, score best)
       /\ numGt (score best) m = true
       /\ (forall h, In h pre -> numGt (score best) (score h) = true)
       /\ (forall h, In h post -> numGt (score h) (score best) = false).
Proof.
  induction hs as [|h hs IH]; intros b m Hs Hm.
  - left. split; [reflexivity|]. intros h [].
  - assert (Hs' : forall h', In h' hs -> isNaN (score h') = false)
      by (intros; apply Hs; now right).
    cbn [fold_left trackBest].
    destruct (numGt (score h) m) eqn:Hgt.
    + right.
      destruct (IH h (score h) Hs' (Hs h (or_introl eq_refl)))
        as [[E Hle]|(pre & best & post & E1 & E2 & Hb & Hpre & Hpost)].
      * exists [], h, hs. repeat split; auto; intros h' [].
      * exists (h :: pre), best, post. subst hs. repeat split; auto.
        -- unfold numGt in *. eapply SFltb_trans; eassumption.
        -- intros h' [<-|Hin]; auto.
    + destruct (IH b m Hs' Hm)
        as [[E Hle]|(pre & best & post & E1 & E2 & Hb & Hpre & Hpost)].
      * left. split; [exact E|]. intros h' [<-|Hin]; auto.
      * right. exists (h :: pre), best, post. subst hs. repeat split; auto.
        intros h' [<-|Hin]; auto.
        unfold numGt in *. eapply SFleb_SFltb_trans; [|exact Hb].
        apply SFltb_false_SFleb; auto. apply Hs. now left.
Qed.

End TrackBest.

Lemma numGt_false_numGe a b :
  isNaN a = false -> isNaN b = false -> numGt a b = false -> numGe b a = true.
Proof. unfold numGt, numGe. intros. now apply SFltb_false_SFleb. Qed.

Lemma numGt_numGe a b : numGt a b = true -> numGe a b = true.
Proof.
  unfold numGt, numGe, SFltb, SFleb. destruct (SFcompare b a) as [[]|]; congruence.
Qed.

Lemma numGe_refl a : isNaN a = false -> numGe a a = true.
Proof.
  intros H. apply numGt_false_numGe; auto.
  unfold numGt, SFltb.
  destruct a as [[]|[]| |[] m e]; simpl in *; try congruence.
  all: rewrite Z.compare_refl; change (Pos.compare_cont Eq m m) with (Pos.compare m m);
    now rewrite Pos.compare_refl.
Qed.

(** ** C6 *)

(** C6. For each header, the score that the detector compares is the sum
    of the points of every header-name rule that matches the lowercased
    header (25, 20, 15, 12, 10, 8, 5; all matching rules add up), plus,
    for each of the five content patterns, the number of sampled rows
    matching it divided by the sample size [min(data.length, 25)] -- not
    by the number of non-empty values -- and multiplied by its weight
    (50, 30, 20, 10, 25).  The sums, quotients and products are those of
    binary64, taken in the order of the source. *)
Theorem detector_score_is_weighted_sum (data : list FileRow) (h : jsstring) :
  let sampleSize := Nat.min (List.length data) 25 in
  let sample := firstn sampleSize data in
  detectorScore data h =
  fold_left numAdd
    [ weightedRate (matchCount isUtmValue h sample) sampleSize 50;
      weightedRate (matchCount isUrlValue h sample) sampleSize 30;
      weightedRate (matchCount isTrackingIdValue h sample) sampleSize 20;
      weightedRate (matchCount isQueryStringValue h sample) sampleSize 10;
      weightedRate (matchCount isAmpersandValue h sample) sampleSize 25 ]
    (numOfZ (headerNameBonus h)).
Proof.
  intros sampleSize sample. unfold detectorScore. fold sampleSize. fold sample.
  unfold columnScore.
  rewrite countSample_matchCount, headerNameScore_bonus.
  cbn [utmMatchCount urlMatchCount trackingIdMatchCount
       queryStringMatchCount ampersandMatchCount fold_left].
  reflexivity.
Qed.

(** ** C7 *)

(** C7. With no rows the detector returns the empty string.  Otherwise,
    when there is a header at all, the header list splits around a header
    [best] whose score is strictly greater than the score of every
    earlier header and not exceeded by any header (so the first header of
    maximal score), and the detector returns [best] when its score is
    strictly greater than 5 and the empty string otherwise. *)
Theorem detector_selection_rule (headers : list jsstring) (data : list FileRow) :
  detectBestUrlColumn headers [] = []
  /\ (data <> [] -> headers <> [] ->
      exists pre best post,
        headers = pre ++ best :: post
        /\ (forall h, In h pre ->
              numGt (detectorScore data best) (detectorScore data h) = true)
        /\ (forall h, In h post ->
              numGt (detectorScore data h) (detectorScore data best) = false)
        /\ (forall h, In h headers ->
              numGe (detectorScore data best) (detectorScore data h) = true)
        /\ detectBestUrlColumn headers data =
           if numGt (detectorScore data best) (numOfZ 5) then best else []).
Proof.
  split; [reflexivity|].
  intros Hd Hh. rewrite (detectBestUrlColumn_nonempty headers Hd).
  assert (Hnn : forall h, isNaN (detectorScore data h) = false)
    by (intros; apply nonNegative_not_NaN, detectorScore_nonNegative, Hd).
  destruct (@trackBest_fold_first_max (detectorScore data) headers []
              (numOfZ (-1)) (fun h _ => Hnn h) eq_refl)
    as [[_ Hle]|(pre & best & post & E1 & E2 & Hb & Hpre & Hpost)].
  - destruct headers as [|h hs]; [congruence|].
    specialize (Hle h (or_introl eq_refl)).
    rewrite nonNegative_above_minus_one in Hle; [discriminate|].
    apply detectorScore_nonNegative, Hd.
  - exists pre, best, post. rewrite E2. repeat split; auto.
    intros h Hin. rewrite E1 in Hin. apply in_app_or in Hin as [Hin|[<-|Hin]].
    + apply numGt_numGe, Hpre, Hin.
    + apply numGe_refl, Hnn.
    + apply numGt_false_numGe; auto.
Qed.

Lemma detector_selection_rule_witness :
  exists pre best post,
    [js "name"; js "campaign_url"] = pre ++ best :: post
    /\ (forall h, In h pre ->
          numGt (detectorScore [campaignRow] best) (detectorScore [campaignRow] h) = true)
    /\ (forall h, In h post ->
          numGt (detectorScore [campaignRow] h) (detectorScore [campaignRow] best) = false)
    /\ (forall h, In h [js "name"; js "campaign_url"] ->
          numGe (detectorScore [campaignRow] best) (detectorScore [campaignRow] h) = true)
    /\ detectBestUrlColumn [js "name"; js "campaign_url"] [campaignRow] =
       if numGt (detectorScore [campaignRow] best) (numOfZ 5) then best else [].
Proof.
  apply (proj2 (detector_selection_rule [js "name"; js "campaign_url"] [campaignRow]));
    discriminate.
Defined.

(** ** C8 *)

(** C8. Two tables of more than 25 rows that agree on their first 25 rows
    give the same detected column, for every header list. *)
Theorem detector_ignores_rows_after_25 (headers : list jsstring)
    (rows1 rows2 : list FileRow) :
  25 < List.length rows1 -> 25 < List.length rows2 ->
  firstn 25 rows1 = firstn 25 rows2 ->
  detectBestUrlColumn headers rows1 = detectBestUrlColumn headers rows2.
Proof.
  intros H1 H2 E. unfold detectBestUrlColumn.
  destruct rows1 as [|r1 rows1]; [simpl in H1; lia|].
  destruct rows2 as [|r2 rows2]; [simpl in H2; lia|].
  cbn [List.length Nat.eqb].
  replace (Nat.min (S (List.length rows1)) 25) with 25 by (simpl in H1; lia).
  replace (Nat.min (S (List.length rows2)) 25) with 25 by (simpl in H2; lia).
  rewrite E. reflexivity.
Qed.

Lemma detector_ignores_rows_after_25_witness :
  detectBestUrlColumn [js "name"; js "campaign_url"]
    (repeat campaignRow 25 ++ [[(js "name", js "a?utm_source=b")]])
  = detectBestUrlColumn [js "name"; js "campaign_url"]
    (repeat campaignRow 25 ++ [[(js "name", js "c")]; campaignRow]).
Proof.
  apply (detector_ignores_rows_after_25 [js "name"; js "campaign_url"]
           (repeat campaignRow 25 ++ [[(js "name", js "a?utm_source=b")]])
           (repeat campaignRow 25 ++ [[(js "name", js "c")]; campaignRow])).
  - simpl. lia.
  - simpl. lia.
  - reflexivity.
Defined.

(** ** C10 *)

(** C10. The detector returns the empty string or one of the given
    headers; with no headers it returns the empty string whatever the
    rows are. *)
Theorem detector_returns_header_or_empty (headers : list jsstring)
    (data : list FileRow) :
  (detectBestUrlColumn headers data = []
   \/ In (detectBestUrlColumn headers data) headers)
  /\ detectBestUrlColumn [] data = [].
Proof.
  split.
  - destruct data as [|row data]; [now left|].
    rewrite detectBestUrlColumn_nonempty by discriminate.
    pose proof (trackBest_fold_in (detectorScore (row :: data)) headers []
                  (numOfZ (-1))) as E.
    destruct (fold_left _ headers _) as [bestCol highestScore].
    cbn [fst] in E.
    destruct (numGt highestScore (numOfZ 5)); [|now left].
    destruct E as [E|E]; auto.
  - unfold detectBestUrlColumn.
    destruct (List.length data =? 0)%nat; reflexivity.
Qed.

(* ================================================================= *)
(** * Strings: search, split and substring *)
(* ================================================================= *)

Lemma startsWith_nil s : startsWith s [] = true.
Proof. destruct s; reflexivity. Qed.

Lemma includes_char s c : includes s [c] = true <-> In c s.
Proof.
  induction s as [|x s IH]; simpl.
  - split; [discriminate|tauto].
  - rewrite startsWith_nil, andb_true_r, orb_true_iff, IH, N.eqb_eq. tauto.
Qed.

Lemma includes_char_false s c : includes s [c] = false <-> ~ In c s.
Proof.
  rewrite <- includes_char. destruct (includes s [c]); split; congruence.
Qed.

(** The first occurrence of a code unit. *)
Lemma first_occurrence (c : N) s :
  In c s -> exists a b, s = a ++ c :: b /\ ~ In c a.
Proof.
  induction s as [|x s IH]; intros H; [destruct H|].
  destruct (N.eq_dec x c) as [->|Hne].
  - exists [], s. split; [reflexivity|]. intros [].
  - destruct H as [H|H]; [congruence|].
    destruct (IH H) as (a & b & -> & Ha).
    exists (x :: a), b. split; [reflexivity|].
    intros [E|E]; [congruence|contradiction].
Qed.

Lemma indexOf_first a c b :
  ~ In c a -> indexOf (a ++ c :: b) [c] = Z.of_nat (List.length a).
Proof.
  induction a as [|x a IH]; intros H.
  - simpl. now rewrite N.eqb_refl, startsWith_nil.
  - cbn [app indexOf startsWith].
    assert (Hx : N.eqb x c = false)
      by (apply N.eqb_neq; intros ->; apply H; now left).
    rewrite Hx. cbn [andb]. rewrite IH by (intros Hin; apply H; now right).
    destruct (Z.ltb_spec (Z.of_nat (List.length a)) 0); [lia|].
    cbn [List.length]. lia.
Qed.

Lemma substring_prefix a b : substring (a ++ b) 0 (Z.of_nat (List.length a)) = a.
Proof.
  unfold substring, clampIndex. rewrite Nat2Z.id, length_app.
  cbn [Z.to_nat]. rewrite Nat.min_0_l.
  replace (Nat.min (List.length a) (List.length a + List.length b))
    with (List.length a) by lia.
  rewrite Nat.min_0_l, Nat.max_0_l, Nat.sub_0_r. cbn [skipn].
  rewrite firstn_app, firstn_all, Nat.sub_diag. cbn [firstn]. apply app_nil_r.
Qed.

Lemma substringFrom_suffix a c b :
  substringFrom (a ++ c :: b) (Z.of_nat (List.length a) + 1) = b.
Proof.
  unfold substringFrom, substring, clampIndex.
  rewrite Nat2Z.id, length_app. cbn [List.length].
  replace (Z.to_nat (Z.of_nat (List.length a) + 1)) with (S (List.length a)) by lia.
  replace (Nat.min (S (List.length a)) (List.length a + S (List.length b)))
    with (S (List.length a)) by lia.
  rewrite Nat.min_id.
  replace (Nat.min (S (List.length a)) (List.length a + S (List.length b)))
    with (S (List.length a)) by lia.
  replace (Nat.max (S (List.length a)) (List.length a + S (List.length b)))
    with (List.length a + S (List.length b)) by lia.
  replace (List.length a + S (List.length b) - S (List.length a))
    with (List.length b) by lia.
  replace (S (List.length a)) with (List.length (a ++ [c]))
    by (rewrite length_app; simpl; lia).
  replace (a ++ c :: b) with ((a ++ [c]) ++ b) by (now rewrite <- app_assoc).
  rewrite skipn_app, skipn_all, Nat.sub_diag. cbn [skipn app]. apply firstn_all.
Qed.

Lemma splitOn_not_nil sep s : splitOn sep s <> [].
Proof.
  destruct s as [|c s]; simpl; [discriminate|].
  destruct (N.eqb c sep); [discriminate|].
  destruct (splitOn sep s); discriminate.
Qed.

Lemma splitOn_absent sep s : ~ In sep s -> splitOn sep s = [s].
Proof.
  induction s as [|c s IH]; intros H; [reflexivity|]. simpl.
  assert (Hc : N.eqb c sep = false)
    by (apply N.eqb_neq; intros ->; apply H; now left).
  rewrite Hc, IH; [reflexivity|]. intros Hin; apply H; now right.
Qed.

Lemma splitOn_first sep a b :
  ~ In sep a -> splitOn sep (a ++ sep :: b) = a :: splitOn sep b.
Proof.
  induction a as [|c a IH]; intros H.
  - simpl. now rewrite N.eqb_refl.
  - cbn [app splitOn].
    assert (Hc : N.eqb c sep = false)
      by (apply N.eqb_neq; intros ->; apply H; now left).
    rewrite Hc, IH; [reflexivity|]. intros Hin; apply H; now right.
Qed.

(* ================================================================= *)
(** * splitUrl: the three branches *)
(* ================================================================= *)

(** The fragment-stripped string is the trimmed input up to its first
    [#], and holds no [#]. *)
Lemma urlWithoutFragmentOf_spec t :
  ~ In 0x23%N (urlWithoutFragmentOf t)
  /\ (t = urlWithoutFragmentOf t
      \/ exists fragment, t = urlWithoutFragmentOf t ++ 0x23%N :: fragment).
Proof.
  unfold urlWithoutFragmentOf.
  destruct (in_dec N.eq_dec 0x23%N t) as [Hin|Hout].
  - destruct (first_occurrence _ _ Hin) as (a & b & -> & Ha).
    rewrite splitOn_first by exact Ha. simpl. split; [exact Ha|].
    right. now exists b.
  - rewrite splitOn_absent by exact Hout. simpl. split; [exact Hout|now left].
Qed.

Lemma urlWithoutFragmentOf_absent t :
  ~ In 0x23%N t -> urlWithoutFragmentOf t = t.
Proof. intros H. unfold urlWithoutFragmentOf. now rewrite splitOn_absent. Qed.

Lemma splitUrl_unfold s :
  splitUrl s =
  {| cleanUrl := fst (locateQuery (trim s));
     params := extractParams (snd (locateQuery (trim s))) |}.
Proof.
  unfold splitUrl. destruct s as [|c s]; [reflexivity|].
  cbn [isEmpty]. destruct (locateQuery (trim (c :: s))); reflexivity.
Qed.

(** Standard form: the split is at the first [?]. *)
Lemma locateQuery_standard t a b :
  urlWithoutFragmentOf t = a ++ 0x3F%N :: b -> ~ In 0x3F%N a ->
  locateQuery t = (a, b).
Proof.
  intros E Ha. unfold locateQuery. rewrite E.
  change (js "?") with [0x3F%N].
  assert (Hin : includes (a ++ 0x3F%N :: b) [0x3F%N] = true)
    by (apply includes_char, in_or_app; right; now left).
  rewrite Hin, indexOf_first by exact Ha.
  now rewrite substringFrom_suffix,
    (substring_prefix a (0x3F%N :: b)).
Qed.

Lemma locateQuery_naked t :
  includes (urlWithoutFragmentOf t) (js "?") = false ->
  isNakedQuery (urlWithoutFragmentOf t) = true ->
  locateQuery t = ([], urlWithoutFragmentOf t).
Proof. intros H1 H2. unfold locateQuery. now rewrite H1, H2. Qed.

Lemma locateQuery_none t :
  includes (urlWithoutFragmentOf t) (js "?") = false ->
  isNakedQuery (urlWithoutFragmentOf t) = false ->
  locateQuery t = (t, []).
Proof. intros H1 H2. unfold locateQuery. now rewrite H1, H2. Qed.

(** What [locateQuery] returns besides the no-query case is computed from
    the fragment-stripped string alone. *)
Lemma locateQuery_fragment_free t1 t2 :
  urlWithoutFragmentOf t1 = urlWithoutFragmentOf t2 ->
  snd (locateQuery t1) = snd (locateQuery t2)
  /\ (includes (urlWithoutFragmentOf t1) (js "?")
      || isNakedQuery (urlWithoutFragmentOf t1) = true ->
      fst (locateQuery t1) = fst (locateQuery t2)
      /\ ~ In 0x23%N (fst (locateQuery t1))).
Proof.
  intros E. unfold locateQuery. rewrite <- E.
  destruct (urlWithoutFragmentOf_spec t1) as [Hu _].
  change (js "?") with [0x3F%N].
  destruct (includes (urlWithoutFragmentOf t1) [0x3F%N]) eqn:Hq.
  - split; [reflexivity|]. intros _. split; [reflexivity|].
    cbn [fst]. apply includes_char in Hq.
    destruct (first_occurrence _ _ Hq) as (a & b & Eu & Ha).
    rewrite Eu.
    rewrite indexOf_first by exact Ha.
    rewrite (substring_prefix a (0x3F%N :: b)).
    intros Hin. apply Hu. rewrite Eu. apply in_or_app. now left.
  - destruct (isNakedQuery (urlWithoutFragmentOf t1)).
    + split; [reflexivity|]. intros _. split; [reflexivity|]. intros [].
    + split; [reflexivity|]. cbn [orb]. discriminate.
Qed.

(* ================================================================= *)
(** * toLowerCase and the marker utm_ *)
(* ================================================================= *)

Ltac decide_code_units :=
  repeat (cbn [andb orb negb app startsWith];
          match goal with
          | |- context [N.eqb ?a ?b] => destruct (N.eqb_spec a b)
          | |- context [N.leb ?a ?b] => destruct (N.leb_spec a b)
          end);
  cbn [andb orb negb app startsWith]; try reflexivity; try lia.

(** A lowercased code unit is the letter [l] exactly when the code unit
    is [l] in either case. *)
Lemma startsWith_lowerCodeUnit_letter l c r p :
  In l [0x75; 0x74; 0x6D]%N ->
  startsWith (lowerCodeUnit c ++ r) (l :: p) =
  isLetterIgnoreCase l c && startsWith r p.
Proof.
  intros Hl. unfold lowerCodeUnit, isLetterIgnoreCase.
  destruct Hl as [<-|[<-|[<-|[]]]]; decide_code_units.
Qed.

Lemma startsWith_lowerCodeUnit_underscore c r p :
  startsWith (lowerCodeUnit c ++ r) (0x5F%N :: p) = (c =? 0x5F)%N && startsWith r p.
Proof.
  unfold lowerCodeUnit. decide_code_units.
Qed.

Lemma startsWith_toLowerCase_utm s :
  startsWith (toLowerCase s) (js "utm_") = startsWithUtmMarker s.
Proof.
  change (js "utm_") with [0x75; 0x74; 0x6D; 0x5F]%N.
  unfold toLowerCase, startsWithUtmMarker.
  destruct s as [|c1 s]; [reflexivity|]. cbn [flat_map].
  rewrite startsWith_lowerCodeUnit_letter by (simpl; tauto).
  destruct s as [|c2 s]; [cbn [flat_map startsWith]; apply andb_false_r|].
  cbn [flat_map]. rewrite startsWith_lowerCodeUnit_letter by (simpl; tauto).
  destruct s as [|c3 s]; [cbn [flat_map startsWith]; now rewrite !andb_false_r|].
  cbn [flat_map]. rewrite startsWith_lowerCodeUnit_letter by (simpl; tauto).
  destruct s as [|c4 s]; [cbn [flat_map startsWith]; now rewrite !andb_false_r|].
  cbn [flat_map]. rewrite startsWith_lowerCodeUnit_underscore, startsWith_nil.
  now rewrite andb_true_r, !andb_assoc.
Qed.

Lemma includes_lowerCodeUnit c r :
  includes (lowerCodeUnit c ++ r) (js "utm_") =
  startsWith (lowerCodeUnit c ++ r) (js "utm_") || includes r (js "utm_").
Proof.
  change (js "utm_") with [0x75; 0x74; 0x6D; 0x5F]%N.
  unfold lowerCodeUnit.
  repeat match goal with
         | |- context [if ?b then _ else _] => destruct b
         end; reflexivity.
Qed.

(** [toLowerCase().includes('utm_')] holds exactly of the strings that
    hold [utm_] in some letter case. *)
Lemma includes_toLowerCase_utm s :
  includes (toLowerCase s) (js "utm_") = containsUtmMarker s.
Proof.
  induction s as [|c s IH]; [reflexivity|].
  cbn [containsUtmMarker]. rewrite <- IH, <- startsWith_toLowerCase_utm.
  unfold toLowerCase. cbn [flat_map]. apply includes_lowerCodeUnit.
Qed.

Lemma isNakedQuery_spec u :
  isNakedQuery u = true <->
  includes u (js "=") = true
  /\ ((includes u (js ".") = false /\ includes u (js "/") = false)
      \/ containsUtmMarker u = true).
Proof.
  unfold isNakedQuery. rewrite includes_toLowerCase_utm.
  rewrite andb_true_iff, orb_true_iff, negb_true_iff, orb_false_iff. tauto.
Qed.

(** ** C2 *)

(** C2 as stated does not hold: in the no-query case the returned
    [cleanUrl] is the whole trimmed input, fragment included. *)
Lemma fragment_kept_in_no_query_case :
  splitUrl (js "http://x.com/page#top") =
    {| cleanUrl := js "http://x.com/page#top"; params := [] |}
  /\ ~ (forall s, includes (cleanUrl (splitUrl s)) (js "#") = false).
Proof.
  split; [reflexivity|].
  intros H. specialize (H (js "http://x.com/page#top")). discriminate H.
Qed.

(** C2, amended.  Take two inputs whose trimmed forms agree up to their
    first [#].  They give the same [params]; in the standard and in the
    naked query branch they also give the same [cleanUrl], which holds no
    [#]; in the no-query case [cleanUrl] is the whole trimmed input, with
    its fragment. *)
Theorem split_fragment_policy (s1 s2 : jsstring) :
  urlWithoutFragmentOf (trim s1) = urlWithoutFragmentOf (trim s2) ->
  let u := urlWithoutFragmentOf (trim s1) in
  params (splitUrl s1) = params (splitUrl s2)
  /\ (includes u (js "?") || isNakedQuery u = true ->
      cleanUrl (splitUrl s1) = cleanUrl (splitUrl s2)
      /\ includes (cleanUrl (splitUrl s1)) (js "#") = false)
  /\ (includes u (js "?") || isNakedQuery u = false ->
      cleanUrl (splitUrl s1) = trim s1 /\ params (splitUrl s1) = []).
Proof.
  intros E u. rewrite !splitUrl_unfold. cbn [cleanUrl params].
  destruct (locateQuery_fragment_free _ _ E) as [Hs Hc].
  split; [now rewrite Hs|]. split.
  - intros H. destruct (Hc H) as [H1 H2]. split; [exact H1|].
    change (js "#") with [0x23%N]. now apply includes_char_false.
  - intros H. apply orb_false_iff in H as [H1 H2].
    now rewrite (locateQuery_none _ H1 H2).
Qed.

Lemma split_fragment_policy_witness :
  params (splitUrl (js "http://x.com/a?utm_source=g#top"))
  = params (splitUrl (js "  http://x.com/a?utm_source=g#other=1 "))
  /\ cleanUrl (splitUrl (js "http://x.com/a?utm_source=g#top"))
     = cleanUrl (splitUrl (js "  http://x.com/a?utm_source=g#other=1 "))
  /\ includes (cleanUrl (splitUrl (js "http://x.com/a?utm_source=g#top"))) (js "#")
     = false.
Proof.
  destruct (split_fragment_policy (js "http://x.com/a?utm_source=g#top")
              (js "  http://x.com/a?utm_source=g#other=1 ") eq_refl)
    as (Hp & Hc & _).
  split; [exact Hp|]. apply Hc. reflexivity.
Defined.

(** ** C3 *)

(** C3. For a trimmed, non-blank input whose fragment-stripped part [u]
    holds no [?]: the whole of [u] becomes the raw query substring, with
    an empty [cleanUrl], exactly when [u] holds an [=] and either holds
    neither [.] nor [/] or holds [utm_] in any letter case; otherwise
    [cleanUrl] is the whole input and [params] is empty.  So it is for
    the input [a.b=1]. *)
Theorem split_naked_query_rule :
  (forall s : jsstring,
     trim s = s -> s <> [] ->
     let u := urlWithoutFragmentOf s in
     includes u (js "?") = false ->
     let condition :=
       includes u (js "=") = true
       /\ ((includes u (js ".") = false /\ includes u (js "/") = false)
           \/ containsUtmMarker u = true) in
     (condition <-> locateQuery s = ([], u))
     /\ (condition <-> cleanUrl (splitUrl s) = [])
     /\ (condition ->
         splitUrl s = {| cleanUrl := []; params := extractParams u |})
     /\ (~ condition -> splitUrl s = {| cleanUrl := s; params := [] |}))
  /\ splitUrl (js "a.b=1") = {| cleanUrl := js "a.b=1"; params := [] |}.
Proof.
  split; [|reflexivity].
  intros s Ht Hs u Hq condition.
  assert (Hc : condition <-> isNakedQuery u = true)
    by (symmetry; apply isNakedQuery_spec).
  rewrite splitUrl_unfold, Ht.
  destruct (isNakedQuery u) eqn:Hn.
  - rewrite (locateQuery_naked _ Hq Hn). cbn [fst snd cleanUrl]. fold u.
    assert (Hyes : condition) by (apply Hc; reflexivity).
    split; [|split; [|split]]; tauto.
  - rewrite (locateQuery_none _ Hq Hn). cbn [fst snd cleanUrl].
    assert (Hno : ~ condition) by (intros H; apply Hc in H; discriminate).
    split; [|split; [|split]].
    + split; [tauto|]. intros H. injection H as H1 _. contradiction.
    + split; [tauto|]. intros H. contradiction.
    + tauto.
    + reflexivity.
Qed.

Lemma split_naked_query_rule_witness :
  splitUrl (js "utm_source=google&utm_medium=cpc") =
  {| cleanUrl := [];
     params := extractParams (urlWithoutFragmentOf (js "utm_source=google&utm_medium=cpc")) |}.
Proof.
  apply (proj1 split_naked_query_rule (js "utm_source=google&utm_medium=cpc")).
  - reflexivity.
  - discriminate.
  - reflexivity.
  - split; [reflexivity|]. left. split; reflexivity.
Defined.

(** ** C4 *)

(** C4 as stated does not hold: an input that begins with [?] is read in
    the standard form, and its [cleanUrl] is empty although the input is
    not blank and was not read as a naked query string. *)
Lemma empty_cleanUrl_in_standard_form :
  splitUrl (js "?a=1") = {| cleanUrl := []; params := [(js "a", js "1")] |}
  /\ trim (js "?a=1") <> []
  /\ includes (urlWithoutFragmentOf (trim (js "?a=1"))) (js "?") = true
  /\ ~ (forall s,
          cleanUrl (splitUrl s) = [] ->
          (includes (urlWithoutFragmentOf (trim s)) (js "?") = false
           /\ isNakedQuery (urlWithoutFragmentOf (trim s)) = true)
          \/ trim s = []).
Proof.
  repeat split; try reflexivity; try discriminate.
  intros H. destruct (H (js "?a=1") eq_refl) as [[H1 _]|H1]; discriminate H1.
Qed.

(** C4, amended.  When the fragment-stripped input [u] holds no [?] and
    is not read as a naked query string, [params] is empty and [cleanUrl]
    is the trimmed input.  The returned [cleanUrl] is empty exactly when
    the input was read as a naked query string, or is empty or blank, or
    [u] begins with [?]. *)
Theorem split_result_invariant (s : jsstring) :
  let u := urlWithoutFragmentOf (trim s) in
  (includes u (js "?") = false -> isNakedQuery u = false ->
   splitUrl s = {| cleanUrl := trim s; params := [] |})
  /\ (cleanUrl (splitUrl s) = [] <->
      (includes u (js "?") = false /\ isNakedQuery u = true)
      \/ trim s = []
      \/ startsWith u (js "?") = true).
Proof.
  intros u. rewrite splitUrl_unfold. cbn [cleanUrl]. split.
  - intros H1 H2. now rewrite (locateQuery_none _ H1 H2).
  - change (js "?") with [0x3F%N].
    destruct (includes u [0x3F%N]) eqn:Hq.
    + pose proof Hq as Hin. apply includes_char in Hin.
      destruct (first_occurrence _ _ Hin) as (a & b & Eu & Ha).
      rewrite (@locateQuery_standard (trim s) a b Eu Ha). cbn [fst]. fold u.
      rewrite Eu.
      split.
      * intros ->. right. right. cbn [app startsWith].
        now rewrite N.eqb_refl, startsWith_nil.
      * intros [[H _]|[H|H]]; [discriminate| |].
        -- subst u. rewrite H in Eu. destruct a; discriminate.
        -- destruct a as [|x a]; [reflexivity|]. simpl in H.
           apply andb_true_iff in H as [H _]. apply N.eqb_eq in H. subst x.
           exfalso. apply Ha. now left.
    + destruct (isNakedQuery u) eqn:Hn.
      * rewrite (locateQuery_naked _ Hq Hn). cbn [fst]. tauto.
      * rewrite (locateQuery_none _ Hq Hn). cbn [fst]. split; [tauto|].
        intros [[_ H]|[H|H]]; [discriminate|exact H|].
        destruct u as [|x u']; [discriminate|]. simpl in H, Hq.
        rewrite startsWith_nil in Hq.
        apply andb_true_iff in H as [H _]. rewrite H in Hq. discriminate.
Qed.

Lemma split_result_invariant_witness :
  splitUrl (js " example.com/path ") =
  {| cleanUrl := trim (js " example.com/path "); params := [] |}.
Proof.
  apply (proj1 (split_result_invariant (js " example.com/path "))); reflexivity.
Defined.

(* ================================================================= *)
(** * mergeUrl *)
(* ================================================================= *)

Lemma urlencodedSerialize_from ts : forall out,
  out <> [] ->
  fold_left
    (fun output '(name, value) =>
       let pair := urlencodedEncode name ++ [0x3D%N] ++ urlencodedEncode value in
       if isEmpty output then pair else output ++ [0x26%N] ++ pair)
    ts out
  = out ++ flat_map (fun t => 0x26%N :: pairString t) ts.
Proof.
  induction ts as [|[n v] ts IH]; intros out Hout; cbn [fold_left flat_map].
  - now rewrite app_nil_r.
  - destruct out as [|c out]; [congruence|]. cbn [isEmpty].
    rewrite IH by discriminate.
    rewrite <- app_assoc. reflexivity.
Qed.

Lemma pairString_not_nil t : pairString t <> [].
Proof. unfold pairString. destruct (urlencodedEncode (fst t)); discriminate. Qed.

Lemma urlencodedSerialize_cons t ts :
  urlencodedSerialize (t :: ts) =
  pairString t ++ flat_map (fun t' => 0x26%N :: pairString t') ts.
Proof.
  unfold urlencodedSerialize. destruct t as [n v]. cbn [fold_left isEmpty].
  apply (urlencodedSerialize_from ts (out := pairString (n, v))).
  apply pairString_not_nil.
Qed.

Lemma urlencodedSerialize_nil_iff l : urlencodedSerialize l = [] <-> l = [].
Proof.
  destruct l as [|t ts]; [tauto|]. rewrite urlencodedSerialize_cons.
  split; [|discriminate]. intros H. apply app_eq_nil in H as [H _].
  now apply pairString_not_nil in H.
Qed.

Lemma setFirst_not_nil l name value : l <> [] -> setFirst l name value <> [].
Proof.
  destruct l as [|[n v] l]; [congruence|]. intros _. simpl.
  destruct (jseqb n name); discriminate.
Qed.

Lemma uspSet_not_nil l name value : uspSet l name value <> [].
Proof.
  unfold uspSet. destruct (existsb _ l) eqn:E.
  - apply setFirst_not_nil. destruct l; [discriminate|congruence].
  - destruct l; discriminate.
Qed.

Lemma in_setFirst t l name value :
  In t (setFirst l name value) -> In t l \/ t = (name, value).
Proof.
  induction l as [|[n v] l IH]; simpl; [tauto|].
  destruct (jseqb n name) eqn:E.
  - intros [<-|H].
    + apply jseqb_eq in E. subst. now right.
    + apply filter_In in H as [H _]. auto.
  - intros [<-|H]; [auto|]. destruct (IH H); auto.
Qed.

Lemma in_uspSet t l name value :
  In t (uspSet l name value) ->
  In t l \/ t = (toUSVString name, toUSVString value).
Proof.
  unfold uspSet. destruct (existsb _ l).
  - apply in_setFirst.
  - intros H. apply in_app_or in H as [H|[<-|[]]]; auto.
Qed.

Lemma mergeParams_fold_filter entries : forall acc,
  fold_left mergeEntry entries acc =
  fold_left mergeEntry (filter (fun e => isNonBlank (snd e)) entries) acc.
Proof.
  induction entries as [|[k v] entries IH]; intros acc; [reflexivity|].
  cbn [fold_left filter snd]. unfold mergeEntry at 2.
  destruct (isNonBlank v) eqn:E.
  - cbn [fold_left]. unfold mergeEntry at 3. rewrite E. apply IH.
  - apply IH.
Qed.

Lemma mergeParams_fold_not_nil entries : forall acc,
  acc <> [] -> fold_left mergeEntry entries acc <> [].
Proof.
  induction entries as [|[k v] entries IH]; intros acc H; [exact H|].
  cbn [fold_left]. apply IH. unfold mergeEntry.
  destruct (isNonBlank v); [apply uspSet_not_nil|exact H].
Qed.

Lemma mergeParams_fold_origin entries : forall acc t,
  In t (fold_left mergeEntry entries acc) ->
  In t acc
  \/ exists key value,
       In (key, value) entries /\ isNonBlank value = true
       /\ t = (toUSVString key, toUSVString value).
Proof.
  induction entries as [|[k v] entries IH]; intros acc t H; [now left|].
  cbn [fold_left] in H. apply IH in H as [H|(key & value & H1 & H2 & H3)].
  - unfold mergeEntry in H. destruct (isNonBlank v) eqn:E; [|now left].
    apply in_uspSet in H as [H|H]; [now left|].
    right. exists k, v. repeat split; auto. now left.
  - right. exists key, value. repeat split; auto. now right.
Qed.

Lemma mergeParams_filter parameters :
  mergeParams parameters =
  mergeParams (filter (fun e => isNonBlank (snd e)) parameters).
Proof. apply mergeParams_fold_filter. Qed.

Lemma mergeParams_nil_iff parameters :
  mergeParams parameters = [] <-> forallb isBlankEntry parameters = true.
Proof.
  unfold mergeParams, objectEntries.
  induction parameters as [|[k v] parameters IH]; [simpl; tauto|].
  cbn [fold_left forallb]. unfold isBlankEntry at 1, mergeEntry at 2. cbn [snd].
  destruct (isNonBlank v) eqn:E; cbn [negb andb].
  - split; [|discriminate]. intros H. exfalso. revert H.
    apply mergeParams_fold_not_nil, uspSet_not_nil.
  - exact IH.
Qed.

(** ** C5 *)

(** C5 as stated does not hold for an empty [cleanUrl]: the encoded
    query string is returned alone, with no [?] before it. *)
Lemma merge_empty_cleanUrl_has_no_question_mark :
  uspToString (mergeParams [(js "a", js "1")]) = js "a=1"
  /\ includes [] (js "?") = false
  /\ mergeUrl [] [(js "a", js "1")] = js "a=1"
  /\ mergeUrl [] [(js "a", js "1")] <> [] ++ js "?" ++ js "a=1".
Proof. repeat split; try reflexivity. discriminate. Qed.

(** C5, amended.  The encoded query string is built from the entries
    whose value is neither empty nor all white space: it is the one of the
    mapping without its blank entries, every tuple in it comes from a
    non-blank entry, and it is empty exactly when every entry is blank.
    When it is empty [mergeUrl] returns [cleanUrl] as it is.  Otherwise a
    non-empty [cleanUrl] is followed by [?] when it holds no [?], by [&]
    when it does, and then by the encoded query string; with an empty
    [cleanUrl] the result is the encoded query string alone. *)
Theorem merge_appends_non_blank_query (cleanUrl : jsstring) (parameters : JsObject) :
  let queryString := uspToString (mergeParams parameters) in
  mergeParams parameters = mergeParams (filter (fun e => isNonBlank (snd e)) parameters)
  /\ (forall name value,
        In (name, value) (mergeParams parameters) ->
        exists key v, In (key, v) parameters /\ isNonBlank v = true
                      /\ name = toUSVString key /\ value = toUSVString v)
  /\ (queryString = [] <-> forallb isBlankEntry parameters = true)
  /\ (queryString = [] -> mergeUrl cleanUrl parameters = cleanUrl)
  /\ (queryString <> [] -> cleanUrl <> [] ->
      mergeUrl cleanUrl parameters =
      cleanUrl ++ (if includes cleanUrl (js "?") then js "&" else js "?")
               ++ queryString)
  /\ (queryString <> [] -> cleanUrl = [] ->
      mergeUrl cleanUrl parameters = queryString).
Proof.
  intros queryString.
  split; [apply mergeParams_filter|].
  split.
  { intros name value H.
    apply mergeParams_fold_origin in H as [[]|(key & v & H1 & H2 & H3)].
    injection H3 as -> ->. now exists key, v. }
  split.
  { unfold queryString, uspToString.
    now rewrite urlencodedSerialize_nil_iff, mergeParams_nil_iff. }
  unfold mergeUrl. fold queryString.
  split; [|split].
  - intros E. rewrite E.
    destruct cleanUrl as [|c cl]; cbn [isEmpty andb negb]; [|reflexivity].
    destruct (_ =? 0)%nat; reflexivity.
  - intros E Hc.
    destruct cleanUrl as [|c cl]; [congruence|]. cbn [isEmpty andb].
    destruct queryString; [congruence|reflexivity].
  - intros E ->. cbn [isEmpty andb].
    destruct parameters as [|e parameters]; [|reflexivity].
    exfalso. apply E. reflexivity.
Qed.

Lemma merge_appends_non_blank_query_witness :
  mergeUrl (js "http://x.com?a=1") [(js "b", js "2"); (js "c", js " ")] =
  js "http://x.com?a=1"
  ++ (if includes (js "http://x.com?a=1") (js "?") then js "&" else js "?")
  ++ uspToString (mergeParams [(js "b", js "2"); (js "c", js " ")]).
Proof.
  apply (merge_appends_non_blank_query (js "http://x.com?a=1")
           [(js "b", js "2"); (js "c", js " ")]); discriminate.
Defined.

(* ================================================================= *)
(** * splitUrl: the recorded parameters *)
(* ================================================================= *)

Lemma getProp_updateProp o k v k' :
  getProp (updateProp o k v) k' = if jseqb k k' then Some v else getProp o k'.
Proof.
  induction o as [|[k0 v0] o IH]; cbn [updateProp getProp].
  - reflexivity.
  - destruct (jseqb k0 k) eqn:E0.
    + apply jseqb_eq in E0. subst k0. cbn [getProp].
      destruct (jseqb k k'); reflexivity.
    + cbn [getProp]. rewrite IH.
      destruct (jseqb k0 k') eqn:E1; [|reflexivity].
      apply jseqb_eq in E1. subst k0. now rewrite (proj2 (jseqb_neq k k')) by
        (intros ->; now rewrite jseqb_refl in E0).
Qed.

Lemma getProp_recordParam_other o n v k :
  jseqb n k = false \/ isRecordedKey k = false ->
  getProp (recordParam o (n, v)) k = getProp o k.
Proof.
  intros H. unfold recordParam, setProp.
  destruct (isEmpty n) eqn:En; cbn [negb]; [reflexivity|].
  destruct (jseqb n (js "__proto__")) eqn:Ep; [reflexivity|].
  rewrite getProp_updateProp.
  destruct (jseqb n k) eqn:Enk; [|reflexivity].
  destruct H as [H|H]; [discriminate|].
  apply jseqb_eq in Enk. subst k. unfold isRecordedKey in H.
  rewrite En, Ep in H. discriminate.
Qed.

Lemma getProp_recordParam_same o k v :
  isRecordedKey k = true -> getProp (recordParam o (k, v)) k = Some v.
Proof.
  unfold isRecordedKey, recordParam, setProp. intros H.
  apply andb_true_iff in H as [H1 H2].
  rewrite H1. apply negb_true_iff in H2. rewrite H2, getProp_updateProp.
  now rewrite jseqb_refl.
Qed.

(** After the loop, a recorded key holds the value of its last
    occurrence; the empty key and [__proto__] are never stored. *)
Lemma getProp_recordParam_fold tuples k : forall o,
  getProp (fold_left recordParam tuples o) k =
  match (if isRecordedKey k then lastValue tuples k else None) with
  | Some v => Some v
  | None => getProp o k
  end.
Proof.
  induction tuples as [|[n v] tuples IH]; intros o; cbn [fold_left lastValue].
  - destruct (isRecordedKey k); reflexivity.
  - rewrite IH. destruct (isRecordedKey k) eqn:Ek.
    + destruct (lastValue tuples k); [reflexivity|].
      destruct (jseqb n k) eqn:Enk.
      * apply jseqb_eq in Enk. subst n. now apply getProp_recordParam_same.
      * apply getProp_recordParam_other. now left.
    + apply getProp_recordParam_other. now right.
Qed.

Lemma getProp_extractParams searchPart k :
  getProp (extractParams searchPart) k =
  if isRecordedKey k then lastValue (newURLSearchParams searchPart) k else None.
Proof.
  unfold extractParams. destruct searchPart as [|c sp]; cbn [isEmpty negb].
  - destruct (isRecordedKey k); reflexivity.
  - rewrite getProp_recordParam_fold. cbn [getProp].
    destruct (isRecordedKey k); [|reflexivity].
    destruct (lastValue _ k); reflexivity.
Qed.

(** What holds of the query parsing edge cases: the split is at the first
    [?], later ones stay in the raw query substring; a key other than
    [__proto__] holds the value of its last occurrence; the empty key is
    not stored. *)
Lemma split_query_edge_cases (s : jsstring) :
  includes (urlWithoutFragmentOf (trim s)) (js "?") = true ->
  exists a b,
    urlWithoutFragmentOf (trim s) = a ++ js "?" ++ b
    /\ includes a (js "?") = false
    /\ locateQuery (trim s) = (a, b)
    /\ cleanUrl (splitUrl s) = a
    /\ (forall k, getProp (params (splitUrl s)) k =
                  if isRecordedKey k then lastValue (newURLSearchParams b) k
                  else None)
    /\ getProp (params (splitUrl s)) [] = None.
Proof.
  change (js "?") with [0x3F%N]. intros H. apply includes_char in H.
  destruct (first_occurrence _ _ H) as (a & b & E & Ha).
  exists a, b. rewrite splitUrl_unfold, (@locateQuery_standard (trim s) a b E Ha).
  cbn [fst snd cleanUrl params].
  repeat split; auto.
  - now apply includes_char_false.
  - intros k. apply getProp_extractParams.
  - now rewrite getProp_extractParams.
Qed.

Lemma split_later_question_marks_are_literal :
  splitUrl (js "http://x.com/a?u=http://y.com/?q=1&v=2&&=3&v=4") =
  {| cleanUrl := js "http://x.com/a";
     params := [(js "u", js "http://y.com/?q=1"); (js "v", js "4")] |}.
Proof. reflexivity. Qed.

(** ** C9 *)

(** C9.  The key [__proto__] does not end up with the value of its last
    occurrence: the parser yields both tuples, the key is not empty, yet
    nothing is stored under it. *)
Theorem split_loses_proto_key :
  newURLSearchParams (js "__proto__=1&__proto__=2") =
    [(js "__proto__", js "1"); (js "__proto__", js "2")]
  /\ lastValue (newURLSearchParams (js "__proto__=1&__proto__=2")) (js "__proto__")
     = Some (js "2")
  /\ splitUrl (js "http://x.com/?__proto__=1&__proto__=2") =
     {| cleanUrl := js "http://x.com/"; params := [] |}
  /\ getProp (params (splitUrl (js "http://x.com/?__proto__=1&__proto__=2")))
       (js "__proto__") = None.
Proof. repeat split; reflexivity. Qed.

(* ================================================================= *)
(** * Bit operations as arithmetic *)
(* ================================================================= *)

Ltac divmod_lia := zify; Z.to_euclidean_division_equations; lia.

Lemma lor_shiftl_small a n b :
  (b < 2 ^ n)%N -> N.lor (N.shiftl a n) b = (a * 2 ^ n + b)%N.
Proof.
  intros H.
  assert (H0 : N.land (N.shiftl a n) b = 0%N).
  { apply N.bits_inj_0. intros m. rewrite N.land_spec.
    destruct (N.lt_ge_cases m n) as [Hm|Hm].
    - now rewrite N.shiftl_spec_low.
    - rewrite <- (N.mod_small b (2 ^ n)) by exact H.
      rewrite N.mod_pow2_bits_high by exact Hm. apply andb_false_r. }
  now rewrite <- N.lxor_lor, <- N.add_nocarry_lxor, N.shiftl_mul_pow2.
Qed.

Lemma land_low_bits a n : N.land a (N.ones n) = (a mod 2 ^ n)%N.
Proof. apply N.land_ones. Qed.

Lemma continuation_byte x : N.lor 0x80 (N.land x 0x3F) = (0x80 + x mod 64)%N.
Proof.
  change 0x3F%N with (N.ones 6). rewrite land_low_bits.
  change 0x80%N with (N.shiftl 2 6) at 1.
  rewrite lor_shiftl_small by (apply N.mod_lt; discriminate).
  reflexivity.
Qed.

Lemma utf8EncodeCodePoint_arith cp :
  utf8EncodeCodePoint cp =
  if (cp <=? 0x7F)%N then [cp]
  else if (cp <=? 0x7FF)%N then [(cp / 64 + 0xC0)%N; (0x80 + cp mod 64)%N]
  else if (cp <=? 0xFFFF)%N then
    [(cp / 4096 + 0xE0)%N; (0x80 + (cp / 64) mod 64)%N; (0x80 + cp mod 64)%N]
  else
    [(cp / 262144 + 0xF0)%N; (0x80 + (cp / 4096) mod 64)%N;
     (0x80 + (cp / 64) mod 64)%N; (0x80 + cp mod 64)%N].
Proof.
  unfold utf8EncodeCodePoint. rewrite !continuation_byte, !N.shiftr_div_pow2.
  change (6 * 0)%N with 0%N. change (6 * 1)%N with 6%N. change (6 * 2)%N with 12%N.
  change (2 ^ 0)%N with 1%N. change (2 ^ 6)%N with 64%N.
  change (2 ^ 12)%N with 4096%N. change (2 ^ 18)%N with 262144%N.
  rewrite N.div_1_r. reflexivity.
Qed.

(* ================================================================= *)
(** * UTF-8: decoding what was encoded *)
(* ================================================================= *)

Lemma isScalarValue_spec cp :
  isScalarValue cp = true <->
  (cp < 0xD800 \/ 0xE000 <= cp < 0x110000)%N.
Proof.
  unfold isScalarValue.
  rewrite orb_true_iff, andb_true_iff, !N.ltb_lt, N.leb_le. tauto.
Qed.

Lemma utf8Lead_ascii b : (b <= 0x7F)%N -> utf8Lead b = ([b], utf8Initial).
Proof. intros H. unfold utf8Lead. apply N.leb_le in H. now rewrite H. Qed.

Lemma utf8Lead_two b :
  (0xC2 <= b <= 0xDF)%N ->
  utf8Lead b =
  ([], {| codePoint := b mod 32; bytesSeen := 0; bytesNeeded := 1;
          lowerBoundary := 0x80; upperBoundary := 0xBF |}).
Proof.
  intros H. unfold utf8Lead.
  destruct (N.leb_spec b 0x7F); [lia|].
  destruct (N.leb_spec 0xC2 b); [|lia].
  destruct (N.leb_spec b 0xDF); [|lia]. cbn [andb].
  change 0x1F%N with (N.ones 5). now rewrite land_low_bits.
Qed.

Lemma utf8Lead_three b :
  (0xE0 <= b <= 0xEF)%N ->
  utf8Lead b =
  ([], {| codePoint := b mod 16; bytesSeen := 0; bytesNeeded := 2;
          lowerBoundary := if (b =? 0xE0)%N then 0xA0%N else 0x80%N;
          upperBoundary := if (b =? 0xED)%N then 0x9F%N else 0xBF%N |}).
Proof.
  intros H. unfold utf8Lead.
  destruct (N.leb_spec b 0x7F); [lia|].
  destruct (N.leb_spec 0xC2 b); [|lia].
  destruct (N.leb_spec b 0xDF); [lia|]. cbn [andb].
  destruct (N.leb_spec 0xE0 b); [|lia].
  destruct (N.leb_spec b 0xEF); [|lia]. cbn [andb].
  change 0xF%N with (N.ones 4). now rewrite land_low_bits.
Qed.

Lemma utf8Lead_four b :
  (0xF0 <= b <= 0xF4)%N ->
  utf8Lead b =
  ([], {| codePoint := b mod 8; bytesSeen := 0; bytesNeeded := 3;
          lowerBoundary := if (b =? 0xF0)%N then 0x90%N else 0x80%N;
          upperBoundary := if (b =? 0xF4)%N then 0x8F%N else 0xBF%N |}).
Proof.
  intros H. unfold utf8Lead.
  destruct (N.leb_spec b 0x7F); [lia|].
  destruct (N.leb_spec 0xC2 b); [|lia].
  destruct (N.leb_spec b 0xDF); [lia|]. cbn [andb].
  destruct (N.leb_spec 0xE0 b); [|lia].
  destruct (N.leb_spec b 0xEF); [lia|]. cbn [andb].
  destruct (N.leb_spec 0xF0 b); [|lia].
  destruct (N.leb_spec b 0xF4); [|lia]. cbn [andb].
  change 0x7%N with (N.ones 3). now rewrite land_low_bits.
Qed.

Lemma utf8Step_continuation cp seen needed lower upper b :
  needed <> 0%N -> (lower <= b <= upper)%N ->
  utf8Step {| codePoint := cp; bytesSeen := seen; bytesNeeded := needed;
              lowerBoundary := lower; upperBoundary := upper |} b =
  if (seen + 1 =? needed)%N then ([(cp * 64 + b mod 64)%N], utf8Initial)
  else ([], {| codePoint := cp * 64 + b mod 64; bytesSeen := seen + 1;
               bytesNeeded := needed;
               lowerBoundary := 0x80; upperBoundary := 0xBF |}).
Proof.
  intros Hn Hb. unfold utf8Step.
  cbn [bytesNeeded lowerBoundary upperBoundary codePoint bytesSeen].
  destruct (N.eqb_spec needed 0); [contradiction|].
  destruct (N.leb_spec lower b); [|lia].
  destruct (N.leb_spec b upper); [|lia]. cbn [andb negb].
  change 0x3F%N with (N.ones 6). rewrite land_low_bits.
  rewrite lor_shiftl_small by (apply N.mod_lt; discriminate).
  reflexivity.
Qed.

Lemma utf8Step_last cp seen needed lower upper b :
  needed <> 0%N -> (lower <= b <= upper)%N -> (seen + 1 = needed)%N ->
  utf8Step {| codePoint := cp; bytesSeen := seen; bytesNeeded := needed;
              lowerBoundary := lower; upperBoundary := upper |} b =
  ([(cp * 64 + b mod 64)%N], utf8Initial).
Proof.
  intros Hn Hb E. rewrite utf8Step_continuation by assumption.
  apply N.eqb_eq in E. now rewrite E.
Qed.

Lemma utf8Step_more cp seen needed lower upper b :
  needed <> 0%N -> (lower <= b <= upper)%N -> (seen + 1 <> needed)%N ->
  utf8Step {| codePoint := cp; bytesSeen := seen; bytesNeeded := needed;
              lowerBoundary := lower; upperBoundary := upper |} b =
  ([], {| codePoint := cp * 64 + b mod 64; bytesSeen := seen + 1;
          bytesNeeded := needed;
          lowerBoundary := 0x80; upperBoundary := 0xBF |}).
Proof.
  intros Hn Hb E. rewrite utf8Step_continuation by assumption.
  apply N.eqb_neq in E. now rewrite E.
Qed.

Lemma utf8Decode_encoded_codePoint cp rest :
  isScalarValue cp = true ->
  utf8DecodeFrom utf8Initial (utf8EncodeCodePoint cp ++ rest) =
  cp :: utf8DecodeFrom utf8Initial rest.
Proof.
  intros H. apply isScalarValue_spec in H.
  rewrite utf8EncodeCodePoint_arith.
  destruct (N.leb_spec cp 0x7F) as [H1|H1].
  { cbn [app utf8DecodeFrom]. unfold utf8Step at 1.
    cbn [utf8Initial bytesNeeded N.eqb]. now rewrite utf8Lead_ascii. }
  destruct (N.leb_spec cp 0x7FF) as [H2|H2].
  { cbn [app utf8DecodeFrom]. unfold utf8Step at 1.
    cbn [utf8Initial bytesNeeded N.eqb].
    rewrite utf8Lead_two by divmod_lia.
    rewrite utf8Step_last by (try discriminate; try reflexivity; divmod_lia).
    cbn [app]. f_equal. divmod_lia. }
  destruct (N.leb_spec cp 0xFFFF) as [H3|H3].
  { cbn [app utf8DecodeFrom]. unfold utf8Step at 1.
    cbn [utf8Initial bytesNeeded N.eqb].
    rewrite utf8Lead_three by divmod_lia.
    rewrite utf8Step_more.
    2, 4: discriminate.
    2: { destruct (N.eqb_spec (cp / 4096 + 224) 224);
         destruct (N.eqb_spec (cp / 4096 + 224) 237); divmod_lia. }
    rewrite utf8Step_last by (try discriminate; try reflexivity; divmod_lia).
    cbn [app]. f_equal. divmod_lia. }
  { cbn [app utf8DecodeFrom]. unfold utf8Step at 1.
    cbn [utf8Initial bytesNeeded N.eqb].
    rewrite utf8Lead_four by divmod_lia.
    rewrite utf8Step_more.
    2, 4: discriminate.
    2: { destruct (N.eqb_spec (cp / 262144 + 240) 240);
         destruct (N.eqb_spec (cp / 262144 + 240) 244); divmod_lia. }
    rewrite utf8Step_more by (try discriminate; divmod_lia).
    rewrite utf8Step_last by (try discriminate; try reflexivity; divmod_lia).
    cbn [app]. f_equal. divmod_lia. }
Qed.

Lemma utf8Decode_utf8Encode cps :
  forallb isScalarValue cps = true -> utf8Decode (utf8Encode cps) = cps.
Proof.
  unfold utf8Decode, utf8Encode.
  induction cps as [|cp cps IH]; intros H; [reflexivity|].
  cbn [forallb] in H. apply andb_true_iff in H as [H1 H2].
  cbn [flat_map]. rewrite utf8Decode_encoded_codePoint by exact H1.
  now rewrite IH.
Qed.

Lemma utf8EncodeCodePoint_bytes cp :
  isScalarValue cp = true -> forallb isByte (utf8EncodeCodePoint cp) = true.
Proof.
  intros H. apply isScalarValue_spec in H.
  rewrite utf8EncodeCodePoint_arith. unfold isByte.
  destruct (N.leb_spec cp 0x7F); [|destruct (N.leb_spec cp 0x7FF);
    [|destruct (N.leb_spec cp 0xFFFF)]]; cbn [forallb];
    rewrite ?andb_true_iff, ?N.ltb_lt; repeat split; divmod_lia.
Qed.

Lemma utf8Encode_bytes cps :
  forallb isScalarValue cps = true -> forallb isByte (utf8Encode cps) = true.
Proof.
  unfold utf8Encode. induction cps as [|cp cps IH]; intros H; [reflexivity|].
  cbn [forallb] in H. apply andb_true_iff in H as [H1 H2].
  cbn [flat_map]. rewrite forallb_app, utf8EncodeCodePoint_bytes by exact H1.
  now apply IH.
Qed.

(* ================================================================= *)
(** * UTF-16: well-formed strings *)
(* ================================================================= *)

Lemma surrogate_pair_codeUnits c d :
  isLeadSurrogate c = true -> isTrailSurrogate d = true ->
  codeUnitsOf (0x10000 + N.shiftl (c - 0xD800) 10 + (d - 0xDC00)) = [c; d].
Proof.
  unfold isLeadSurrogate, isTrailSurrogate, codeUnitsOf.
  rewrite !andb_true_iff, !N.leb_le. intros [H1 H2] [H3 H4].
  rewrite N.shiftl_mul_pow2. change (2 ^ 10)%N with 1024%N.
  destruct (N.ltb_spec (65536 + (c - 55296) * 1024 + (d - 56320)) 65536); [lia|].
  rewrite N.shiftr_div_pow2. change 0x3FF%N with (N.ones 10).
  rewrite land_low_bits. change (2 ^ 10)%N with 1024%N.
  f_equal; [|f_equal]; divmod_lia.
Qed.

Lemma surrogate_pair_scalar c d :
  isLeadSurrogate c = true -> isTrailSurrogate d = true ->
  isScalarValue (0x10000 + N.shiftl (c - 0xD800) 10 + (d - 0xDC00)) = true.
Proof.
  unfold isLeadSurrogate, isTrailSurrogate.
  rewrite !andb_true_iff, !N.leb_le. intros [H1 H2] [H3 H4].
  rewrite N.shiftl_mul_pow2. change (2 ^ 10)%N with 1024%N.
  apply isScalarValue_spec. lia.
Qed.

Lemma bmp_codeUnits c :
  (c <? 0x10000)%N = true -> codeUnitsOf c = [c].
Proof. intros H. unfold codeUnitsOf. now rewrite H. Qed.

Lemma bmp_scalar c :
  (c <? 0x10000)%N = true -> isLeadSurrogate c = false ->
  isTrailSurrogate c = false -> isScalarValue c = true.
Proof.
  unfold isLeadSurrogate, isTrailSurrogate. intros H1 H2 H3.
  apply N.ltb_lt in H1. apply isScalarValue_spec.
  apply andb_false_iff in H2, H3.
  rewrite !N.leb_gt in H2, H3. lia.
Qed.

(** A well-formed string is its own scalar value string, and its code
    points are scalar values. *)
Lemma wellFormed_scalarValues_aux n : forall s,
  List.length s <= n -> isWellFormed s = true ->
  fromCodePoints (toScalarValues s) = s
  /\ forallb isScalarValue (toScalarValues s) = true.
Proof.
  induction n as [|n IH]; intros s Hlen Hwf.
  - destruct s; [now split|simpl in Hlen; lia].
  - destruct s as [|c s]; [now split|].
    cbn [isWellFormed toScalarValues] in *.
    destruct (isLeadSurrogate c) eqn:Hc.
    + destruct s as [|d s]; [discriminate|].
      apply andb_true_iff in Hwf as [Hd Hwf]. rewrite Hd.
      destruct (IH s) as [E1 E2]; [simpl in Hlen; lia|exact Hwf|].
      unfold fromCodePoints in *. cbn [flat_map forallb].
      rewrite surrogate_pair_codeUnits, surrogate_pair_scalar, E1, E2 by assumption.
      now split.
    + apply andb_true_iff in Hwf as [Hwf Hs].
      apply andb_true_iff in Hwf as [Hr Ht]. apply negb_true_iff in Ht.
      rewrite Ht.
      destruct (IH s) as [E1 E2]; [simpl in Hlen; lia|exact Hs|].
      unfold fromCodePoints in *. cbn [flat_map forallb].
      rewrite bmp_codeUnits, bmp_scalar, E1, E2 by assumption.
      now split.
Qed.

Lemma toUSVString_wellFormed s : isWellFormed s = true -> toUSVString s = s.
Proof.
  intros H. unfold toUSVString.
  now apply (wellFormed_scalarValues_aux (n := List.length s)).
Qed.

Lemma toScalarValues_scalar s :
  isWellFormed s = true -> forallb isScalarValue (toScalarValues s) = true.
Proof.
  intros H. now apply (wellFormed_scalarValues_aux (n := List.length s)).
Qed.

(* ================================================================= *)
(** * Percent-encoding: decoding what was encoded *)
(* ================================================================= *)

(** A property of the numbers below a bound, checked on each of them. *)
Lemma forallb_below (P : N -> bool) k :
  forallb P (map N.of_nat (seq 0 k)) = true ->
  forall n, (n < N.of_nat k)%N -> P n = true.
Proof.
  intros H n Hn. rewrite forallb_forall in H. apply H.
  apply in_map_iff. exists (N.to_nat n). split; [lia|].
  apply in_seq. lia.
Qed.

Lemma upperHexDigit_spec n :
  (n < 16)%N ->
  isHexDigit (upperHexDigit n) = true
  /\ hexValue (upperHexDigit n) = n
  /\ isUrlencodedPlain (upperHexDigit n) = true
  /\ upperHexDigit n <> 0x2B%N.
Proof.
  intros H.
  pose proof (@forallb_below
    (fun n => isHexDigit (upperHexDigit n)
              && (hexValue (upperHexDigit n) =? n)%N
              && isUrlencodedPlain (upperHexDigit n)
              && negb (upperHexDigit n =? 0x2B)%N) 16 eq_refl n H) as E.
  cbv beta in E. rewrite !andb_true_iff, negb_true_iff, N.eqb_eq, N.eqb_neq in E.
  tauto.
Qed.

Lemma isUrlencodedPlain_range b :
  isUrlencodedPlain b = true -> (b < 128)%N.
Proof.
  unfold isUrlencodedPlain.
  rewrite !orb_true_iff, !andb_true_iff, !N.leb_le, !N.eqb_eq. lia.
Qed.

Lemma isEncodedChar_range c : isEncodedChar c = true -> (c < 128)%N.
Proof.
  unfold isEncodedChar. rewrite !orb_true_iff, !N.eqb_eq.
  intros [[H|H]|H]; [now apply isUrlencodedPlain_range|lia|lia].
Qed.

(** The serializer writes no separator, no [?], no [#] and no white
    space. *)
Lemma isEncodedChar_facts c :
  isEncodedChar c = true ->
  c <> 0x26%N /\ c <> 0x3D%N /\ c <> 0x23%N /\ c <> 0x3F%N
  /\ isWhiteSpace c = false.
Proof.
  intros H. pose proof (isEncodedChar_range c H) as Hr.
  pose proof (@forallb_below
    (fun c => negb (isEncodedChar c)
              || (negb (c =? 0x26)%N && negb (c =? 0x3D)%N && negb (c =? 0x23)%N
                  && negb (c =? 0x3F)%N && negb (isWhiteSpace c)))
    128 eq_refl c Hr) as E.
  cbv beta in E. rewrite H in E. cbn [negb orb] in E.
  rewrite !andb_true_iff, !negb_true_iff, !N.eqb_neq in E. tauto.
Qed.

Lemma isUrlencodedPlain_not_special b :
  isUrlencodedPlain b = true -> b <> 0x2B%N /\ b <> 0x25%N.
Proof.
  intros H. pose proof (isUrlencodedPlain_range b H) as Hr.
  pose proof (@forallb_below
    (fun b => negb (isUrlencodedPlain b)
              || (negb (b =? 0x2B)%N && negb (b =? 0x25)%N))
    128 eq_refl b Hr) as E.
  cbv beta in E. rewrite H in E. cbn [negb orb] in E.
  rewrite !andb_true_iff, !negb_true_iff, !N.eqb_neq in E. tauto.
Qed.

Lemma plusToSpace_other b : b <> 0x2B%N -> plusToSpace b = b.
Proof. intros H. unfold plusToSpace. apply N.eqb_neq in H. now rewrite H. Qed.

Lemma percentDecode_other b rest :
  b <> 0x25%N -> percentDecode (b :: rest) = b :: percentDecode rest.
Proof. intros H. cbn [percentDecode]. apply N.eqb_neq in H. now rewrite H. Qed.

Lemma byte_nibbles b :
  isByte b = true ->
  (N.shiftr b 4 < 16 /\ N.land b 0xF < 16
   /\ N.shiftr b 4 * 16 + N.land b 0xF = b)%N.
Proof.
  unfold isByte. rewrite N.ltb_lt. intros H.
  rewrite N.shiftr_div_pow2. change 0xF%N with (N.ones 4).
  rewrite land_low_bits. change (2 ^ 4)%N with 16%N. divmod_lia.
Qed.

Lemma percentDecode_urlencodedByte b rest :
  isByte b = true ->
  percentDecode (map plusToSpace (urlencodedByte b) ++ rest) = b :: percentDecode rest.
Proof.
  intros Hb. unfold urlencodedByte.
  destruct (N.eqb_spec b 0x20) as [->|Hs]; [reflexivity|].
  destruct (isUrlencodedPlain b) eqn:Hp.
  - destruct (isUrlencodedPlain_not_special b Hp) as [H1 H2].
    cbn [map app]. rewrite plusToSpace_other by exact H1.
    now apply percentDecode_other.
  - destruct (byte_nibbles b Hb) as (Hh & Hl & E).
    destruct (upperHexDigit_spec Hh) as (Hh1 & Hh2 & _ & Hh3).
    destruct (upperHexDigit_spec Hl) as (Hl1 & Hl2 & _ & Hl3).
    unfold percentEncodeByte. cbn [map app].
    rewrite (plusToSpace_other Hh3), (plusToSpace_other Hl3).
    change (plusToSpace 0x25) with 0x25%N.
    cbn [percentDecode N.eqb Pos.eqb].
    now rewrite Hh1, Hl1, Hh2, Hl2, E.
Qed.

Lemma percentDecode_urlencoded bytes :
  forallb isByte bytes = true ->
  percentDecode (map plusToSpace (flat_map urlencodedByte bytes)) = bytes.
Proof.
  induction bytes as [|b bytes IH]; intros H; [reflexivity|].
  cbn [forallb] in H. apply andb_true_iff in H as [H1 H2].
  cbn [flat_map]. rewrite map_app, percentDecode_urlencodedByte by exact H1.
  now rewrite IH.
Qed.

Lemma urlencodedDecode_urlencodedEncode s :
  isWellFormed s = true -> urlencodedDecode (urlencodedEncode s) = s.
Proof.
  intros H. unfold urlencodedDecode, urlencodedEncode.
  rewrite percentDecode_urlencoded
    by (apply utf8Encode_bytes, toScalarValues_scalar, H).
  rewrite utf8Decode_utf8Encode by (apply toScalarValues_scalar, H).
  now apply toUSVString_wellFormed.
Qed.

Lemma urlencodedByte_chars b :
  isByte b = true -> forallb isEncodedChar (urlencodedByte b) = true.
Proof.
  intros Hb. unfold urlencodedByte.
  destruct (N.eqb_spec b 0x20) as [->|Hs]; [reflexivity|].
  destruct (isUrlencodedPlain b) eqn:Hp.
  - cbn [forallb]. unfold isEncodedChar. now rewrite Hp.
  - destruct (byte_nibbles b Hb) as (Hh & Hl & E).
    destruct (upperHexDigit_spec Hh) as (_ & _ & Hh1 & _).
    destruct (upperHexDigit_spec Hl) as (_ & _ & Hl1 & _).
    unfold percentEncodeByte. cbn [forallb]. unfold isEncodedChar at 2 3.
    now rewrite Hh1, Hl1.
Qed.

Lemma urlencodedEncode_chars s :
  isWellFormed s = true -> forallb isEncodedChar (urlencodedEncode s) = true.
Proof.
  intros H. unfold urlencodedEncode.
  pose proof (utf8Encode_bytes _ (toScalarValues_scalar _ H)) as Hb.
  induction (utf8Encode (toScalarValues s)) as [|b bytes IH]; [reflexivity|].
  cbn [forallb] in Hb. apply andb_true_iff in Hb as [H1 H2].
  cbn [flat_map]. rewrite forallb_app, urlencodedByte_chars by exact H1.
  now apply IH.
Qed.

Lemma urlencodedEncode_not_nil s :
  isWellFormed s = true -> s <> [] -> urlencodedEncode s <> [].
Proof.
  intros H Hs E. apply Hs.
  rewrite <- (urlencodedDecode_urlencodedEncode s H), E. reflexivity.
Qed.

(* ================================================================= *)
(** * URLSearchParams: parsing what was serialized *)
(* ================================================================= *)

Lemma isQueryChar_facts c :
  isQueryChar c = true ->
  (c < 128)%N /\ c <> 0x23%N /\ c <> 0x3F%N /\ isWhiteSpace c = false.
Proof.
  unfold isQueryChar. rewrite !orb_true_iff, !N.eqb_eq.
  intros [[H| ->]| ->].
  - pose proof (isEncodedChar_range c H).
    destruct (isEncodedChar_facts c H) as (_ & _ & H1 & H2 & H3). tauto.
  - repeat split; try discriminate; reflexivity.
  - repeat split; try discriminate; reflexivity.
Qed.

Lemma ascii_toScalarValues s :
  (forall c, In c s -> (c < 128)%N) -> toScalarValues s = s.
Proof.
  induction s as [|c s IH]; intros H; [reflexivity|].
  cbn [toScalarValues].
  assert (Hc : (c < 128)%N) by (apply H; now left).
  unfold isLeadSurrogate, isTrailSurrogate.
  destruct (N.leb_spec 0xD800 c); [lia|].
  destruct (N.leb_spec 0xDC00 c); [lia|]. cbn [andb].
  rewrite IH; [reflexivity|]. intros c' Hc'. apply H. now right.
Qed.

Lemma ascii_utf8Encode s :
  (forall c, In c s -> (c < 128)%N) -> utf8Encode s = s.
Proof.
  unfold utf8Encode. induction s as [|c s IH]; intros H; [reflexivity|].
  cbn [flat_map].
  assert (Hc : (c < 128)%N) by (apply H; now left).
  unfold utf8EncodeCodePoint at 1.
  destruct (N.leb_spec c 0x7F); [|lia].
  rewrite IH; [reflexivity|]. intros c' Hc'. apply H. now right.
Qed.

Lemma splitAtFirst_app sep a b :
  ~ In sep a -> splitAtFirst sep (a ++ sep :: b) = (a, b).
Proof.
  induction a as [|c a IH]; intros H.
  - simpl. now rewrite N.eqb_refl.
  - cbn [app splitAtFirst].
    assert (Hc : N.eqb c sep = false)
      by (apply N.eqb_neq; intros ->; apply H; now left).
    rewrite Hc, IH; [reflexivity|]. intros Hin. apply H. now right.
Qed.

Lemma urlencodedEncode_without c s :
  isWellFormed s = true -> isEncodedChar c = false -> ~ In c (urlencodedEncode s).
Proof.
  intros H Hc Hin.
  pose proof (urlencodedEncode_chars s H) as E. rewrite forallb_forall in E.
  apply E in Hin. congruence.
Qed.

Lemma pairString_chars t :
  isWellFormedEntry t = true -> forallb isQueryChar (pairString t) = true.
Proof.
  unfold isWellFormedEntry, pairString. intros H.
  apply andb_true_iff in H as [H1 H2].
  rewrite !forallb_app. cbn [forallb].
  assert (E : forall s, isWellFormed s = true ->
                        forallb isQueryChar (urlencodedEncode s) = true).
  { intros s Hs. apply forallb_forall. intros c Hc.
    pose proof (urlencodedEncode_chars s Hs) as E. rewrite forallb_forall in E.
    unfold isQueryChar. now rewrite (E c Hc). }
  now rewrite !E.
Qed.

Lemma pairString_without_ampersand t :
  isWellFormedEntry t = true -> ~ In 0x26%N (pairString t).
Proof.
  unfold isWellFormedEntry, pairString. intros H.
  apply andb_true_iff in H as [H1 H2]. intros Hin.
  apply in_app_or in Hin as [Hin|Hin];
    [|apply in_app_or in Hin as [[Hin|[]]|Hin]; [discriminate|]];
    revert Hin; now apply urlencodedEncode_without.
Qed.

Lemma urlencodedParsePiece_pairString t :
  isWellFormedEntry t = true -> urlencodedParsePiece (pairString t) = [t].
Proof.
  intros H. pose proof (pairString_not_nil t) as Hne.
  unfold urlencodedParsePiece. destruct (pairString t) eqn:E; [congruence|].
  rewrite <- E. unfold pairString. cbn [app].
  unfold isWellFormedEntry in H. apply andb_true_iff in H as [H1 H2].
  rewrite splitAtFirst_app by (now apply urlencodedEncode_without).
  rewrite !urlencodedDecode_urlencodedEncode by assumption.
  now destruct t.
Qed.

Lemma splitOn_pairStrings ts : forall p,
  ~ In 0x26%N p ->
  forallb isWellFormedEntry ts = true ->
  splitOn 0x26 (p ++ flat_map (fun t => 0x26%N :: pairString t) ts) =
  p :: map pairString ts.
Proof.
  induction ts as [|t ts IH]; intros p Hp H.
  - cbn [flat_map map]. rewrite app_nil_r. now apply splitOn_absent.
  - cbn [forallb] in H. apply andb_true_iff in H as [H1 H2].
    cbn [flat_map map]. cbn [app]. rewrite splitOn_first by exact Hp.
    rewrite IH; [reflexivity| |exact H2].
    now apply pairString_without_ampersand.
Qed.

Lemma urlencodedParse_urlencodedSerialize ts :
  forallb isWellFormedEntry ts = true ->
  urlencodedParse (urlencodedSerialize ts) = ts.
Proof.
  intros H. destruct ts as [|t ts]; [reflexivity|].
  cbn [forallb] in H. apply andb_true_iff in H as [H1 H2].
  rewrite urlencodedSerialize_cons. unfold urlencodedParse.
  rewrite splitOn_pairStrings
    by (try assumption; now apply pairString_without_ampersand).
  cbn [flat_map]. rewrite urlencodedParsePiece_pairString by exact H1.
  cbn [app]. f_equal.
  induction ts as [|t' ts IH]; [reflexivity|].
  cbn [forallb] in H2. apply andb_true_iff in H2 as [H3 H4].
  cbn [map flat_map]. rewrite urlencodedParsePiece_pairString by exact H3.
  cbn [app]. f_equal. now apply IH.
Qed.

Lemma urlencodedSerialize_chars ts :
  forallb isWellFormedEntry ts = true ->
  forallb isQueryChar (urlencodedSerialize ts) = true.
Proof.
  intros H. destruct ts as [|t ts]; [reflexivity|].
  cbn [forallb] in H. apply andb_true_iff in H as [H1 H2].
  rewrite urlencodedSerialize_cons, forallb_app, pairString_chars by exact H1.
  cbn [andb].
  induction ts as [|t' ts IH]; [reflexivity|].
  cbn [forallb] in H2. apply andb_true_iff in H2 as [H3 H4].
  cbn [flat_map]. rewrite forallb_app. cbn [forallb].
  rewrite pairString_chars by exact H3.
  change (isQueryChar 38) with true. cbn [andb]. now apply IH.
Qed.

Lemma newURLSearchParams_urlencodedSerialize ts :
  forallb isWellFormedEntry ts = true ->
  newURLSearchParams (urlencodedSerialize ts) = ts.
Proof.
  intros H. pose proof (urlencodedSerialize_chars ts H) as Hc.
  rewrite forallb_forall in Hc.
  assert (Ha : forall c, In c (urlencodedSerialize ts) -> (c < 128)%N)
    by (intros c Hin; now apply isQueryChar_facts, Hc).
  unfold newURLSearchParams.
  assert (E : match urlencodedSerialize ts with
              | [] => urlencodedSerialize ts
              | c :: rest => if (c =? 63)%N then rest else urlencodedSerialize ts
              end = urlencodedSerialize ts).
  { destruct (urlencodedSerialize ts) as [|c rest] eqn:E; [reflexivity|].
    destruct (isQueryChar_facts c (Hc c (or_introl eq_refl))) as (_ & _ & Hq & _).
    apply N.eqb_neq in Hq. now rewrite Hq. }
  rewrite E, ascii_toScalarValues, ascii_utf8Encode by exact Ha.
  now apply urlencodedParse_urlencodedSerialize.
Qed.

(* ================================================================= *)
(** * trim *)
(* ================================================================= *)

Lemma trimStart_length s : List.length (trimStart s) <= List.length s.
Proof.
  induction s as [|c s IH]; simpl; [lia|].
  destruct (isWhiteSpace c); simpl; lia.
Qed.

Lemma trimEnd_length s : List.length (trimEnd s) <= List.length s.
Proof.
  unfold trimEnd. rewrite length_rev.
  etransitivity; [apply trimStart_length|]. now rewrite length_rev.
Qed.

Lemma trim_fixed_head c s : trim (c :: s) = c :: s -> isWhiteSpace c = false.
Proof.
  intros H. destruct (isWhiteSpace c) eqn:E; [|reflexivity].
  exfalso. apply (f_equal (@List.length N)) in H.
  unfold trim in H. cbn [trimStart] in H. rewrite E in H.
  pose proof (trimEnd_length (trimStart s)).
  pose proof (trimStart_length s). simpl in H. lia.
Qed.

Lemma trimEnd_last s d : isWhiteSpace d = false -> trimEnd (s ++ [d]) = s ++ [d].
Proof.
  intros H. unfold trimEnd. rewrite rev_app_distr. cbn [rev app trimStart].
  rewrite H. cbn [rev]. now rewrite rev_involutive.
Qed.

(** A string whose first and last code units are not white space is left
    as it is. *)
Lemma trim_id s :
  (forall c rest, s = c :: rest -> isWhiteSpace c = false) ->
  (forall rest d, s = rest ++ [d] -> isWhiteSpace d = false) ->
  trim s = s.
Proof.
  intros Hh Hl. unfold trim.
  destruct s as [|c s]; [reflexivity|].
  cbn [trimStart]. rewrite (Hh c s eq_refl).
  destruct (exists_last (l := c :: s)) as (rest & d & E); [discriminate|].
  rewrite E. apply trimEnd_last. now apply (Hl rest d).
Qed.

(* ================================================================= *)
(** * The round trip through mergeUrl and splitUrl *)
(* ================================================================= *)

Lemma existsb_key_absent (acc : list (list N * list N)) k :
  ~ In k (map fst acc) -> existsb (fun t => jseqb (fst t) k) acc = false.
Proof.
  induction acc as [|[k' v'] acc IH]; intros H; [reflexivity|].
  cbn [existsb fst]. rewrite IH by (intros Hin; apply H; now right).
  rewrite (proj2 (jseqb_neq k' k)); [reflexivity|].
  intros ->. apply H. now left.
Qed.

Lemma NoDup_keys_step (acc : list (list N * list N)) k v p :
  NoDup (map fst (acc ++ (k, v) :: p)) ->
  ~ In k (map fst acc) /\ NoDup (map fst ((acc ++ [(k, v)]) ++ p)).
Proof.
  intros H. split.
  - rewrite map_app in H. cbn [map fst] in H.
    apply NoDup_remove_2 in H. intros Hin. apply H, in_or_app. now left.
  - now rewrite <- app_assoc.
Qed.

Lemma roundTripEntry_spec e :
  isRoundTripEntry e = true ->
  isRecordedKey (fst e) = true /\ isWellFormed (fst e) = true
  /\ isNonBlank (snd e) = true /\ isWellFormed (snd e) = true.
Proof. unfold isRoundTripEntry. rewrite !andb_true_iff. tauto. Qed.

Lemma roundTripEntries_wellFormed p :
  forallb isRoundTripEntry p = true -> forallb isWellFormedEntry p = true.
Proof.
  intros H. apply forallb_forall. intros e He.
  rewrite forallb_forall in H. apply H, roundTripEntry_spec in He.
  unfold isWellFormedEntry. apply andb_true_iff. tauto.
Qed.

(** [mergeUrl] hands the entries to the serializer as they are. *)
Lemma mergeEntry_fold_id p : forall acc,
  NoDup (map fst (acc ++ p)) -> forallb isRoundTripEntry p = true ->
  fold_left mergeEntry p acc = acc ++ p.
Proof.
  induction p as [|[k v] p IH]; intros acc Hd H.
  - now rewrite app_nil_r.
  - cbn [forallb] in H. apply andb_true_iff in H as [He H].
    apply roundTripEntry_spec in He as (_ & Hk & Hv & Hw). cbn [fst snd] in *.
    destruct (NoDup_keys_step _ _ _ _ Hd) as [Hfresh Hd'].
    cbn [fold_left]. unfold mergeEntry at 2. rewrite Hv. unfold uspSet.
    rewrite !toUSVString_wellFormed by assumption.
    rewrite existsb_key_absent by exact Hfresh.
    rewrite IH by assumption. now rewrite <- app_assoc.
Qed.

Lemma mergeParams_id p :
  NoDup (map fst p) -> forallb isRoundTripEntry p = true -> mergeParams p = p.
Proof. intros Hd H. unfold mergeParams, objectEntries. now rewrite mergeEntry_fold_id. Qed.

Lemma updateProp_fresh o k v :
  ~ In k (map fst o) -> updateProp o k v = o ++ [(k, v)].
Proof.
  induction o as [|[k' v'] o IH]; intros H; [reflexivity|].
  cbn [updateProp].
  rewrite (proj2 (jseqb_neq k' k)) by (intros ->; apply H; now left).
  rewrite IH by (intros Hin; apply H; now right). reflexivity.
Qed.

(** [splitUrl] records the tuples as they come. *)
Lemma recordParam_fold_id p : forall acc,
  NoDup (map fst (acc ++ p)) -> forallb isRoundTripEntry p = true ->
  fold_left recordParam p acc = acc ++ p.
Proof.
  induction p as [|[k v] p IH]; intros acc Hd H.
  - now rewrite app_nil_r.
  - cbn [forallb] in H. apply andb_true_iff in H as [He H].
    apply roundTripEntry_spec in He as (Hk & _). cbn [fst snd] in *.
    destruct (NoDup_keys_step _ _ _ _ Hd) as [Hfresh Hd'].
    cbn [fold_left]. unfold recordParam at 2, setProp.
    unfold isRecordedKey in Hk. apply andb_true_iff in Hk as [Hk1 Hk2].
    rewrite Hk1. apply negb_true_iff in Hk2. rewrite Hk2.
    rewrite updateProp_fresh by exact Hfresh.
    rewrite IH by assumption. now rewrite <- app_assoc.
Qed.

Lemma extractParams_urlencodedSerialize p :
  NoDup (map fst p) -> forallb isRoundTripEntry p = true ->
  extractParams (urlencodedSerialize p) = p.
Proof.
  intros Hd H. unfold extractParams.
  destruct (urlencodedSerialize p) as [|c qs] eqn:E.
  - apply urlencodedSerialize_nil_iff in E. now subst p.
  - cbn [isEmpty negb]. rewrite <- E.
    rewrite newURLSearchParams_urlencodedSerialize
      by (now apply roundTripEntries_wellFormed).
    now apply (recordParam_fold_id p []).
Qed.

(** The serialized query string: no [#], no [?], no white space. *)
Lemma urlencodedSerialize_facts p c :
  forallb isRoundTripEntry p = true -> In c (urlencodedSerialize p) ->
  c <> 0x23%N /\ c <> 0x3F%N /\ isWhiteSpace c = false.
Proof.
  intros H Hin.
  pose proof (urlencodedSerialize_chars p (roundTripEntries_wellFormed p H)) as Hc.
  rewrite forallb_forall in Hc. now apply isQueryChar_facts, Hc.
Qed.

Lemma splitUrl_of_trimmed m c sp :
  trim m = m -> locateQuery m = (c, sp) ->
  splitUrl m = {| cleanUrl := c; params := extractParams sp |}.
Proof. intros Ht E. now rewrite splitUrl_unfold, Ht, E. Qed.

(** ** C1 *)

(** C1 as stated does not hold.  A [cleanUrl] that holds a [#] comes
    back with the query string glued to it and no parameters; and with an
    empty [cleanUrl], a value that holds a [.] keeps the merged string from
    being read as a naked query string. *)
Lemma round_trip_fails :
  (includes (js "http://x.com/#top") (js "?") = false
   /\ isNonBlank (js "1") = true
   /\ mergeUrl (js "http://x.com/#top") [(js "a", js "1")]
      = js "http://x.com/#top?a=1"
   /\ splitUrl (mergeUrl (js "http://x.com/#top") [(js "a", js "1")])
      = {| cleanUrl := js "http://x.com/#top?a=1"; params := [] |})
  /\ (includes [] (js "?") = false
      /\ isNonBlank (js "1.5") = true
      /\ mergeUrl [] [(js "v", js "1.5")] = js "v=1.5"
      /\ splitUrl (mergeUrl [] [(js "v", js "1.5")])
         = {| cleanUrl := js "v=1.5"; params := [] |})
  /\ ~ (forall cleanUrl parameters,
          includes cleanUrl (js "?") = false ->
          forallb (fun e => isNonBlank (snd e)) parameters = true ->
          splitUrl (mergeUrl cleanUrl parameters)
          = {| cleanUrl := cleanUrl; params := parameters |}).
Proof.
  split; [repeat split; reflexivity|].
  split; [repeat split; reflexivity|].
  intros H.
  specialize (H (js "http://x.com/#top") [(js "a", js "1")] eq_refl eq_refl).
  discriminate H.
Qed.

(** C1, amended.  Let [cleanUrl] hold no [?] and no [#] and have no white
    space at either end, and let the parameter mapping have distinct keys,
    each non-empty, well-formed and other than [__proto__], and values
    that are well-formed and neither empty nor all white space.  Suppose
    the merged string is read back in the form it was written in: with no
    parameters, [cleanUrl] is not itself taken for a naked query string;
    with an empty [cleanUrl], the encoded query string is taken for one.
    Then [splitUrl (mergeUrl cleanUrl parameters)] returns [cleanUrl] and
    the parameters, entry for entry. *)
Theorem merge_split_round_trip (cleanUrl0 : jsstring) (parameters : JsObject) :
  trim cleanUrl0 = cleanUrl0 ->
  includes cleanUrl0 (js "?") = false ->
  includes cleanUrl0 (js "#") = false ->
  NoDup (map fst parameters) ->
  forallb isRoundTripEntry parameters = true ->
  (parameters = [] -> isNakedQuery cleanUrl0 = false) ->
  (cleanUrl0 = [] -> parameters <> [] ->
   isNakedQuery (uspToString (mergeParams parameters)) = true) ->
  splitUrl (mergeUrl cleanUrl0 parameters)
  = {| cleanUrl := cleanUrl0; params := parameters |}.
Proof.
  intros Ht Hq Hf Hd Hp Hnone Hnaked.
  change (js "#") with [0x23%N] in Hf. apply includes_char_false in Hf.
  pose proof Hq as Hq'. change (js "?") with [0x3F%N] in Hq'.
  apply includes_char_false in Hq'.
  pose proof (@mergeParams_id parameters Hd Hp) as Hm.
  pose proof (@extractParams_urlencodedSerialize parameters Hd Hp) as Hx.
  pose proof (fun c => @urlencodedSerialize_facts parameters c Hp) as Hc.
  unfold mergeUrl, uspToString, objectKeys. rewrite Hm, length_map.
  unfold uspToString in Hnaked. rewrite Hm in Hnaked.
  destruct parameters as [|e p'].
  - (* no parameters: the merged string is [cleanUrl] *)
    assert (E : (if isEmpty cleanUrl0 && (List.length (@nil (list N * list N)) =? 0)%nat
                 then []
                 else if isEmpty cleanUrl0 then urlencodedSerialize []
                 else if negb (isEmpty (urlencodedSerialize [])) then
                   cleanUrl0 ++ (if includes cleanUrl0 (js "?") then js "&" else js "?")
                   ++ urlencodedSerialize []
                 else cleanUrl0) = cleanUrl0)
      by (destruct cleanUrl0; reflexivity).
    rewrite E. rewrite (@splitUrl_of_trimmed cleanUrl0 cleanUrl0 [] Ht); [reflexivity|].
    apply locateQuery_none; rewrite urlWithoutFragmentOf_absent by exact Hf;
      auto.
  - set (parameters := e :: p') in *.
    set (qs := urlencodedSerialize parameters) in *.
    assert (Hqs : qs <> [])
      by (intros E; apply urlencodedSerialize_nil_iff in E; discriminate).
    cbn [List.length Nat.eqb]. rewrite andb_false_r.
    destruct cleanUrl0 as [|c0 cl] eqn:Ecl; cbn [isEmpty].
    + (* empty [cleanUrl]: the merged string is the query string *)
      assert (Htq : trim qs = qs).
      { apply trim_id.
        - intros c rest E. apply Hc. rewrite E. now left.
        - intros rest d E. apply Hc. rewrite E. apply in_or_app. right. now left. }
      rewrite (@splitUrl_of_trimmed qs [] qs Htq); [now rewrite Hx|].
      assert (Hu : urlWithoutFragmentOf qs = qs).
      { apply urlWithoutFragmentOf_absent. intros Hin.
        now destruct (Hc _ Hin) as (H1 & _). }
      rewrite locateQuery_naked; rewrite ?Hu; [reflexivity| |].
      * change (js "?") with [0x3F%N]. apply includes_char_false. intros Hin.
        now destruct (Hc _ Hin) as (_ & H1 & _).
      * apply Hnaked; [reflexivity|discriminate].
    + (* the standard form *)
      rewrite <- Ecl in *. rewrite Hq.
      rewrite (proj2 (isEmpty_false qs) Hqs).
      cbn [negb]. change (js "?") with [0x3F%N]. cbn [app].
      set (m := cleanUrl0 ++ 0x3F%N :: qs).
      assert (Htm : trim m = m).
      { apply trim_id.
        - intros c rest E. unfold m in E. rewrite Ecl in E. cbn [app] in E.
          injection E as <- _. apply (@trim_fixed_head c0 cl). now rewrite <- Ecl.
        - intros rest d E.
          destruct (exists_last Hqs) as (qs'' & d' & Eq).
          unfold m in E. rewrite Eq in E.
          change (cleanUrl0 ++ 63%N :: qs'' ++ [d'])
            with (cleanUrl0 ++ (63%N :: qs'') ++ [d']) in E.
          rewrite app_assoc in E. apply app_inj_tail in E as [_ <-].
          apply Hc. rewrite Eq. apply in_or_app. right. now left. }
      rewrite (@splitUrl_of_trimmed m cleanUrl0 qs Htm); [now rewrite Hx|].
      apply locateQuery_standard; [|exact Hq'].
      apply urlWithoutFragmentOf_absent. unfold m. intros Hin.
      apply in_app_or in Hin as [Hin|[Hin|Hin]]; [contradiction|discriminate|].
      now destruct (Hc _ Hin) as (H1 & _).
Qed.

Lemma merge_split_round_trip_witness :
  splitUrl (mergeUrl (js "http://x.com/a b")
              [(js "utm_source", js "news letter"); (js "q", [0xE9%N; 0x20AC%N; 0xD83D%N; 0xDE00%N])])
  = {| cleanUrl := js "http://x.com/a b";
       params := [(js "utm_source", js "news letter");
                  (js "q", [0xE9%N; 0x20AC%N; 0xD83D%N; 0xDE00%N])] |}.
Proof.
  apply (@merge_split_round_trip (js "http://x.com/a b")
           [(js "utm_source", js "news letter");
            (js "q", [0xE9%N; 0x20AC%N; 0xD83D%N; 0xDE00%N])]).
  - reflexivity.
  - reflexivity.
  - reflexivity.
  - repeat constructor; simpl; intuition discriminate.
  - reflexivity.
  - discriminate.
  - discriminate.
Defined.

(* ================================================================= *)
(** * The examples of the specification *)
(* ================================================================= *)

Example split_empty_and_blank :
  splitUrl [] = {| cleanUrl := []; params := [] |}
  /\ splitUrl (js "   ") = {| cleanUrl := []; params := [] |}.
Proof. split; reflexivity. Qed.

Example split_standard_url :
  splitUrl (js "http://x.com/a?utm_source=g&utm_medium=cpc") =
  {| cleanUrl := js "http://x.com/a";
     params := [(js "utm_source", js "g"); (js "utm_medium", js "cpc")] |}.
Proof. reflexivity. Qed.

Example split_naked_query :
  splitUrl (js "utm_source=google&utm_medium=cpc") =
  {| cleanUrl := [];
     params := [(js "utm_source", js "google"); (js "utm_medium", js "cpc")] |}.
Proof. reflexivity. Qed.

Example split_plain_path :
  splitUrl (js "example.com/path") =
  {| cleanUrl := js "example.com/path"; params := [] |}.
Proof. reflexivity. Qed.

Example split_decodes_values :
  splitUrl (js "x?a=%E2%82%AC+b&a=caf%C3%A9&c") =
  {| cleanUrl := js "x";
     params := [(js "a", js "caf" ++ [0xE9%N]); (js "c", [])] |}.
Proof. reflexivity. Qed.

Example merge_examples :
  mergeUrl [] [] = []
  /\ mergeUrl (js "http://x.com") [] = js "http://x.com"
  /\ mergeUrl (js "http://x.com?a=1") [(js "b", js "2")] = js "http://x.com?a=1&b=2"
  /\ mergeUrl (js "http://x.com") [(js "a", js ""); (js "b", js "2")]
     = js "http://x.com?b=2"
  /\ mergeUrl (js "http://x.com") [(js "q", js "a b&c")] = js "http://x.com?q=a+b%26c".
Proof. repeat split; reflexivity. Qed.

Example detector_picks_campaign_url :
  detectBestUrlColumn [js "campaign_url"; js "name"]
    [campaignRow; campaignRow; campaignRow] = js "campaign_url".
Proof. reflexivity. Qed.

Example detector_finds_nothing :
  detectBestUrlColumn [js "name"; js "city"]
    [[(js "name", js "ann"); (js "city", js "oslo")]] = [].
Proof. reflexivity. Qed.

(** The rate divides by the sample size: one match among two sampled rows,
    the other of which is empty, counts for half the weight. *)
Example detector_rate_over_sample_size :
  detectorScore [[(js "c", js "utm_source=x")]; [(js "c", js "  ")]] (js "c")
  = numOfZ 25.
Proof. reflexivity. Qed.

(** Two columns of equal score: the first one is returned. *)
Example detector_first_wins_tie :
  detectBestUrlColumn [js "b"; js "a"]
    [[(js "a", js "x?utm_source=1"); (js "b", js "y?utm_source=2")]] = js "b"
  /\ detectorScore [[(js "a", js "x?utm_source=1"); (js "b", js "y?utm_source=2")]] (js "a")
     = detectorScore [[(js "a", js "x?utm_source=1"); (js "b", js "y?utm_source=2")]] (js "b").
Proof. split; reflexivity. Qed.

(** A dotted string is still read as a naked query string when it holds
    the marker, in whatever letter case. *)
Example split_naked_query_any_case :
  splitUrl (js "a.b/Utm_x=1") =
  {| cleanUrl := []; params := [(js "a.b/Utm_x", js "1")] |}.
Proof. reflexivity. Qed.

(* ================================================================= *)
(** * The component: arrays and objects *)
(* ================================================================= *)

Lemma arrayIncludes_In a x : arrayIncludes a x = true <-> In x a.
Proof.
  unfold arrayIncludes. rewrite existsb_exists. split.
  - intros (y & Hy & E). apply jseqb_eq in E. now subst.
  - intros H. exists x. split; [exact H|apply jseqb_refl].
Qed.

Lemma arrayIncludes_not_In a x : arrayIncludes a x = false <-> ~ In x a.
Proof.
  rewrite <- arrayIncludes_In. destruct (arrayIncludes a x); split; congruence.
Qed.

Lemma jseqb_sym a b : jseqb a b = jseqb b a.
Proof.
  destruct (jseqb a b) eqn:E.
  - apply jseqb_eq in E. subst. now rewrite jseqb_refl.
  - symmetry. apply jseqb_neq. apply jseqb_neq in E. congruence.
Qed.

Lemma getProp_omitProp o k k' :
  getProp (omitProp o k) k' = if jseqb k k' then None else getProp o k'.
Proof.
  unfold omitProp. induction o as [|[k0 v0] o IH]; cbn [filter getProp fst].
  - now destruct (jseqb k k').
  - destruct (jseqb k0 k) eqn:E0; cbn [negb].
    + apply jseqb_eq in E0. subst k0. rewrite IH.
      destruct (jseqb k k'); reflexivity.
    + cbn [getProp]. rewrite IH.
      destruct (jseqb k0 k') eqn:E1; [|reflexivity].
      apply jseqb_eq in E1. subst k0. rewrite jseqb_sym, E0. reflexivity.
Qed.

Lemma getProp_spreadProps extra k : forall o,
  getProp (spreadProps o extra) k =
  match lastValue extra k with
  | Some v => Some v
  | None => getProp o k
  end.
Proof.
  unfold spreadProps.
  induction extra as [|[n v] extra IH]; intros o; cbn [fold_left lastValue].
  - reflexivity.
  - rewrite IH. destruct (lastValue extra k); [reflexivity|].
    rewrite getProp_updateProp. destruct (jseqb n k); reflexivity.
Qed.

Lemma getProp_In_keys o k : getProp o k <> None <-> In k (map fst o).
Proof.
  induction o as [|[k0 v0] o IH]; cbn [getProp map fst In].
  - tauto.
  - destruct (jseqb k0 k) eqn:E.
    + apply jseqb_eq in E. split; [now left|discriminate].
    + apply jseqb_neq in E. rewrite IH. tauto.
Qed.

Lemma lastValue_In_keys tuples k :
  lastValue tuples k <> None <-> In k (map fst tuples).
Proof.
  induction tuples as [|[n v] tuples IH]; cbn [lastValue map fst In].
  - tauto.
  - destruct (lastValue tuples k) eqn:E.
    + split; [|discriminate]. intros _. right. apply IH. discriminate.
    + destruct (jseqb n k) eqn:En.
      * apply jseqb_eq in En. split; [now left|discriminate].
      * apply jseqb_neq in En. split; [congruence|].
        intros [H|H]; [contradiction|]. apply IH in H. contradiction.
Qed.

(* ================================================================= *)
(** * The component: the undo/redo history *)
(* ================================================================= *)

Lemma relativeIndex_nonneg {A} (a : list A) (i : Z) :
  (0 <= i <= Z.of_nat (List.length a))%Z -> relativeIndex a i = Z.to_nat i.
Proof.
  intros H. unfold relativeIndex.
  destruct (Z.ltb_spec i 0); lia.
Qed.

Lemma arrayGet_app_last {A} (a : list A) (x : A) :
  arrayGet (a ++ [x]) (Z.of_nat (List.length a)) = Some x.
Proof.
  unfold arrayGet. destruct (Z.ltb_spec (Z.of_nat (List.length a)) 0); [lia|].
  rewrite Nat2Z.id, nth_error_app2, Nat.sub_diag by lia. reflexivity.
Qed.

Lemma arrayGet_firstn_app {A} (a : list A) (n : nat) (x : A) (i : Z) :
  (i < Z.of_nat n)%Z -> n <= List.length a ->
  arrayGet (firstn n a ++ [x]) i = arrayGet a i.
Proof.
  intros Hi Hn. unfold arrayGet. destruct (Z.ltb_spec i 0); [reflexivity|].
  rewrite nth_error_app1 by (rewrite length_firstn; lia).
  rewrite nth_error_firstn.
  destruct (Nat.ltb_spec (Z.to_nat i) n); [reflexivity|lia].
Qed.

Lemma pushToHistory_history d h w s :
  App.historyInRange s ->
  App.history (App.pushToHistory d h w s) =
    firstn (Z.to_nat (App.historyIndex s + 1)) (App.history s)
    ++ [{| App.itemData := d; App.itemHeaders := h; App.itemColumnWidths := w |}]
  /\ App.historyIndex (App.pushToHistory d h w s) = (App.historyIndex s + 1)%Z
  /\ List.length (App.history (App.pushToHistory d h w s))
     = Z.to_nat (App.historyIndex s + 2).
Proof.
  unfold App.historyInRange. intros H.
  unfold App.pushToHistory, arraySliceTo. cbn [App.history App.historyIndex App.setHistory].
  rewrite relativeIndex_nonneg by lia.
  repeat split. rewrite length_app, length_firstn. cbn [List.length]. lia.
Qed.

Lemma arrayGet_in_range {A} (a : list A) (i : Z) :
  (0 <= i < Z.of_nat (List.length a))%Z -> exists x, arrayGet a i = Some x.
Proof.
  intros H. unfold arrayGet. destruct (Z.ltb_spec i 0); [lia|].
  destruct (nth_error a (Z.to_nat i)) eqn:E; [eauto|].
  apply nth_error_None in E. lia.
Qed.

Lemma arrayGet_Some_range {A} (a : list A) (i : Z) x :
  arrayGet a i = Some x -> (0 <= i < Z.of_nat (List.length a))%Z.
Proof.
  unfold arrayGet. destruct (Z.ltb_spec i 0); [discriminate|].
  intros E. assert (Hn : nth_error a (Z.to_nat i) <> None) by congruence.
  apply nth_error_Some in Hn. lia.
Qed.

Lemma restoreEntry_spec i s item :
  arrayGet (App.history s) i = Some item ->
  App.restoreEntry i s =
  App.setColumnWidths (App.itemColumnWidths item)
    (App.setTable (App.itemData item) (App.itemHeaders item)
       (App.setHistory (App.history s) i s)).
Proof. intros E. unfold App.restoreEntry. now rewrite E. Qed.

(** ** X1 *)

(** X1. [historyIndex] stays in range: when it is -1 or points at an
    entry of [history], it still does after [pushToHistory], after [undo]
    and after [redo]. *)
Theorem history_index_stays_in_range (s : App.State) (d : list FileRow)
    (h : list jsstring) (w : App.WidthMap) :
  App.historyInRange s ->
  App.historyInRange (App.pushToHistory d h w s)
  /\ App.historyInRange (App.undo s)
  /\ App.historyInRange (App.redo s).
Proof.
  intros H. split; [|split].
  - destruct (pushToHistory_history d h w H) as (_ & E2 & E3).
    unfold App.historyInRange in *. rewrite E2, E3. lia.
  - unfold App.undo. destruct (Z.gtb_spec (App.historyIndex s) 0); [|exact H].
    unfold App.historyInRange in H.
    destruct (@arrayGet_in_range _ (App.history s) (App.historyIndex s - 1))
      as [item E]; [lia|].
    rewrite (restoreEntry_spec _ _ E). unfold App.historyInRange.
    cbn [App.history App.historyIndex App.setColumnWidths App.setTable App.setHistory].
    lia.
  - unfold App.redo.
    destruct (Z.ltb_spec (App.historyIndex s)
                (Z.of_nat (List.length (App.history s)) - 1)); [|exact H].
    unfold App.historyInRange in H.
    destruct (@arrayGet_in_range _ (App.history s) (App.historyIndex s + 1))
      as [item E]; [lia|].
    rewrite (restoreEntry_spec _ _ E). unfold App.historyInRange.
    cbn [App.history App.historyIndex App.setColumnWidths App.setTable App.setHistory].
    lia.
Qed.


Lemma sampleState_historyInRange : App.historyInRange sampleState.
Proof. unfold App.historyInRange. simpl. lia. Defined.

Lemma sampleState_historyCurrent : App.historyCurrent sampleState.
Proof. reflexivity. Defined.

Lemma history_index_stays_in_range_witness :
  App.historyInRange (App.pushToHistory [] [] [] sampleState)
  /\ App.historyInRange (App.undo sampleState)
  /\ App.historyInRange (App.redo sampleState).
Proof.
  apply (@history_index_stays_in_range sampleState [] [] []).
  unfold App.historyInRange. simpl. lia.
Defined.

(** ** X2 *)

(** X2. After an edit is pushed on a history with a current entry, there
    is nothing to redo; [undo] brings back the table of the entry that
    was current, and a following [redo] brings back the pushed table. *)
Theorem push_undo_redo (s : App.State) (d : list FileRow) (h : list jsstring)
    (w : App.WidthMap) (item : App.HistoryItem) :
  App.historyInRange s ->
  arrayGet (App.history s) (App.historyIndex s) = Some item ->
  let s1 := App.pushToHistory d h w s in
  App.redo s1 = s1
  /\ (App.data (App.undo s1) = App.itemData item
      /\ App.headers (App.undo s1) = App.itemHeaders item
      /\ App.columnWidths (App.undo s1) = App.itemColumnWidths item
      /\ App.historyIndex (App.undo s1) = App.historyIndex s)
  /\ (App.data (App.redo (App.undo s1)) = d
      /\ App.headers (App.redo (App.undo s1)) = h
      /\ App.columnWidths (App.redo (App.undo s1)) = w
      /\ App.historyIndex (App.redo (App.undo s1)) = (App.historyIndex s + 1)%Z).
Proof.
  intros H E s1.
  pose proof (arrayGet_Some_range _ _ E) as Hi.
  destruct (pushToHistory_history d h w H) as (E1 & E2 & E3). fold s1 in E1, E2, E3.
  assert (Hredo : App.redo s1 = s1).
  { unfold App.redo. rewrite E2, E3.
    destruct (Z.ltb_spec (App.historyIndex s + 1)
                (Z.of_nat (Z.to_nat (App.historyIndex s + 2)) - 1)); [lia|reflexivity]. }
  assert (Eprev : arrayGet (App.history s1) (App.historyIndex s) = Some item).
  { rewrite E1, arrayGet_firstn_app; [exact E|lia|lia]. }
  assert (Hundo : App.undo s1 =
                  App.setColumnWidths (App.itemColumnWidths item)
                    (App.setTable (App.itemData item) (App.itemHeaders item)
                       (App.setHistory (App.history s1) (App.historyIndex s) s1))).
  { unfold App.undo. rewrite E2.
    destruct (Z.gtb_spec (App.historyIndex s + 1) 0); [|lia].
    replace (App.historyIndex s + 1 - 1)%Z with (App.historyIndex s) by lia.
    now apply restoreEntry_spec. }
  split; [exact Hredo|]. split.
  { rewrite Hundo. repeat split. }
  assert (Enext : arrayGet (App.history s1) (App.historyIndex s + 1) =
                  Some {| App.itemData := d; App.itemHeaders := h;
                          App.itemColumnWidths := w |}).
  { rewrite E1.
    replace (App.historyIndex s + 1)%Z
      with (Z.of_nat (List.length (firstn (Z.to_nat (App.historyIndex s + 1))
                                          (App.history s)))) at 2
      by (rewrite length_firstn; lia).
    apply arrayGet_app_last. }
  rewrite Hundo. unfold App.redo.
  cbn [App.history App.historyIndex App.setColumnWidths App.setTable App.setHistory].
  rewrite E3.
  destruct (Z.ltb_spec (App.historyIndex s)
              (Z.of_nat (Z.to_nat (App.historyIndex s + 2)) - 1)); [|lia].
  unfold App.restoreEntry.
  cbn [App.history App.historyIndex App.setColumnWidths App.setTable App.setHistory].
  rewrite Enext. repeat split.
Qed.

Lemma push_undo_redo_witness :
  App.data (App.redo (App.undo (App.pushToHistory [] [js "x"] [] sampleState))) = []
  /\ App.headers (App.undo (App.pushToHistory [] [js "x"] [] sampleState))
     = [js "name"; js "campaign_url"].
Proof.
  destruct (@push_undo_redo sampleState [] [js "x"] [] _
              sampleState_historyInRange sampleState_historyCurrent)
    as (_ & (_ & H2 & _) & (H3 & _)).
  split; [exact H3|exact H2].
Defined.

(** ** X3 *)

(** X3. When the current history entry is the table on display, [undo]
    and [redo] undo each other: [redo] after an effective [undo], and
    [undo] after an effective [redo], give back the very same state. *)
Theorem undo_redo_inverse (s : App.State) :
  App.historyInRange s -> App.historyCurrent s ->
  ((0 < App.historyIndex s)%Z -> App.redo (App.undo s) = s)
  /\ ((App.historyIndex s < Z.of_nat (List.length (App.history s)) - 1)%Z ->
      App.undo (App.redo s) = s).
Proof.
  unfold App.historyInRange, App.historyCurrent. intros H Hc.
  pose proof (arrayGet_Some_range _ _ Hc) as Hr. split; intros Hi.
  - destruct (@arrayGet_in_range _ (App.history s) (App.historyIndex s - 1))
      as [item E]; [lia|].
    unfold App.undo. destruct (Z.gtb_spec (App.historyIndex s) 0); [|lia].
    rewrite (restoreEntry_spec _ _ E). unfold App.redo.
    cbn [App.history App.historyIndex App.setColumnWidths App.setTable App.setHistory].
    destruct (Z.ltb_spec (App.historyIndex s - 1)
                (Z.of_nat (List.length (App.history s)) - 1)); [|lia].
    unfold App.restoreEntry.
    cbn [App.history App.historyIndex App.setColumnWidths App.setTable App.setHistory].
    replace (App.historyIndex s - 1 + 1)%Z with (App.historyIndex s) by lia.
    rewrite Hc. destruct s; reflexivity.
  - destruct (@arrayGet_in_range _ (App.history s) (App.historyIndex s + 1))
      as [item E]; [lia|].
    unfold App.redo.
    destruct (Z.ltb_spec (App.historyIndex s)
                (Z.of_nat (List.length (App.history s)) - 1)); [|lia].
    rewrite (restoreEntry_spec _ _ E). unfold App.undo.
    cbn [App.history App.historyIndex App.setColumnWidths App.setTable App.setHistory].
    destruct (Z.gtb_spec (App.historyIndex s + 1) 0); [|lia].
    unfold App.restoreEntry.
    cbn [App.history App.historyIndex App.setColumnWidths App.setTable App.setHistory].
    replace (App.historyIndex s + 1 - 1)%Z with (App.historyIndex s) by lia.
    rewrite Hc. destruct s; reflexivity.
Qed.


Lemma undo_redo_inverse_witness :
  App.redo (App.undo editedState) = editedState.
Proof.
  apply (proj1 (@undo_redo_inverse editedState
                  ltac:(unfold App.historyInRange; simpl; lia) eq_refl)).
  simpl. lia.
Defined.

(* ================================================================= *)
(** * The component: every handler keeps the history in step *)
(* ================================================================= *)

Lemma pushToHistory_current s d h w :
  App.historyInRange s ->
  App.data s = d -> App.headers s = h -> App.columnWidths s = w ->
  App.historyInRange (App.pushToHistory d h w s)
  /\ App.historyCurrent (App.pushToHistory d h w s).
Proof.
  intros H Ed Eh Ew.
  destruct (pushToHistory_history d h w H) as (E1 & E2 & E3).
  unfold App.historyInRange, App.historyCurrent in *.
  split; [rewrite E2, E3; lia|]. rewrite E1, E2.
  unfold App.pushToHistory.
  cbn [App.data App.headers App.columnWidths App.setHistory].
  rewrite Ed, Eh, Ew.
  replace (App.historyIndex s + 1)%Z
    with (Z.of_nat (List.length (firstn (Z.to_nat (App.historyIndex s + 1))
                                        (App.history s)))) at 2
    by (rewrite length_firstn; lia).
  apply arrayGet_app_last.
Qed.


Lemma historyInStep_frame s s' :
  App.data s' = App.data s -> App.headers s' = App.headers s ->
  App.columnWidths s' = App.columnWidths s ->
  App.history s' = App.history s -> App.historyIndex s' = App.historyIndex s ->
  historyInStep s -> historyInStep s'.
Proof.
  unfold historyInStep, App.historyInRange, App.historyCurrent.
  intros -> -> -> -> ->. tauto.
Qed.


Lemma historyInStep_push s d h w :
  App.historyInRange s ->
  historyInStep
    (App.pushToHistory d h w (App.setColumnWidths w (App.setTable d h s))).
Proof.
  intros H. apply pushToHistory_current; try reflexivity. exact H.
Qed.

Lemma historyInStep_push' s d h :
  App.historyInRange s ->
  historyInStep
    (App.pushToHistory d h (App.columnWidths s) (App.setTable d h s)).
Proof.
  intros H. apply pushToHistory_current; try reflexivity. exact H.
Qed.

Lemma historyInStep_restoreEntry i s :
  historyInStep s -> historyInStep (App.restoreEntry i s).
Proof.
  intros H. unfold App.restoreEntry.
  destruct (arrayGet (App.history s) i) as [item|] eqn:E; [|exact H].
  pose proof (arrayGet_Some_range _ _ E) as Hr.
  unfold historyInStep, App.historyInRange, App.historyCurrent.
  cbn [App.data App.headers App.columnWidths App.history App.historyIndex
       App.setColumnWidths App.setTable App.setHistory].
  split; [lia|]. rewrite E. now destruct item.
Qed.

(** ** X4 *)

(** X4. The handlers that load, edit or restore the table keep the
    history in step with it: if [historyIndex] is in range and the
    current entry is the table on display, with its widths, the same
    holds after [deleteColumn], [renameColumn], [processSplit],
    [processColumnMerge], [toggleMergeColumn], [handleColDrop], [undo]
    and [redo]; and it holds after a table has been loaded, whatever the
    state was. *)
Theorem handlers_keep_history_in_step (s : App.State) :
  (forall name hs rows, historyInStep (App.tableLoaded name hs rows s))
  /\ (historyInStep s ->
      (forall h, historyInStep (App.deleteColumn h s))
      /\ (forall oldName newName, historyInStep (App.renameColumn oldName newName s))
      /\ historyInStep (App.processSplit s)
      /\ historyInStep (App.processColumnMerge s)
      /\ (forall col, historyInStep (App.toggleMergeColumn col s))
      /\ (forall target, historyInStep (App.handleColDrop target s))
      /\ historyInStep (App.undo s)
      /\ historyInStep (App.redo s)).
Proof.
  split.
  { intros name hs rows. unfold App.tableLoaded.
    destruct (negb (isEmpty (detectBestUrlColumn hs rows)));
      split; try reflexivity;
      unfold App.historyInRange; cbn; lia. }
  intros [Hr Hc].
  assert (Hstep : historyInStep s) by (split; assumption).
  split; [|split; [|split; [|split; [|split; [|split; [|split]]]]]].
  - intros h. unfold App.deleteColumn.
    set (s1 := App.pushToHistory _ _ _ _).
    assert (H1 : historyInStep s1) by (apply historyInStep_push; exact Hr).
    revert H1. generalize s1. intros s2 H2.
    repeat match goal with
           | |- context [if ?b then _ else _] => destruct b
           end;
      (eapply historyInStep_frame; [| | | | |exact H2]; reflexivity).
  - intros oldName newName. unfold App.renameColumn.
    destruct (isEmpty newName || jseqb (trim newName) [] || jseqb oldName newName).
    { eapply historyInStep_frame; [| | | | |exact Hstep]; reflexivity. }
    destruct (arrayIncludes (App.headers s) newName).
    { eapply historyInStep_frame; [| | | | |exact Hstep]; reflexivity. }
    set (s1 := App.pushToHistory _ _ _ _).
    assert (H1 : historyInStep s1) by (apply historyInStep_push; exact Hr).
    revert H1. generalize s1. intros s2 H2.
    repeat match goal with
           | |- context [if ?b then _ else _] => destruct b
           end;
      (eapply historyInStep_frame; [| | | | |exact H2]; reflexivity).
  - unfold App.processSplit.
    destruct (isEmpty (App.urlColumn s) || (List.length (App.data s) =? 0)%nat);
      [exact Hstep|].
    destruct (fold_left App.addHeader _ _) as [newHeaders addedHeaders].
    eapply historyInStep_frame; [| | | | |apply (@historyInStep_push s); exact Hr];
      reflexivity.
  - unfold App.processColumnMerge.
    destruct (_ || _ || _); [exact Hstep|].
    destruct (negb (arrayIncludes (App.headers s) (App.mergeTargetColumn s))).
    + eapply historyInStep_frame; [| | | | |apply (@historyInStep_push s); exact Hr];
        reflexivity.
    + apply historyInStep_push'. exact Hr.
  - intros col. eapply historyInStep_frame; [| | | | |exact Hstep]; reflexivity.
  - intros target. unfold App.handleColDrop.
    destruct (App.draggedHeader s) as [dragged|].
    + destruct (isEmpty dragged || jseqb dragged target).
      * eapply historyInStep_frame; [| | | | |exact Hstep]; reflexivity.
      * eapply historyInStep_frame;
          [| | | | |apply (@historyInStep_push' s); exact Hr]; reflexivity.
    + eapply historyInStep_frame; [| | | | |exact Hstep]; reflexivity.
  - unfold App.undo. destruct (App.historyIndex s >? 0)%Z; [|exact Hstep].
    now apply historyInStep_restoreEntry.
  - unfold App.redo. destruct (_ <? _)%Z; [|exact Hstep].
    now apply historyInStep_restoreEntry.
Qed.

(* ================================================================= *)
(** * The component: deleting and renaming a column *)
(* ================================================================= *)

Lemma deleteColumn_table h s :
  App.headers (App.deleteColumn h s)
    = filter (fun c => negb (jseqb c h)) (App.headers s)
  /\ App.data (App.deleteColumn h s) = map (fun row => omitProp row h) (App.data s)
  /\ App.columnWidths (App.deleteColumn h s) = App.omitWidth (App.columnWidths s) h.
Proof.
  unfold App.deleteColumn.
  repeat match goal with
         | |- context [if ?b then _ else _] => destruct b
         end; repeat split.
Qed.

Lemma deleteColumn_selections h s :
  App.urlColumn (App.deleteColumn h s)
    = (if jseqb (App.urlColumn s) h then [] else App.urlColumn s)
  /\ App.baseUrlColumn (App.deleteColumn h s)
     = (if jseqb (App.baseUrlColumn s) h then [] else App.baseUrlColumn s)
  /\ App.mergeTargetColumn (App.deleteColumn h s)
     = (if jseqb (App.mergeTargetColumn s) h then [] else App.mergeTargetColumn s)
  /\ App.mergeSourceColumns (App.deleteColumn h s)
     = filter (fun c => negb (jseqb c h)) (App.mergeSourceColumns s).
Proof.
  unfold App.deleteColumn.
  destruct (arrayIncludes (App.mergeSourceColumns s) h) eqn:Hin;
    destruct (jseqb (App.urlColumn s) h), (jseqb (App.baseUrlColumn s) h),
      (jseqb (App.mergeTargetColumn s) h); repeat split;
    cbn [App.mergeSourceColumns App.setMergeTargetColumn App.setBaseUrlColumn
         App.setUrlColumn App.pushToHistory App.setHistory App.setColumnWidths
         App.setTable];
    symmetry; apply forallb_filter_id; apply forallb_forall; intros c Hc;
    apply negb_true_iff, jseqb_neq; intros ->;
    apply arrayIncludes_not_In in Hin; contradiction.
Qed.

Lemma filter_other_In (l : list jsstring) h c :
  In c (filter (fun x => negb (jseqb x h)) l) <-> In c l /\ c <> h.
Proof.
  rewrite filter_In, negb_true_iff, jseqb_neq. tauto.
Qed.

(** ** X5 *)


Lemma renameColumn_refused oldName newName s :
  isEmpty newName || jseqb (trim newName) [] || jseqb oldName newName = true ->
  App.renameColumn oldName newName s = App.setEditingHeader None s.
Proof. intros H. unfold App.renameColumn. now rewrite H. Qed.

Lemma renameColumn_duplicate oldName newName s :
  isEmpty newName || jseqb (trim newName) [] || jseqb oldName newName = false ->
  arrayIncludes (App.headers s) newName = true ->
  App.renameColumn oldName newName s =
  App.setEditingHeader None
    (App.setError (Some (App.duplicateColumnMessage newName)) s).
Proof. intros H1 H2. unfold App.renameColumn. now rewrite H1, H2. Qed.

(** ** X6 *)



Lemma renameColumn_accepted oldName newName s :
  trim newName <> [] -> oldName <> newName -> ~ In newName (App.headers s) ->
  let rename := fun c => if jseqb c oldName then newName else c in
  let s' := App.renameColumn oldName newName s in
  App.headers s' = map rename (App.headers s)
  /\ App.data s' = map (App.renameInRow oldName newName) (App.data s)
  /\ App.columnWidths s' = App.renameInWidths oldName newName (App.columnWidths s)
  /\ App.urlColumn s' = rename (App.urlColumn s)
  /\ App.baseUrlColumn s' = rename (App.baseUrlColumn s)
  /\ App.mergeTargetColumn s' = rename (App.mergeTargetColumn s)
  /\ App.mergeSourceColumns s' = map rename (App.mergeSourceColumns s)
  /\ App.editingHeader s' = None /\ App.error s' = App.error s.
Proof.
  intros Ht Hn Hin rename s'. subst s'. unfold App.renameColumn.
  assert (E1 : isEmpty newName || jseqb (trim newName) [] || jseqb oldName newName
               = false).
  { apply orb_false_iff. split; [apply orb_false_iff; split|].
    - apply isEmpty_false. intros ->. now apply Ht.
    - now apply jseqb_neq.
    - now apply jseqb_neq. }
  rewrite E1, (proj2 (arrayIncludes_not_In _ _) Hin).
  assert (Hsrc : arrayIncludes (App.mergeSourceColumns s) oldName = false ->
                 map rename (App.mergeSourceColumns s) = App.mergeSourceColumns s).
  { intros Hf. apply arrayIncludes_not_In in Hf.
    induction (App.mergeSourceColumns s) as [|c l IH]; [reflexivity|].
    cbn [map]. unfold rename at 1.
    rewrite (proj2 (jseqb_neq c oldName)) by (intros ->; apply Hf; now left).
    f_equal. apply IH. intros H. apply Hf. now right. }
  fold rename.
  destruct (arrayIncludes (App.mergeSourceColumns s) oldName) eqn:Hs;
    [|rewrite (Hsrc eq_refl)];
    unfold rename;
    destruct (jseqb (App.urlColumn s) oldName),
      (jseqb (App.baseUrlColumn s) oldName),
      (jseqb (App.mergeTargetColumn s) oldName); repeat split.
Qed.

Lemma NoDup_map_rename (l : list jsstring) oldName newName :
  NoDup l -> ~ In newName l ->
  NoDup (map (fun c => if jseqb c oldName then newName else c) l).
Proof.
  intros Hd Hn. induction l as [|x l IH]; [constructor|].
  inversion Hd as [|? ? Hx Hl]; subst. cbn [map]. constructor.
  - intros Hin. apply in_map_iff in Hin as (y & Ey & Hy).
    destruct (jseqb y oldName) eqn:E1; destruct (jseqb x oldName) eqn:E2.
    + apply jseqb_eq in E1, E2. subst. contradiction.
    + subst x. apply Hn. now left.
    + subst y. apply Hn. now right.
    + subst y. contradiction.
  - apply IH; [exact Hl|]. intros H. apply Hn. now right.
Qed.

Lemma getProp_renameInRow oldName newName row k :
  oldName <> newName ->
  getProp (App.renameInRow oldName newName row) k =
  if jseqb newName k
  then Some (match getProp row oldName with Some v => v | None => [] end)
  else if jseqb oldName k then None else getProp row k.
Proof.
  intros Hn. unfold App.renameInRow.
  now rewrite getProp_updateProp, getProp_omitProp.
Qed.

(** ** X7 *)

(** X7. A rename that is accepted (the new name is not blank, differs
    from the old one and is no header yet; the old name is no key that
    rows inherit) puts the new name where the old
    one stood and keeps the headers free of duplicates; every row reads
    under the new name what it read under the old one, nothing under the
    old name, and what it did under every other key; the selections that
    named the old column name the new one; the editor is closed. *)
Theorem renameColumn_renames (oldName newName : jsstring) (s : App.State) :
  trim newName <> [] -> oldName <> newName -> ~ In newName (App.headers s) ->
  isPlainKey oldName = true ->
  let rename := fun c => if jseqb c oldName then newName else c in
  let s' := App.renameColumn oldName newName s in
  App.headers s' = map rename (App.headers s)
  /\ ~ In oldName (App.headers s')
  /\ (In oldName (App.headers s) -> In newName (App.headers s'))
  /\ (NoDup (App.headers s) -> NoDup (App.headers s'))
  /\ Forall2 (fun row row' =>
                cellText row' newName = cellText row oldName
                /\ getProp row' oldName = None
                /\ (forall k, k <> oldName -> k <> newName ->
                      getProp row' k = getProp row k))
             (App.data s) (App.data s')
  /\ App.urlColumn s' = rename (App.urlColumn s)
  /\ App.baseUrlColumn s' = rename (App.baseUrlColumn s)
  /\ App.mergeTargetColumn s' = rename (App.mergeTargetColumn s)
  /\ App.mergeSourceColumns s' = map rename (App.mergeSourceColumns s)
  /\ App.editingHeader s' = None.
Proof.
  intros Ht Hn Hin _ rename s'.
  destruct (renameColumn_accepted s Ht Hn Hin)
    as (Eh & Ed & _ & Eu & Eb & Em & Es & Ee & _).
  fold rename in Eh, Eu, Eb, Em, Es. fold s' in Eh, Ed, Eu, Eb, Em, Es, Ee.
  rewrite Eh, Ed, Eu, Eb, Em, Es, Ee.
  split; [reflexivity|].
  split; [|split; [|split; [|split; [|repeat split]]]].
  - intros H. apply in_map_iff in H as (y & Ey & Hy). unfold rename in Ey.
    destruct (jseqb y oldName) eqn:E; [congruence|].
    apply jseqb_neq in E. congruence.
  - intros H. apply in_map_iff. exists oldName. split; [|exact H].
    unfold rename. now rewrite jseqb_refl.
  - intros Hd. now apply NoDup_map_rename.
  - generalize (App.data s). intros rows.
    induction rows as [|row rows IH]; cbn [map]; constructor; [|exact IH].
    split; [|split].
    + unfold cellText. rewrite getProp_renameInRow, jseqb_refl by exact Hn.
      destruct (getProp row oldName) as [v|]; [|reflexivity].
      destruct (isEmpty v); reflexivity.
    + rewrite getProp_renameInRow by exact Hn.
      rewrite (proj2 (jseqb_neq newName oldName)) by congruence.
      now rewrite jseqb_refl.
    + intros k Hk1 Hk2. rewrite getProp_renameInRow by exact Hn.
      rewrite (proj2 (jseqb_neq newName k)) by congruence.
      now rewrite (proj2 (jseqb_neq oldName k)) by congruence.
Qed.

Lemma renameColumn_renames_witness :
  App.headers (App.renameColumn (js "campaign_url") (js "link") sampleState)
  = [js "name"; js "link"]
  /\ App.urlColumn (App.renameColumn (js "campaign_url") (js "link") sampleState)
     = js "link".
Proof.
  destruct (@renameColumn_renames (js "campaign_url") (js "link") sampleState
              ltac:(discriminate) ltac:(discriminate)
              ltac:(simpl; intuition discriminate) ltac:(reflexivity))
    as (H1 & _ & _ & _ & _ & H2 & _).
  split; [exact H1|exact H2].
Defined.

(* ================================================================= *)
(** * The component: objects with distinct keys *)
(* ================================================================= *)

Lemma keys_updateProp_present o k v :
  In k (map fst o) -> map fst (updateProp o k v) = map fst o.
Proof.
  induction o as [|[k0 v0] o IH]; intros H; [destruct H|].
  cbn [updateProp]. destruct (jseqb k0 k) eqn:E; [reflexivity|].
  cbn [map fst]. f_equal. apply IH. destruct H as [H|H]; [|exact H].
  cbn [fst] in H. subst. now rewrite jseqb_refl in E.
Qed.

Lemma keys_updateProp o k v :
  forall k', In k' (map fst (updateProp o k v)) <-> k' = k \/ In k' (map fst o).
Proof.
  intros k'. rewrite <- !getProp_In_keys, getProp_updateProp.
  destruct (jseqb k k') eqn:E.
  - apply jseqb_eq in E. split; [now left|discriminate].
  - apply jseqb_neq in E. split; [now right|]. intros [H|H]; [congruence|exact H].
Qed.

Lemma NoDup_keys_updateProp o k v :
  NoDup (map fst o) -> NoDup (map fst (updateProp o k v)).
Proof.
  induction o as [|[k0 v0] o IH]; intros H.
  - cbn. constructor; [intros []|constructor].
  - cbn [updateProp]. destruct (jseqb k0 k) eqn:E; [exact H|].
    cbn [map fst] in *. inversion H as [|? ? Hx Hl]; subst.
    constructor; [|now apply IH].
    rewrite keys_updateProp. intros [->|Hin]; [|contradiction].
    now rewrite jseqb_refl in E.
Qed.

Lemma NoDup_keys_spreadProps extra : forall o,
  NoDup (map fst o) -> NoDup (map fst (spreadProps o extra)).
Proof.
  unfold spreadProps. induction extra as [|[k v] extra IH]; intros o H; [exact H|].
  cbn [fold_left]. now apply IH, NoDup_keys_updateProp.
Qed.

Lemma keys_spreadProps extra : forall o k',
  In k' (map fst (spreadProps o extra)) <-> In k' (map fst o) \/ In k' (map fst extra).
Proof.
  unfold spreadProps. induction extra as [|[k v] extra IH]; intros o k'.
  - cbn. tauto.
  - cbn [fold_left map fst In]. rewrite IH, keys_updateProp.
    intuition (subst; auto).
Qed.

Lemma keys_spreadProps_present extra : forall o,
  (forall k, In k (map fst extra) -> In k (map fst o)) ->
  map fst (spreadProps o extra) = map fst o.
Proof.
  unfold spreadProps. induction extra as [|[k v] extra IH]; intros o H; [reflexivity|].
  cbn [fold_left]. rewrite IH.
  - apply keys_updateProp_present. apply H. now left.
  - intros k' Hk'. apply keys_updateProp. right. apply H. now right.
Qed.

(** Two objects with the same keys in the same order, all distinct, and
    the same values are the same object. *)
Lemma object_ext (o1 o2 : JsObject) :
  map fst o1 = map fst o2 -> NoDup (map fst o1) ->
  (forall k, getProp o1 k = getProp o2 k) -> o1 = o2.
Proof.
  revert o2. induction o1 as [|[k1 v1] o1 IH]; intros [|[k2 v2] o2] Hk Hd Hg;
    try discriminate; [reflexivity|].
  cbn [map fst] in Hk. injection Hk as -> Hk'.
  inversion Hd as [|? ? Hx Hl]; subst.
  pose proof (Hg k2) as H2. cbn [getProp] in H2. rewrite jseqb_refl in H2.
  injection H2 as ->. f_equal. apply IH; [exact Hk'|exact Hl|].
  intros k. specialize (Hg k). cbn [getProp] in Hg.
  destruct (jseqb k2 k) eqn:E; [|exact Hg].
  apply jseqb_eq in E. subst k.
  assert (H1 : getProp o1 k2 = None).
  { destruct (getProp o1 k2) eqn:E1; [|reflexivity].
    exfalso. apply Hx. apply getProp_In_keys. congruence. }
  assert (H3 : getProp o2 k2 = None).
  { destruct (getProp o2 k2) eqn:E1; [|reflexivity].
    exfalso. apply Hx. rewrite Hk'. apply getProp_In_keys. congruence. }
  congruence.
Qed.

Lemma getProp_lastValue o k :
  NoDup (map fst o) -> getProp o k = lastValue o k.
Proof.
  induction o as [|[k0 v0] o IH]; intros H; [reflexivity|].
  cbn [map fst] in H. inversion H as [|? ? Hx Hl]; subst.
  cbn [getProp lastValue]. destruct (jseqb k0 k) eqn:E.
  - apply jseqb_eq in E. subst k0.
    destruct (lastValue o k) eqn:E1; [|reflexivity].
    exfalso. apply Hx. apply lastValue_In_keys. congruence.
  - rewrite IH by exact Hl. destruct (lastValue o k); reflexivity.
Qed.

Lemma NoDup_keys_recordParam o e :
  NoDup (map fst o) -> NoDup (map fst (recordParam o e)).
Proof.
  intros H. destruct e as [k v]. unfold recordParam, setProp.
  destruct (negb (isEmpty k)); [|exact H].
  destruct (jseqb k (js "__proto__")); [exact H|].
  now apply NoDup_keys_updateProp.
Qed.

Lemma NoDup_keys_extractParams searchPart :
  NoDup (map fst (extractParams searchPart)).
Proof.
  unfold extractParams. destruct (negb (isEmpty searchPart)); [|constructor].
  assert (H : forall tuples o, NoDup (map fst o) ->
                NoDup (map fst (fold_left recordParam tuples o))).
  { induction tuples as [|e tuples IH]; intros o Ho; [exact Ho|].
    cbn [fold_left]. now apply IH, NoDup_keys_recordParam. }
  apply H. constructor.
Qed.

Lemma NoDup_keys_splitUrl s : NoDup (map fst (params (splitUrl s))).
Proof. rewrite splitUrl_unfold. apply NoDup_keys_extractParams. Qed.

(* ================================================================= *)
(** * The component: splitting the URL column *)
(* ================================================================= *)

Lemma setAdd_fold_In keys : forall acc k,
  In k (fold_left setAdd keys acc) <-> In k acc \/ In k keys.
Proof.
  induction keys as [|x keys IH]; intros acc k; cbn [fold_left In]; [tauto|].
  rewrite IH. unfold setAdd. destruct (arrayIncludes acc x) eqn:E.
  - apply arrayIncludes_In in E. intuition (subst; auto).
  - rewrite in_app_iff. cbn [In]. tauto.
Qed.

Lemma discoverKeys_fold_In url rows : forall acc k,
  In k (fold_left
          (fun discoveredKeys row =>
             fold_left setAdd
               (objectKeys (params (splitUrl (cellText row url)))) discoveredKeys)
          rows acc)
  <-> In k acc
      \/ exists row, In row rows
                     /\ In k (objectKeys (params (splitUrl (cellText row url)))).
Proof.
  induction rows as [|row rows IH]; intros acc k; cbn [fold_left].
  - split; [now left|]. intros [H|(row & [] & _)]. exact H.
  - rewrite IH, setAdd_fold_In. split.
    + intros [[H|H]|(row' & H1 & H2)]; [now left| |].
      * right. exists row. split; [now left|exact H].
      * right. exists row'. split; [now right|exact H2].
    + intros [H|(row' & [<-|H1] & H2)]; [now left; left|now left; right|].
      right. now exists row'.
Qed.

Lemma discoverKeys_In url rows k :
  In k (App.discoverKeys url rows) <->
  exists row, In row rows
              /\ In k (objectKeys (params (splitUrl (cellText row url)))).
Proof.
  unfold App.discoverKeys. rewrite discoverKeys_fold_In. cbn [In]. tauto.
Qed.

Lemma addHeader_fold cands : forall hs added,
  exists new,
    fold_left App.addHeader cands (hs, added) = (hs ++ new, added ++ new)
    /\ (forall k, In k new <-> In k cands /\ ~ In k hs)
    /\ (NoDup hs -> NoDup (hs ++ new)).
Proof.
  induction cands as [|c cands IH]; intros hs added.
  - exists []. rewrite !app_nil_r. cbn. split; [reflexivity|]. split; [tauto|auto].
  - cbn [fold_left App.addHeader].
    destruct (arrayIncludes hs c) eqn:E; cbn [negb].
    + apply arrayIncludes_In in E.
      destruct (IH hs added) as (new & E1 & E2 & E3).
      exists new. split; [exact E1|]. split; [|exact E3].
      intros k. rewrite E2. cbn [In].
      split; [tauto|]. intros [[<-|H] Hn]; [contradiction|tauto].
    + apply arrayIncludes_not_In in E.
      destruct (IH (hs ++ [c]) (added ++ [c])) as (new & E1 & E2 & E3).
      exists (c :: new). rewrite E1, <- !app_assoc. cbn [app].
      split; [reflexivity|]. split.
      * intros k. cbn [In]. rewrite E2, in_app_iff. cbn [In].
        destruct (list_eq_dec N.eq_dec c k); intuition (subst; auto).
      * intros Hd.
        replace (hs ++ c :: new) with ((hs ++ [c]) ++ new)
          by (now rewrite <- app_assoc).
        apply E3. apply NoDup_app; [exact Hd|repeat constructor; intros []|].
        intros x Hx [<-|[]]. contradiction.
Qed.

Lemma processSplit_guard s :
  App.urlColumn s = [] \/ App.data s = [] -> App.processSplit s = s.
Proof.
  intros H. unfold App.processSplit.
  destruct H as [->| ->]; cbn [isEmpty orb List.length Nat.eqb];
    [reflexivity|now rewrite orb_true_r].
Qed.

Lemma processSplit_run s :
  App.urlColumn s <> [] -> App.data s <> [] ->
  App.data (App.processSplit s) = map (App.splitRow (App.urlColumn s)) (App.data s)
  /\ App.headers (App.processSplit s)
     = fst (fold_left App.addHeader
              (js "Clean URL" :: App.discoverKeys (App.urlColumn s) (App.data s))
              (App.headers s, []))
  /\ App.columnWidths (App.processSplit s)
     = App.spreadWidths (App.columnWidths s)
         (App.calculateInitialWidths
            (snd (fold_left App.addHeader
                    (js "Clean URL" :: App.discoverKeys (App.urlColumn s) (App.data s))
                    (App.headers s, [])))
            (map (App.splitRow (App.urlColumn s)) (App.data s))).
Proof.
  intros Hu Hd. unfold App.processSplit.
  rewrite (proj2 (isEmpty_false _) Hu).
  destruct (App.data s) as [|row rows] eqn:E; [congruence|].
  cbn [List.length Nat.eqb orb]. rewrite <- E.
  destruct (fold_left App.addHeader _ _) as [newHeaders addedHeaders].
  repeat split.
Qed.

(** ** X8 *)

(** X8. [processSplit] does nothing without a URL column or without rows.
    Otherwise (the URL column being no key that rows inherit) it keeps the headers and appends new ones: the appended
    headers are exactly [Clean URL] and the parameter keys found in the
    URL cells, as far as they were no headers yet, each once. *)
Theorem processSplit_appends_headers (s : App.State) :
  (App.urlColumn s = [] \/ App.data s = [] -> App.processSplit s = s)
  /\ (App.urlColumn s <> [] -> App.data s <> [] ->
      isPlainKey (App.urlColumn s) = true ->
      exists added,
        App.headers (App.processSplit s) = App.headers s ++ added
        /\ (NoDup (App.headers s) -> NoDup (App.headers (App.processSplit s)))
        /\ (forall k,
              In k added <->
              ~ In k (App.headers s)
              /\ (k = js "Clean URL"
                  \/ exists row,
                       In row (App.data s)
                       /\ getProp (params (splitUrl (cellText row (App.urlColumn s)))) k
                          <> None))).
Proof.
  split; [apply processSplit_guard|].
  intros Hu Hd _. destruct (processSplit_run s Hu Hd) as (_ & Eh & _).
  destruct (addHeader_fold
              (js "Clean URL" :: App.discoverKeys (App.urlColumn s) (App.data s))
              (App.headers s) []) as (new & E1 & E2 & E3).
  rewrite E1 in Eh. cbn [fst] in Eh. exists new. rewrite Eh.
  split; [reflexivity|]. split; [exact E3|].
  intros k. rewrite E2. cbn [In]. rewrite discoverKeys_In.
  split.
  - intros [[<-|(row & H1 & H2)] Hn]; split; auto.
    right. exists row. split; [exact H1|]. now apply getProp_In_keys.
  - intros [Hn [->|(row & H1 & H2)]]; split; auto.
    right. exists row. split; [exact H1|]. now apply getProp_In_keys.
Qed.

Lemma processSplit_appends_headers_witness :
  exists added,
    App.headers (App.processSplit sampleState) = App.headers sampleState ++ added
    /\ (NoDup (App.headers sampleState) ->
        NoDup (App.headers (App.processSplit sampleState)))
    /\ (forall k,
          In k added <->
          ~ In k (App.headers sampleState)
          /\ (k = js "Clean URL"
              \/ exists row,
                   In row (App.data sampleState)
                   /\ getProp (params (splitUrl
                                 (cellText row (App.urlColumn sampleState)))) k
                      <> None)).
Proof.
  apply (proj2 (processSplit_appends_headers sampleState));
    [discriminate|discriminate|reflexivity].
Defined.

Lemma getProp_splitRow url row k :
  getProp (App.splitRow url row) k =
  match getProp (params (splitUrl (cellText row url))) k with
  | Some v => Some v
  | None =>
      if jseqb k (js "Clean URL")
      then Some (cleanUrl (splitUrl (cellText row url)))
      else getProp row k
  end.
Proof.
  unfold App.splitRow.
  rewrite getProp_spreadProps, getProp_updateProp,
    <- getProp_lastValue by apply NoDup_keys_splitUrl.
  now rewrite (jseqb_sym k).
Qed.

(** ** X9 *)

(** X9. With a URL column (no key that rows inherit) and with rows,
    [processSplit] keeps every row and writes into it the parts of its
    URL cell: under a parameter key the row reads the parameter's value;
    under [Clean URL] it reads the clean URL, unless a parameter has that
    very name; under every other key it reads what it did.  A parameter
    named like an existing column thus replaces that column's cell. *)
Theorem processSplit_fills_rows (s : App.State) :
  App.urlColumn s <> [] -> App.data s <> [] ->
  isPlainKey (App.urlColumn s) = true ->
  Forall2
    (fun row row' =>
       let r := splitUrl (cellText row (App.urlColumn s)) in
       forall k,
         getProp row' k =
         match getProp (params r) k with
         | Some v => Some v
         | None => if jseqb k (js "Clean URL") then Some (cleanUrl r)
                   else getProp row k
         end)
    (App.data s) (App.data (App.processSplit s)).
Proof.
  intros Hu Hd _. destruct (processSplit_run s Hu Hd) as (Ed & _). rewrite Ed.
  generalize (App.data s). intros rows.
  induction rows as [|row rows IH]; cbn [map]; constructor; [|exact IH].
  intros k. apply getProp_splitRow.
Qed.

Lemma processSplit_fills_rows_witness :
  Forall2
    (fun row row' =>
       let r := splitUrl (cellText row (App.urlColumn sampleState)) in
       forall k,
         getProp row' k =
         match getProp (params r) k with
         | Some v => Some v
         | None => if jseqb k (js "Clean URL") then Some (cleanUrl r)
                   else getProp row k
         end)
    (App.data sampleState) (App.data (App.processSplit sampleState)).
Proof.
  apply (@processSplit_fills_rows sampleState);
    [discriminate|discriminate|reflexivity].
Defined.

Lemma processSplit_urlColumn s : App.urlColumn (App.processSplit s) = App.urlColumn s.
Proof.
  unfold App.processSplit.
  destruct (isEmpty (App.urlColumn s) || (List.length (App.data s) =? 0)%nat);
    [reflexivity|].
  destruct (fold_left App.addHeader _ _) as [newHeaders addedHeaders]. reflexivity.
Qed.

Lemma cellText_splitRow url row :
  url <> js "Clean URL" ->
  getProp (params (splitUrl (cellText row url))) url = None ->
  cellText (App.splitRow url row) url = cellText row url.
Proof.
  intros Hu Hp. unfold cellText at 1. rewrite getProp_splitRow, Hp.
  rewrite (proj2 (jseqb_neq url (js "Clean URL")) Hu). reflexivity.
Qed.

Lemma no_member_nil {A} (l : list A) : (forall x, ~ In x l) -> l = [].
Proof.
  destruct l as [|x l]; [reflexivity|]. intros H. destruct (H x). now left.
Qed.

(** ** X10 *)

(** X10. Splitting a second time changes nothing in the table: when the
    URL column is not [Clean URL] and no URL has a parameter named like
    the URL column, a second [processSplit] leaves the headers and the
    widths as the first one made them, and every row reads the same under
    every key. *)
Theorem processSplit_twice (s : App.State) :
  App.urlColumn s <> [] -> App.data s <> [] ->
  isPlainKey (App.urlColumn s) = true ->
  App.urlColumn s <> js "Clean URL" ->
  (forall row, In row (App.data s) ->
     getProp (params (splitUrl (cellText row (App.urlColumn s)))) (App.urlColumn s)
     = None) ->
  let s1 := App.processSplit s in
  let s2 := App.processSplit s1 in
  App.headers s2 = App.headers s1
  /\ App.columnWidths s2 = App.columnWidths s1
  /\ Forall2 (fun row1 row2 => forall k, getProp row2 k = getProp row1 k)
             (App.data s1) (App.data s2).
Proof.
  intros Hu Hd _ Hc Hp s1 s2.
  destruct (processSplit_run s Hu Hd) as (Ed1 & Eh1 & _). fold s1 in Ed1, Eh1.
  assert (Hu1 : App.urlColumn s1 = App.urlColumn s) by apply processSplit_urlColumn.
  assert (Hd1 : App.data s1 <> []).
  { rewrite Ed1. destruct (App.data s); [congruence|discriminate]. }
  destruct (processSplit_run s1) as (Ed2 & Eh2 & Ew2);
    [rewrite Hu1; exact Hu|exact Hd1|].
  fold s2 in Ed2, Eh2, Ew2. rewrite Hu1 in Ed2, Eh2, Ew2.
  destruct (addHeader_fold
              (js "Clean URL" :: App.discoverKeys (App.urlColumn s) (App.data s))
              (App.headers s) []) as (new1 & F1 & G1 & _).
  rewrite F1 in Eh1. cbn [fst] in Eh1.
  destruct (addHeader_fold
              (js "Clean URL" :: App.discoverKeys (App.urlColumn s) (App.data s1))
              (App.headers s1) []) as (new2 & F2 & G2 & _).
  assert (Hnew : new2 = []).
  { apply no_member_nil. intros k Hk. apply G2 in Hk as [Hk Hn]. apply Hn.
    rewrite Eh1. apply in_app_iff.
    destruct (in_dec (list_eq_dec N.eq_dec) k (App.headers s)) as [Hi|Hi];
      [now left|right].
    apply G1. split; [|exact Hi].
    destruct Hk as [<-|Hk]; [now left|right].
    apply discoverKeys_In in Hk as (row1 & Hr & Hk).
    rewrite Ed1 in Hr. apply in_map_iff in Hr as (row & <- & Hr).
    rewrite cellText_splitRow in Hk by auto.
    apply discoverKeys_In. now exists row. }
  rewrite F2, Hnew, app_nil_r in Eh2, Ew2. cbn [fst snd app] in Eh2, Ew2.
  split; [exact Eh2|]. split; [exact Ew2|].
  rewrite Ed2, Ed1. clear - Hc Hp.
  revert Hp. generalize (App.data s). intros rows Hp.
  induction rows as [|row rows IH]; cbn [map]; constructor.
  - intros k. rewrite (getProp_splitRow _ (App.splitRow _ row)).
    rewrite cellText_splitRow by (auto; apply Hp; now left).
    rewrite (getProp_splitRow _ row).
    destruct (getProp (params (splitUrl (cellText row (App.urlColumn s)))) k);
      [reflexivity|].
    destruct (jseqb k (js "Clean URL")); reflexivity.
  - apply IH. intros row' H. apply Hp. now right.
Qed.

Lemma processSplit_twice_witness :
  App.headers (App.processSplit (App.processSplit sampleState))
  = App.headers (App.processSplit sampleState)
  /\ App.columnWidths (App.processSplit (App.processSplit sampleState))
     = App.columnWidths (App.processSplit sampleState)
  /\ Forall2 (fun row1 row2 => forall k, getProp row2 k = getProp row1 k)
             (App.data (App.processSplit sampleState))
             (App.data (App.processSplit (App.processSplit sampleState))).
Proof.
  apply (@processSplit_twice sampleState);
    [discriminate|discriminate|reflexivity|discriminate|].
  intros row [<-|[]]. vm_compute. reflexivity.
Defined.

(* ================================================================= *)
(** * The component: merging columns *)
(* ================================================================= *)

Lemma processColumnMerge_guard s :
  App.mergeSourceColumns s = [] \/ App.mergeTargetColumn s = [] \/ App.data s = [] ->
  App.processColumnMerge s = s.
Proof.
  intros H. unfold App.processColumnMerge.
  destruct H as [-> |[-> | ->]]; cbn [isEmpty orb List.length Nat.eqb];
    rewrite ?orb_true_r; reflexivity.
Qed.

Lemma processColumnMerge_run s :
  App.mergeSourceColumns s <> [] -> App.mergeTargetColumn s <> [] ->
  App.data s <> [] ->
  let newData :=
    map (fun row => updateProp row (App.mergeTargetColumn s) (App.mergeResult s row))
        (App.data s) in
  App.data (App.processColumnMerge s) = newData
  /\ App.headers (App.processColumnMerge s)
     = (if arrayIncludes (App.headers s) (App.mergeTargetColumn s)
        then App.headers s else App.headers s ++ [App.mergeTargetColumn s])
  /\ App.columnWidths (App.processColumnMerge s)
     = (if arrayIncludes (App.headers s) (App.mergeTargetColumn s)
        then App.columnWidths s
        else App.spreadWidths (App.columnWidths s)
               (App.calculateInitialWidths [App.mergeTargetColumn s] newData)).
Proof.
  intros Hs Ht Hd. cbv zeta. unfold App.processColumnMerge.
  destruct (App.mergeSourceColumns s) as [|c cs] eqn:E1; [congruence|].
  rewrite (proj2 (isEmpty_false _) Ht).
  destruct (App.data s) as [|row rows] eqn:E2; [congruence|].
  cbn [List.length Nat.eqb orb]. rewrite <- E2.
  destruct (arrayIncludes (App.headers s) (App.mergeTargetColumn s));
    cbn [negb]; repeat split.
Qed.

(** ** X11 *)

(** X11. [processColumnMerge] does nothing without source columns,
    without a target name or without rows.  Otherwise (the columns it
    reads being no keys that rows inherit) every row reads the
    merged value under the target name and what it did under every other
    key; a target that is a header already keeps the headers and the
    widths as they are, a new one becomes the last header. *)
Theorem processColumnMerge_writes_target (s : App.State) :
  (App.mergeSourceColumns s = [] \/ App.mergeTargetColumn s = [] \/ App.data s = [] ->
   App.processColumnMerge s = s)
  /\ (App.mergeSourceColumns s <> [] -> App.mergeTargetColumn s <> [] ->
      App.data s <> [] ->
      forallb isPlainKey (App.baseUrlColumn s :: App.mergeSourceColumns s) = true ->
      let s' := App.processColumnMerge s in
      let target := App.mergeTargetColumn s in
      Forall2 (fun row row' =>
                 getProp row' target = Some (App.mergeResult s row)
                 /\ forall k, k <> target -> getProp row' k = getProp row k)
              (App.data s) (App.data s')
      /\ (In target (App.headers s) ->
          App.headers s' = App.headers s
          /\ App.columnWidths s' = App.columnWidths s)
      /\ (~ In target (App.headers s) ->
          App.headers s' = App.headers s ++ [target])
      /\ (NoDup (App.headers s) -> NoDup (App.headers s'))).
Proof.
  split; [apply processColumnMerge_guard|].
  intros Hs Ht Hd _ s' target.
  destruct (processColumnMerge_run s Hs Ht Hd) as (Ed & Eh & Ew).
  fold s' target in Ed, Eh, Ew. rewrite Ed, Eh, Ew.
  split; [|split; [|split]].
  - generalize (App.data s). intros rows.
    induction rows as [|row rows IH]; cbn [map]; constructor; [|exact IH].
    split.
    + now rewrite getProp_updateProp, jseqb_refl.
    + intros k Hk. rewrite getProp_updateProp.
      now rewrite (proj2 (jseqb_neq target k)) by congruence.
  - intros Hi. apply arrayIncludes_In in Hi. rewrite Hi. now split.
  - intros Hi. apply arrayIncludes_not_In in Hi. now rewrite Hi.
  - intros Hn. destruct (arrayIncludes (App.headers s) target) eqn:E; [exact Hn|].
    apply arrayIncludes_not_In in E.
    apply NoDup_app; [exact Hn|repeat constructor; intros []|].
    intros x Hx [<-|[]]. contradiction.
Qed.

Lemma processColumnMerge_writes_target_witness :
  App.headers (App.processColumnMerge sampleState)
  = App.headers sampleState ++ [App.mergeTargetColumn sampleState].
Proof.
  destruct (proj2 (processColumnMerge_writes_target sampleState)
              ltac:(discriminate) ltac:(discriminate) ltac:(discriminate)
              ltac:(reflexivity))
    as (_ & _ & H & _).
  apply H. simpl. intuition discriminate.
Defined.

Lemma columnParams_mergeParams (row : FileRow) (sources : list jsstring) :
  (forall col, In col sources ->
     cellString row col = [] \/ trim (cellString row col) <> []) ->
  App.columnParams sources row
  = mergeParams (map (fun col => (col, cellString row col)) sources).
Proof.
  unfold App.columnParams, mergeParams, objectEntries.
  generalize (@nil (jsstring * jsstring)).
  induction sources as [|col sources IH]; intros acc H; [reflexivity|].
  cbn [fold_left map]. rewrite IH by (intros c Hc; apply H; now right).
  f_equal. unfold mergeEntry, isNonBlank.
  destruct (H col (or_introl eq_refl)) as [E|E].
  - rewrite E. reflexivity.
  - destruct (cellString row col) as [|c v] eqn:Ev; [reflexivity|].
    cbn [isEmpty negb andb].
    now rewrite (proj2 (jseqb_neq (trim (c :: v)) []) E).
Qed.

(** ** X12 *)

(** X12. In the two URL modes the merge handler computes what [mergeUrl]
    computes on the object that holds the source cells under the names of
    their columns (distinct names, none inherited by objects and none an
    array index, so that the object lists them in the order of the source
    columns), as long as no source cell consists of white space only:
    with the base URL cell in the mode [utm_url], with an empty base URL in
    the mode [utm_params]. *)
Theorem mergeResult_is_mergeUrl (s : App.State) (row : FileRow) :
  NoDup (App.mergeSourceColumns s) ->
  forallb isPlainKey (App.baseUrlColumn s :: App.mergeSourceColumns s) = true ->
  existsb isArrayIndex (App.mergeSourceColumns s) = false ->
  (forall col, In col (App.mergeSourceColumns s) ->
     cellString row col = [] \/ trim (cellString row col) <> []) ->
  let parameters :=
    map (fun col => (col, cellString row col)) (App.mergeSourceColumns s) in
  (App.mergeMode s = App.utm_url ->
   App.mergeResult s row = mergeUrl (cellString row (App.baseUrlColumn s)) parameters)
  /\ (App.mergeMode s = App.utm_params ->
      App.mergeResult s row = mergeUrl [] parameters).
Proof.
  intros _ _ _ H parameters.
  pose proof (columnParams_mergeParams row _ H) as E. fold parameters in E.
  assert (E0 : (List.length (objectKeys parameters) =? 0)%nat = true ->
               uspToString (mergeParams parameters) = []).
  { unfold parameters. destruct (App.mergeSourceColumns s); [reflexivity|].
    discriminate. }
  split; intros Hm; unfold App.mergeResult, mergeUrl; rewrite Hm, E.
  - destruct (cellString row (App.baseUrlColumn s)) as [|c base];
      cbn [isEmpty andb]; [|reflexivity].
    destruct (List.length (objectKeys parameters) =? 0)%nat eqn:El;
      [now apply E0|reflexivity].
  - cbn [isEmpty andb].
    destruct (List.length (objectKeys parameters) =? 0)%nat eqn:El;
      [now apply E0|reflexivity].
Qed.

Lemma mergeResult_is_mergeUrl_witness :
  App.mergeResult sampleState campaignRow
  = mergeUrl (cellString campaignRow (App.baseUrlColumn sampleState))
      (map (fun col => (col, cellString campaignRow col))
           (App.mergeSourceColumns sampleState)).
Proof.
  apply (@mergeResult_is_mergeUrl sampleState campaignRow);
    [repeat constructor; intros []|reflexivity|reflexivity| |reflexivity].
  intros col [<-|[]]. right. vm_compute. discriminate.
Defined.

(* ================================================================= *)
(** * The component: moving a column, choosing merge sources *)
(* ================================================================= *)

Lemma arrayIndexOf_ge a x : (-1 <= arrayIndexOf a x)%Z.
Proof.
  induction a as [|y a IH]; cbn [arrayIndexOf]; [lia|].
  destruct (jseqb y x); [lia|]. destruct (Z.ltb_spec (arrayIndexOf a x) 0); lia.
Qed.

(** The first occurrence of [x] splits the array. *)
Lemma arrayIndexOf_In a x :
  In x a ->
  exists l r, a = l ++ x :: r /\ ~ In x l
              /\ arrayIndexOf a x = Z.of_nat (List.length l).
Proof.
  induction a as [|y a IH]; intros H; [destruct H|].
  cbn [arrayIndexOf]. destruct (jseqb y x) eqn:E.
  - apply jseqb_eq in E. subst y. exists [], a. repeat split. intros [].
  - apply jseqb_neq in E. destruct H as [H|H]; [congruence|].
    destruct (IH H) as (l & r & -> & Hn & Ei).
    exists (y :: l), r. rewrite Ei.
    destruct (Z.ltb_spec (Z.of_nat (List.length l)) 0); [lia|].
    repeat split.
    + intros [H1|H1]; [congruence|contradiction].
    + cbn [List.length]. lia.
Qed.

Lemma arrayIndexOf_not_In a x : ~ In x a -> arrayIndexOf a x = (-1)%Z.
Proof.
  induction a as [|y a IH]; intros H; [reflexivity|].
  cbn [arrayIndexOf]. destruct (jseqb y x) eqn:E.
  - apply jseqb_eq in E. subst y. destruct H. now left.
  - rewrite IH by (intros H1; apply H; now right). reflexivity.
Qed.

Lemma arrayIndexOf_first l x r :
  ~ In x l -> arrayIndexOf (l ++ x :: r) x = Z.of_nat (List.length l).
Proof.
  induction l as [|y l IH]; intros H; cbn [app arrayIndexOf List.length].
  - now rewrite jseqb_refl.
  - rewrite (proj2 (jseqb_neq y x)) by (intros ->; apply H; now left).
    rewrite IH by (intros H1; apply H; now right).
    destruct (Z.ltb_spec (Z.of_nat (List.length l)) 0); lia.
Qed.

Lemma relativeIndex_of_nat {A} (a : list A) (n : nat) :
  (n <= List.length a)%nat -> relativeIndex a (Z.of_nat n) = n.
Proof.
  intros H. unfold relativeIndex.
  destruct (Z.ltb_spec (Z.of_nat n) 0); [lia|]. rewrite Nat2Z.id. lia.
Qed.

Lemma spliceDelete_at {A} (l : list A) x r :
  spliceDelete (l ++ x :: r) (Z.of_nat (List.length l)) = l ++ r.
Proof.
  unfold spliceDelete.
  rewrite relativeIndex_of_nat by (rewrite length_app; cbn; lia).
  rewrite firstn_app, Nat.sub_diag, firstn_all, app_nil_r. cbn [firstn].
  f_equal. rewrite skipn_app.
  replace (S (List.length l) - List.length l)%nat with 1%nat by lia.
  rewrite skipn_all2 by lia. reflexivity.
Qed.

Lemma spliceInsert_at {A} (l r : list A) x :
  spliceInsert (l ++ r) (Z.of_nat (List.length l)) x = l ++ x :: r.
Proof.
  unfold spliceInsert.
  rewrite relativeIndex_of_nat by (rewrite length_app; lia).
  rewrite firstn_app, Nat.sub_diag, firstn_all, skipn_app, Nat.sub_diag,
    skipn_all. cbn [firstn skipn app]. now rewrite app_nil_r.
Qed.

Lemma handleColDrop_run target s dragged :
  App.draggedHeader s = Some dragged -> dragged <> [] -> dragged <> target ->
  let newHeaders :=
    spliceInsert
      (spliceDelete (App.headers s) (arrayIndexOf (App.headers s) dragged))
      (arrayIndexOf (App.headers s) target) dragged in
  App.headers (App.handleColDrop target s) = newHeaders
  /\ App.data (App.handleColDrop target s) = App.data s
  /\ App.columnWidths (App.handleColDrop target s) = App.columnWidths s
  /\ App.draggedHeader (App.handleColDrop target s) = None
  /\ App.dragOverHeader (App.handleColDrop target s) = None.
Proof.
  intros Hd He Hn. cbv zeta. unfold App.handleColDrop. rewrite Hd.
  rewrite (proj2 (isEmpty_false _) He), (proj2 (jseqb_neq dragged target) Hn).
  cbn [orb]. repeat split.
Qed.

Lemma move_spec (l r : list jsstring) dragged target :
  In target (l ++ r) -> dragged <> target ->
  exists a b,
    l ++ r = a ++ b
    /\ arrayIndexOf (l ++ dragged :: r) target = Z.of_nat (List.length a).
Proof.
  intros Ht Hn.
  destruct (in_dec (list_eq_dec N.eq_dec) target l) as [H|H].
  - destruct (arrayIndexOf_In _ _ H) as (l1 & r1 & -> & H1 & _).
    exists l1, (target :: r1 ++ r). rewrite <- !app_assoc. cbn [app].
    split; [reflexivity|]. now apply arrayIndexOf_first.
  - apply in_app_iff in Ht as [Ht|Ht]; [contradiction|].
    destruct (arrayIndexOf_In _ _ Ht) as (r1 & r2 & -> & H1 & _).
    exists (l ++ r1 ++ [target]), r2. rewrite <- !app_assoc. cbn [app].
    split; [reflexivity|].
    replace (l ++ dragged :: r1 ++ target :: r2)
      with ((l ++ dragged :: r1) ++ target :: r2)
      by (now rewrite <- app_assoc).
    rewrite arrayIndexOf_first.
    + rewrite !length_app. cbn [List.length]. lia.
    + intros H2. apply in_app_iff in H2 as [H2|[H2|H2]];
        [contradiction|congruence|contradiction].
Qed.

Lemma filter_without (l r : list jsstring) x :
  filter (fun h => negb (jseqb h x)) (l ++ x :: r)
  = filter (fun h => negb (jseqb h x)) (l ++ r).
Proof. rewrite !filter_app. cbn [filter]. now rewrite jseqb_refl. Qed.

(** ** X13 *)

(** X13. Dropping a dragged header on another header of a table without
    duplicate headers moves it to the place that the target had: the
    headers are rearranged, the dragged one then stands at the target's
    former index, the other headers keep their order, and the rows and
    the widths are untouched.  The drag is over afterwards. *)
Theorem handleColDrop_moves_header (target dragged : jsstring) (s : App.State) :
  App.draggedHeader s = Some dragged -> dragged <> [] -> dragged <> target ->
  NoDup (App.headers s) ->
  In dragged (App.headers s) -> In target (App.headers s) ->
  let s' := App.handleColDrop target s in
  Permutation (App.headers s) (App.headers s')
  /\ arrayIndexOf (App.headers s') dragged = arrayIndexOf (App.headers s) target
  /\ filter (fun h => negb (jseqb h dragged)) (App.headers s')
     = filter (fun h => negb (jseqb h dragged)) (App.headers s)
  /\ App.data s' = App.data s /\ App.columnWidths s' = App.columnWidths s
  /\ App.draggedHeader s' = None /\ App.dragOverHeader s' = None.
Proof.
  intros Hd He Hn Hnd Hi Ht s'.
  destruct (handleColDrop_run s Hd He Hn) as (Eh & Ed & Ew & E1 & E2).
  fold s' in Eh, Ed, Ew, E1, E2. rewrite Eh, Ed, Ew, E1, E2. clear Eh Ed Ew E1 E2.
  destruct (arrayIndexOf_In _ _ Hi) as (l & r & El & Hl & Ei).
  rewrite Ei, El, spliceDelete_at. rewrite El in Ht, Hnd.
  assert (Hr : ~ In dragged (l ++ r)) by (now apply NoDup_remove_2 in Hnd).
  assert (Ht' : In target (l ++ r)).
  { apply in_app_iff. apply in_app_iff in Ht as [H|[H|H]];
      [now left|congruence|now right]. }
  destruct (move_spec l r Ht' Hn) as (a & b & Eab & Et).
  rewrite Et, Eab, spliceInsert_at. rewrite Eab in Hr.
  split; [|split; [|split; [|repeat split]]].
  - apply Permutation_trans with (dragged :: l ++ r).
    + apply Permutation_sym, Permutation_middle.
    + rewrite Eab. apply Permutation_middle.
  - apply arrayIndexOf_first. intros H. apply Hr, in_app_iff. now left.
  - now rewrite !filter_without, Eab.
Qed.

Lemma handleColDrop_moves_header_witness :
  arrayIndexOf (App.headers (App.handleColDrop (js "name") sampleState))
    (js "campaign_url")
  = arrayIndexOf (App.headers sampleState) (js "name").
Proof.
  destruct (@handleColDrop_moves_header (js "name") (js "campaign_url") sampleState
              eq_refl ltac:(discriminate) ltac:(discriminate)
              ltac:(repeat constructor; simpl; intuition discriminate)
              ltac:(simpl; tauto) ltac:(simpl; tauto))
    as (_ & H & _).
  exact H.
Defined.

Lemma toggleMergeColumn_sources col s :
  App.mergeSourceColumns (App.toggleMergeColumn col s)
  = (if arrayIncludes (App.mergeSourceColumns s) col
     then filter (fun c => negb (jseqb c col)) (App.mergeSourceColumns s)
     else App.mergeSourceColumns s ++ [col]).
Proof. reflexivity. Qed.

(** ** X14 *)

(** X14. [toggleMergeColumn] flips the membership of one column among the
    merge sources and of no other: afterwards the column is a source
    exactly if it was none, every other column is a source exactly if it
    was one, and sources without duplicates stay so.  Toggling a column
    that was no source and toggling it again gives the sources back. *)
Theorem toggleMergeColumn_flips (col : jsstring) (s : App.State) :
  let s' := App.toggleMergeColumn col s in
  (In col (App.mergeSourceColumns s') <-> ~ In col (App.mergeSourceColumns s))
  /\ (forall c, c <> col ->
        (In c (App.mergeSourceColumns s') <-> In c (App.mergeSourceColumns s)))
  /\ (NoDup (App.mergeSourceColumns s) -> NoDup (App.mergeSourceColumns s'))
  /\ (~ In col (App.mergeSourceColumns s) ->
      App.mergeSourceColumns (App.toggleMergeColumn col s')
      = App.mergeSourceColumns s).
Proof.
  intros s'. subst s'. rewrite !toggleMergeColumn_sources.
  destruct (arrayIncludes (App.mergeSourceColumns s) col) eqn:E.
  - apply arrayIncludes_In in E. split; [|split; [|split]].
    + rewrite filter_In, jseqb_refl. cbn [negb]. split; [intros []|]; [discriminate|tauto].
    + intros c Hc. rewrite filter_In.
      rewrite (proj2 (jseqb_neq c col) Hc). cbn [negb]. tauto.
    + apply NoDup_filter.
    + tauto.
  - apply arrayIncludes_not_In in E. split; [|split; [|split]].
    + rewrite in_app_iff. cbn [In]. tauto.
    + intros c Hc. rewrite in_app_iff. cbn [In]. intuition congruence.
    + intros Hn. apply NoDup_app; [exact Hn|repeat constructor; intros []|].
      intros x Hx [<-|[]]. contradiction.
    + intros _.
      assert (Ei : arrayIncludes (App.mergeSourceColumns s ++ [col]) col = true).
      { apply arrayIncludes_In, in_app_iff. right. now left. }
      rewrite Ei, filter_app. cbn [filter]. rewrite jseqb_refl. cbn [negb].
      rewrite app_nil_r. apply forallb_filter_id. apply forallb_forall.
      intros c Hc. apply negb_true_iff, jseqb_neq. congruence.
Qed.

(* ================================================================= *)
(** * The component: column widths and loading *)
(* ================================================================= *)

Lemma getWidth_defineWidth w k v k' :
  App.getWidth (App.defineWidth w k v) k'
  = if jseqb k k' then Some v else App.getWidth w k'.
Proof.
  induction w as [|[k0 v0] w IH]; cbn [App.defineWidth App.getWidth].
  - reflexivity.
  - destruct (jseqb k0 k) eqn:E0.
    + apply jseqb_eq in E0. subst k0. cbn [App.getWidth].
      destruct (jseqb k k'); reflexivity.
    + cbn [App.getWidth]. rewrite IH.
      destruct (jseqb k0 k') eqn:E1; [|reflexivity].
      apply jseqb_eq in E1. subst k0. now rewrite (jseqb_sym k k'), E0.
Qed.

Lemma getWidth_calculateInitialWidths_fold hs rows k : forall acc,
  App.getWidth
    (fold_left (fun widths h =>
                  App.assignWidth widths h (Some (App.initialWidth h rows)))
               hs acc) k
  = if arrayIncludes hs k && negb (jseqb k (js "__proto__"))
    then Some (Some (App.initialWidth k rows))
    else App.getWidth acc k.
Proof.
  induction hs as [|h hs IH]; intros acc; cbn [fold_left]; [reflexivity|].
  rewrite IH. unfold arrayIncludes. cbn [existsb]. fold (arrayIncludes hs k).
  assert (E0 : jseqb h k = false ->
               App.getWidth
                 (App.assignWidth acc h (Some (App.initialWidth h rows))) k
               = App.getWidth acc k).
  { intros E. unfold App.assignWidth.
    destruct (jseqb h (js "__proto__")); [reflexivity|].
    now rewrite getWidth_defineWidth, E. }
  destruct (jseqb k (js "__proto__")) eqn:P; cbn [negb].
  - rewrite !andb_false_r. apply jseqb_eq in P. subst k.
    unfold App.assignWidth.
    destruct (jseqb h (js "__proto__")) eqn:Q; [reflexivity|].
    now rewrite getWidth_defineWidth, Q.
  - rewrite !andb_true_r.
    destruct (arrayIncludes hs k); [now rewrite orb_true_r|].
    rewrite orb_false_r. destruct (jseqb k h) eqn:E.
    + apply jseqb_eq in E. subst h. unfold App.assignWidth. rewrite P.
      now rewrite getWidth_defineWidth, jseqb_refl.
    + apply E0. now rewrite jseqb_sym.
Qed.

Lemma getWidth_calculateInitialWidths hs rows k :
  App.getWidth (App.calculateInitialWidths hs rows) k
  = if arrayIncludes hs k && negb (jseqb k (js "__proto__"))
    then Some (Some (App.initialWidth k rows))
    else None.
Proof. apply getWidth_calculateInitialWidths_fold. Qed.

Lemma fold_max_ge (l : list Z) : forall acc,
  (acc <= fold_left Z.max l acc)%Z
  /\ (forall x, In x l -> (x <= fold_left Z.max l acc)%Z).
Proof.
  induction l as [|y l IH]; intros acc; cbn [fold_left In].
  - split; [lia|intros x []].
  - destruct (IH (Z.max acc y)) as (H1 & H2). split; [lia|].
    intros x [<-|Hx]; [lia|auto].
Qed.

Lemma initialWidth_bounds h rows :
  (120 <= App.initialWidth h rows <= 500)%Z
  /\ (Z.min 500 (9 * Z.of_nat (List.length h) + 48) <= App.initialWidth h rows)%Z
  /\ (forall row, In row (firstn 15 rows) ->
        (Z.min 500 (9 * Z.of_nat (List.length (cellString row h)) + 48)
         <= App.initialWidth h rows)%Z).
Proof.
  unfold App.initialWidth, App.maxCharsOf.
  set (l := map _ (firstn 15 rows)).
  destruct (fold_max_ge l (Z.of_nat (List.length h))) as (H1 & H2).
  split; [lia|]. split; [lia|].
  intros row Hr.
  assert (H : (Z.of_nat (List.length (cellString row h))
               <= fold_left Z.max l (Z.of_nat (List.length h)))%Z).
  { apply H2. unfold l. apply in_map_iff. now exists row. }
  lia.
Qed.

(** ** X15 *)

(** X15. [calculateInitialWidths] gives a width to each of the headers,
    except to one named [__proto__], and to nothing else.  The width lies
    between 120 and 500; it leaves room for 9 pixels a character and 48
    more, up to 500, for the header and for the cell of each of the first
    15 rows.  Later rows have no influence. *)
Theorem initial_widths_cover_headers (hs : list jsstring) (rows : list FileRow)
    (k : jsstring) :
  (In k hs -> k <> js "__proto__" ->
   exists w,
     App.getWidth (App.calculateInitialWidths hs rows) k = Some (Some w)
     /\ (120 <= w <= 500)%Z
     /\ (Z.min 500 (9 * Z.of_nat (List.length k) + 48) <= w)%Z
     /\ (isPlainKey k = true ->
         forall row, In row (firstn 15 rows) ->
           (Z.min 500 (9 * Z.of_nat (List.length (cellString row k)) + 48) <= w)%Z))
  /\ (~ In k hs \/ k = js "__proto__" ->
      App.getWidth (App.calculateInitialWidths hs rows) k = None)
  /\ App.calculateInitialWidths hs rows
     = App.calculateInitialWidths hs (firstn 15 rows).
Proof.
  split; [|split].
  - intros Hi Hk. exists (App.initialWidth k rows).
    rewrite getWidth_calculateInitialWidths.
    rewrite (proj2 (arrayIncludes_In hs k) Hi), (proj2 (jseqb_neq _ _) Hk).
    destruct (initialWidth_bounds k rows) as (H1 & H2 & H3).
    repeat split; try lia; auto.
  - intros H. rewrite getWidth_calculateInitialWidths.
    destruct H as [H| ->].
    + now rewrite (proj2 (arrayIncludes_not_In hs k) H).
    + rewrite jseqb_refl. now rewrite andb_false_r.
  - unfold App.calculateInitialWidths.
    generalize (@nil (jsstring * option Z)).
    induction hs as [|h hs IH]; intros acc; cbn [fold_left]; [reflexivity|].
    rewrite IH. unfold App.initialWidth. now rewrite firstn_firstn.
Qed.

Lemma initial_widths_cover_headers_witness :
  exists w,
    App.getWidth (App.calculateInitialWidths [js "name"; js "campaign_url"]
                    [campaignRow]) (js "campaign_url") = Some (Some w)
    /\ (120 <= w <= 500)%Z.
Proof.
  destruct (proj1 (initial_widths_cover_headers [js "name"; js "campaign_url"]
                     [campaignRow] (js "campaign_url"))
              ltac:(simpl; tauto) ltac:(discriminate))
    as (w & H1 & H2 & _).
  exists w. split; [exact H1|exact H2].
Defined.

Lemma fold_sum_bounds (f : jsstring -> Z) (lo hi : Z) (hs : list jsstring) :
  (forall h, In h hs -> (lo <= f h <= hi)%Z) ->
  forall acc,
    (acc + lo * Z.of_nat (List.length hs)
     <= fold_left (fun acc h => (acc + f h)%Z) hs acc
     <= acc + hi * Z.of_nat (List.length hs))%Z.
Proof.
  induction hs as [|h hs IH]; intros H acc; cbn [fold_left List.length]; [lia|].
  specialize (IH (fun x Hx => H x (or_intror Hx)) (acc + f h)%Z).
  specialize (H h (or_introl eq_refl)). lia.
Qed.


Lemma tableLoaded_fields name hs rows s :
  let s' := App.tableLoaded name hs rows s in
  App.data s' = rows /\ App.headers s' = hs
  /\ App.columnWidths s' = App.calculateInitialWidths hs rows
  /\ App.history s'
     = [{| App.itemData := rows; App.itemHeaders := hs;
           App.itemColumnWidths := App.calculateInitialWidths hs rows |}]
  /\ App.historyIndex s' = 0%Z
  /\ App.isLoading s' = false /\ App.error s' = None
  /\ App.fileName s' = Some name
  /\ App.urlColumn s'
     = (if isEmpty (detectBestUrlColumn hs rows) then App.urlColumn s
        else detectBestUrlColumn hs rows)
  /\ App.baseUrlColumn s' = App.baseUrlColumn s
  /\ App.mergeSourceColumns s' = App.mergeSourceColumns s
  /\ App.mergeTargetColumn s' = App.mergeTargetColumn s.
Proof.
  cbv zeta. unfold App.tableLoaded.
  destruct (isEmpty (detectBestUrlColumn hs rows)); cbn [negb]; repeat split.
Qed.

(** ** X16 *)

(** X16. After a table has been loaded, with no header named [__proto__],
    the total table width lies between 120 and 500 pixels a column. *)
Theorem loaded_table_width_bounds (name : jsstring) (hs : list jsstring)
    (rows : list FileRow) (s : App.State) :
  ~ In (js "__proto__") hs ->
  let s' := App.tableLoaded name hs rows s in
  (120 * Z.of_nat (List.length hs) <= App.totalTableWidth s'
   <= 500 * Z.of_nat (List.length hs))%Z.
Proof.
  intros Hp s'.
  destruct (tableLoaded_fields name hs rows s) as (_ & Eh & Ew & _).
  fold s' in Eh, Ew. unfold App.totalTableWidth. rewrite Eh, Ew.
  pose proof (@fold_sum_bounds
                (App.widthOrDefault (App.calculateInitialWidths hs rows))
                120 500 hs) as H.
  cbn beta in H. specialize (fun H0 => H H0 0%Z). cbn [Z.add] in H. apply H.
  intros h Hh. unfold App.widthOrDefault.
  rewrite getWidth_calculateInitialWidths.
  rewrite (proj2 (arrayIncludes_In hs h) Hh).
  rewrite (proj2 (jseqb_neq h (js "__proto__"))) by (intros ->; contradiction).
  cbn [andb negb]. destruct (initialWidth_bounds h rows) as (H1 & _).
  destruct (Z.eqb_spec (App.initialWidth h rows) 0); lia.
Qed.

Lemma loaded_table_width_bounds_witness :
  (120 * 2 <= App.totalTableWidth
                (App.tableLoaded (js "a.csv") [js "name"; js "campaign_url"]
                   [campaignRow] sampleState)
   <= 500 * 2)%Z.
Proof.
  apply (@loaded_table_width_bounds (js "a.csv") [js "name"; js "campaign_url"]
           [campaignRow] sampleState).
  simpl. intuition discriminate.
Defined.

(** ** X17 *)


(* ================================================================= *)
(** * The component: what the table edits keep *)
(* ================================================================= *)

Lemma renameColumn_cases oldName newName s :
  let rename := fun c => if jseqb c oldName then newName else c in
  let s' := App.renameColumn oldName newName s in
  (App.headers s' = App.headers s /\ App.data s' = App.data s
   /\ App.urlColumn s' = App.urlColumn s
   /\ App.baseUrlColumn s' = App.baseUrlColumn s
   /\ App.mergeSourceColumns s' = App.mergeSourceColumns s)
  \/ (oldName <> newName
      /\ App.headers s' = map rename (App.headers s)
      /\ App.data s' = map (App.renameInRow oldName newName) (App.data s)
      /\ App.urlColumn s' = rename (App.urlColumn s)
      /\ App.baseUrlColumn s' = rename (App.baseUrlColumn s)
      /\ App.mergeSourceColumns s' = map rename (App.mergeSourceColumns s)).
Proof.
  intros rename s'.
  destruct (isEmpty newName || jseqb (trim newName) [] || jseqb oldName newName)
    eqn:E1.
  { left. subst s'. rewrite renameColumn_refused by exact E1. repeat split. }
  destruct (arrayIncludes (App.headers s) newName) eqn:E2.
  { left. subst s'. rewrite renameColumn_duplicate by assumption. repeat split. }
  right. apply orb_false_iff in E1 as [E1 E3].
  apply orb_false_iff in E1 as [_ E1].
  apply jseqb_neq in E1, E3. apply arrayIncludes_not_In in E2.
  destruct (renameColumn_accepted s E1 E3 E2) as (Eh & Ed & _ & Eu & Eb & _ & Es & _).
  repeat split; assumption.
Qed.

Lemma spliceInsert_Permutation {A} (a : list A) i x :
  Permutation (x :: a) (spliceInsert a i x).
Proof.
  unfold spliceInsert.
  rewrite <- (firstn_skipn (relativeIndex a i) a) at 1.
  apply Permutation_middle.
Qed.

Lemma handleColDrop_headers target s :
  (forall d, App.draggedHeader s = Some d -> In d (App.headers s)) ->
  Permutation (App.headers s) (App.headers (App.handleColDrop target s))
  /\ App.data (App.handleColDrop target s) = App.data s
  /\ App.urlColumn (App.handleColDrop target s) = App.urlColumn s
  /\ App.baseUrlColumn (App.handleColDrop target s) = App.baseUrlColumn s
  /\ App.mergeSourceColumns (App.handleColDrop target s) = App.mergeSourceColumns s.
Proof.
  intros H. unfold App.handleColDrop.
  destruct (App.draggedHeader s) as [d|]; [|now repeat split].
  destruct (isEmpty d || jseqb d target); [now repeat split|].
  split; [|now repeat split].
  cbn [App.headers App.setDrag App.pushToHistory App.setHistory App.setTable].
  destruct (arrayIndexOf_In _ _ (H d eq_refl)) as (l & r & El & _ & Ei).
  rewrite Ei. rewrite El at 1 2. rewrite spliceDelete_at.
  apply Permutation_trans with (d :: l ++ r).
  - apply Permutation_sym, Permutation_middle.
  - rewrite El. apply spliceInsert_Permutation.
Qed.

Lemma processSplit_headers_incl s :
  (forall h, In h (App.headers s) -> In h (App.headers (App.processSplit s)))
  /\ App.baseUrlColumn (App.processSplit s) = App.baseUrlColumn s
  /\ App.mergeSourceColumns (App.processSplit s) = App.mergeSourceColumns s.
Proof.
  unfold App.processSplit.
  destruct (isEmpty (App.urlColumn s) || (List.length (App.data s) =? 0)%nat);
    [now repeat split|].
  destruct (addHeader_fold
              (js "Clean URL" :: App.discoverKeys (App.urlColumn s) (App.data s))
              (App.headers s) []) as (new & E & _).
  rewrite E. split; [|now split].
  intros h Hh. cbn. apply in_app_iff. now left.
Qed.

Lemma processColumnMerge_headers_incl s :
  (forall h, In h (App.headers s) -> In h (App.headers (App.processColumnMerge s)))
  /\ App.urlColumn (App.processColumnMerge s) = App.urlColumn s
  /\ App.baseUrlColumn (App.processColumnMerge s) = App.baseUrlColumn s
  /\ App.mergeSourceColumns (App.processColumnMerge s) = App.mergeSourceColumns s.
Proof.
  unfold App.processColumnMerge.
  destruct (_ || _ || _); [now repeat split|].
  destruct (arrayIncludes (App.headers s) (App.mergeTargetColumn s));
    cbn [negb]; split; try (now repeat split).
  intros h Hh. cbn. apply in_app_iff. now left.
Qed.

(** ** X18 *)

(** X18. The table edits keep the column selections valid.  When the URL
    column and the base URL column are unset or headers, and every merge
    source is a header, the same holds after [deleteColumn],
    [processSplit] and [processColumnMerge], after [renameColumn] of a
    header, after [handleColDrop] of a dragged header, and after
    [toggleMergeColumn] of a header. *)
Theorem edits_keep_selections_valid (s : App.State) :
  App.selectionsValid s ->
  (forall h, App.selectionsValid (App.deleteColumn h s))
  /\ (forall oldName newName,
        In oldName (App.headers s) ->
        App.selectionsValid (App.renameColumn oldName newName s))
  /\ App.selectionsValid (App.processSplit s)
  /\ App.selectionsValid (App.processColumnMerge s)
  /\ (forall target,
        (forall d, App.draggedHeader s = Some d -> In d (App.headers s)) ->
        App.selectionsValid (App.handleColDrop target s))
  /\ (forall col, In col (App.headers s) ->
        App.selectionsValid (App.toggleMergeColumn col s)).
Proof.
  intros (Hu & Hb & Hs).
  split; [|split; [|split; [|split; [|split]]]].
  - intros h. unfold App.selectionsValid.
    destruct (deleteColumn_table h s) as (Eh & _).
    destruct (deleteColumn_selections h s) as (Eu & Eb & _ & Es).
    rewrite Eh, Eu, Eb, Es. split; [|split].
    + destruct (jseqb (App.urlColumn s) h) eqn:E; [now left|].
      apply jseqb_neq in E. destruct Hu as [Hu|Hu]; [now left|right].
      now apply filter_other_In.
    + destruct (jseqb (App.baseUrlColumn s) h) eqn:E; [now left|].
      apply jseqb_neq in E. destruct Hb as [Hb|Hb]; [now left|right].
      now apply filter_other_In.
    + intros c Hc. apply filter_other_In in Hc as [Hc Hn].
      apply filter_other_In. split; auto.
  - intros oldName newName Ho. unfold App.selectionsValid.
    destruct (renameColumn_cases oldName newName s)
      as [(Eh & _ & Eu & Eb & Es)|(Hn & Eh & _ & Eu & Eb & Es)];
      rewrite Eh, Eu, Eb, Es; [now repeat split|].
    set (rename := fun c => if jseqb c oldName then newName else c).
    assert (Hr : forall c, In c (App.headers s) ->
                           In (rename c) (map rename (App.headers s)))
      by (intros c Hc; now apply in_map).
    assert (He : forall c, c = [] \/ In c (App.headers s) ->
                   rename c = [] \/ In (rename c) (map rename (App.headers s))).
    { intros c [-> |Hc]; [|right; now apply Hr].
      unfold rename. destruct (jseqb [] oldName) eqn:E; [|now left].
      apply jseqb_eq in E. subst oldName. right.
      change newName with (rename []). now apply Hr. }
    split; [now apply He|]. split; [now apply He|].
    intros c Hc. apply in_map_iff in Hc as (c0 & <- & Hc). apply Hr. auto.
  - destruct (processSplit_headers_incl s) as (Hi & Eb & Es).
    unfold App.selectionsValid. rewrite processSplit_urlColumn, Eb, Es.
    split; [|split]; [destruct Hu; auto|destruct Hb; auto|auto].
  - destruct (processColumnMerge_headers_incl s) as (Hi & Eu & Eb & Es).
    unfold App.selectionsValid. rewrite Eu, Eb, Es.
    split; [|split]; [destruct Hu; auto|destruct Hb; auto|auto].
  - intros target Hd.
    destruct (handleColDrop_headers target s Hd) as (Hp & _ & Eu & Eb & Es).
    unfold App.selectionsValid. rewrite Eu, Eb, Es.
    pose proof (fun c => @Permutation_in _ _ _ c Hp) as Hi.
    split; [|split]; [destruct Hu; auto|destruct Hb; auto|auto].
  - intros col Hc. unfold App.selectionsValid.
    rewrite toggleMergeColumn_sources.
    split; [exact Hu|]. split; [exact Hb|].
    intros c. destruct (arrayIncludes (App.mergeSourceColumns s) col).
    + intros H. apply filter_In in H as [H _]. auto.
    + intros H. apply in_app_iff in H as [H|[<-|[]]]; auto.
Qed.

Lemma sampleState_selectionsValid : App.selectionsValid sampleState.
Proof.
  unfold App.selectionsValid. simpl. split; [tauto|]. split; [tauto|].
  intros c [<-|[]]. tauto.
Defined.

Lemma edits_keep_selections_valid_witness :
  App.selectionsValid (App.deleteColumn (js "campaign_url") sampleState)
  /\ App.selectionsValid (App.processSplit sampleState).
Proof.
  destruct (@edits_keep_selections_valid sampleState sampleState_selectionsValid)
    as (H1 & _ & H2 & _).
  split; [apply H1|exact H2].
Defined.

(** ** X19 *)

(** X19. The table edits keep every cell under a header.  When every key
    of every row is a header, the same holds after [deleteColumn],
    [processSplit] (the URL column being no key that rows inherit) and
    [processColumnMerge], after [renameColumn] of a header and after
    [handleColDrop] of a dragged header. *)
Theorem edits_keep_cells_under_headers (s : App.State) :
  App.cellsUnderHeaders (App.headers s) (App.data s) ->
  (forall h,
     App.cellsUnderHeaders (App.headers (App.deleteColumn h s))
                           (App.data (App.deleteColumn h s)))
  /\ (forall oldName newName,
        In oldName (App.headers s) ->
        App.cellsUnderHeaders (App.headers (App.renameColumn oldName newName s))
                              (App.data (App.renameColumn oldName newName s)))
  /\ (isPlainKey (App.urlColumn s) = true ->
      App.cellsUnderHeaders (App.headers (App.processSplit s))
                            (App.data (App.processSplit s)))
  /\ App.cellsUnderHeaders (App.headers (App.processColumnMerge s))
                           (App.data (App.processColumnMerge s))
  /\ (forall target,
        (forall d, App.draggedHeader s = Some d -> In d (App.headers s)) ->
        App.cellsUnderHeaders (App.headers (App.handleColDrop target s))
                              (App.data (App.handleColDrop target s))).
Proof.
  intros H. unfold App.cellsUnderHeaders in *.
  split; [|split; [|split; [|split]]].
  - intros h row k Hr Hk.
    destruct (deleteColumn_table h s) as (Eh & Ed & _). rewrite Eh. rewrite Ed in Hr.
    apply in_map_iff in Hr as (row0 & <- & Hr).
    rewrite getProp_omitProp in Hk.
    destruct (jseqb h k) eqn:E; [congruence|]. apply jseqb_neq in E.
    apply filter_other_In. split; [eauto|congruence].
  - intros oldName newName Ho row k Hr Hk.
    destruct (renameColumn_cases oldName newName s)
      as [(Eh & Ed & _)|(Hn & Eh & Ed & _)]; rewrite Eh; rewrite Ed in Hr;
      [eauto|].
    apply in_map_iff in Hr as (row0 & <- & Hr).
    rewrite getProp_renameInRow in Hk by exact Hn.
    apply in_map_iff.
    destruct (jseqb newName k) eqn:E1.
    + apply jseqb_eq in E1. subst k. exists oldName.
      now rewrite jseqb_refl.
    + destruct (jseqb oldName k) eqn:E2; [congruence|].
      exists k. rewrite jseqb_sym, E2. split; [reflexivity|eauto].
  - intros _ row k Hr Hk.
    destruct (isEmpty (App.urlColumn s) || (List.length (App.data s) =? 0)%nat)
      eqn:G.
    { unfold App.processSplit in *. rewrite G in *. eauto. }
    apply orb_false_iff in G as [G1 G2].
    apply isEmpty_false in G1.
    assert (G3 : App.data s <> [])
      by (destruct (App.data s); [discriminate|discriminate]).
    destruct (processSplit_run s G1 G3) as (Ed & Eh & _).
    destruct (addHeader_fold
                (js "Clean URL" :: App.discoverKeys (App.urlColumn s) (App.data s))
                (App.headers s) []) as (new & F & Gn & _).
    rewrite Eh, F. cbn [fst]. rewrite Ed in Hr.
    apply in_map_iff in Hr as (row0 & <- & Hr).
    apply in_app_iff.
    destruct (in_dec (list_eq_dec N.eq_dec) k (App.headers s)) as [Hi|Hi];
      [now left|right].
    apply Gn. split; [|exact Hi]. rewrite getProp_splitRow in Hk.
    destruct (getProp (params (splitUrl (cellText row0 (App.urlColumn s)))) k)
      eqn:Ek.
    + right. apply discoverKeys_In. exists row0. split; [exact Hr|].
      apply getProp_In_keys. congruence.
    + destruct (jseqb k (js "Clean URL")) eqn:Ec.
      * apply jseqb_eq in Ec. now left.
      * exfalso. eauto.
  - intros row k Hr Hk.
    destruct (processColumnMerge_headers_incl s) as (Hi & _).
    destruct (Nat.eqb (List.length (App.mergeSourceColumns s)) 0
              || isEmpty (App.mergeTargetColumn s)
              || Nat.eqb (List.length (App.data s)) 0) eqn:G.
    { unfold App.processColumnMerge in *. rewrite G in *. eauto. }
    apply orb_false_iff in G as [G G3]. apply orb_false_iff in G as [G1 G2].
    apply isEmpty_false in G2.
    assert (G1' : App.mergeSourceColumns s <> [])
      by (destruct (App.mergeSourceColumns s); [discriminate|discriminate]).
    assert (G3' : App.data s <> [])
      by (destruct (App.data s); [discriminate|discriminate]).
    destruct (processColumnMerge_run s G1' G2 G3') as (Ed & Eh & _).
    rewrite Ed in Hr. apply in_map_iff in Hr as (row0 & <- & Hr).
    rewrite getProp_updateProp in Hk.
    destruct (jseqb (App.mergeTargetColumn s) k) eqn:E; [|eauto].
    apply jseqb_eq in E. subst k. rewrite Eh.
    destruct (arrayIncludes (App.headers s) (App.mergeTargetColumn s)) eqn:Ei.
    + now apply arrayIncludes_In.
    + apply in_app_iff. right. now left.
  - intros target Hd row k Hr Hk.
    destruct (handleColDrop_headers target s Hd) as (Hp & Ed & _).
    rewrite Ed in Hr. eapply Permutation_in; [exact Hp|eauto].
Qed.

Lemma sampleState_cellsUnderHeaders :
  App.cellsUnderHeaders (App.headers sampleState) (App.data sampleState).
Proof.
  intros row k [<-|[]] Hk. apply getProp_In_keys in Hk. exact Hk.
Defined.

Lemma edits_keep_cells_under_headers_witness :
  App.cellsUnderHeaders (App.headers (App.processSplit sampleState))
                        (App.data (App.processSplit sampleState)).
Proof.
  destruct (@edits_keep_cells_under_headers sampleState
              sampleState_cellsUnderHeaders) as (_ & _ & H & _).
  apply H. reflexivity.
Defined.

Lemma columnParams_fold_app row l1 l2 : forall acc,
  fold_left
    (fun params col =>
       let val := cellString row col in
       if negb (isEmpty val) then uspSet params col val else params)
    (l1 ++ l2) acc
  = fold_left
      (fun params col =>
         let val := cellString row col in
         if negb (isEmpty val) then uspSet params col val else params)
      l2
      (fold_left
         (fun params col =>
            let val := cellString row col in
            if negb (isEmpty val) then uspSet params col val else params)
         l1 acc).
Proof. intros acc. apply fold_left_app. Qed.

(** ** X20 *)

(** X20. An empty cell leaves no trace in the merged value: in every
    merge mode, a source column under which the row reads nothing or the
    empty string can be taken out of the source columns without changing
    what is merged for that row. *)
Theorem mergeResult_skips_empty_cells (s : App.State) (row : FileRow)
    (before after : list jsstring) (col : jsstring) :
  isPlainKey col = true ->
  cellString row col = [] ->
  App.mergeResult (App.setMergeSourceColumns (before ++ col :: after) s) row
  = App.mergeResult (App.setMergeSourceColumns (before ++ after) s) row.
Proof.
  intros _ E. unfold App.mergeResult.
  cbn [App.mergeMode App.mergeSourceColumns App.isCustomSeparator
       App.customSeparator App.mergeSeparator App.baseUrlColumn
       App.setMergeSourceColumns].
  assert (E1 : filter (fun v => negb (jseqb v []))
                 (map (fun c => cellString row c) (before ++ col :: after))
               = filter (fun v => negb (jseqb v []))
                   (map (fun c => cellString row c) (before ++ after))).
  { rewrite !map_app, !filter_app. cbn [map filter]. now rewrite E. }
  assert (E2 : App.columnParams (before ++ col :: after) row
               = App.columnParams (before ++ after) row).
  { unfold App.columnParams. rewrite !columnParams_fold_app.
    cbn [fold_left]. now rewrite E. }
  rewrite E1, E2. reflexivity.
Qed.

Lemma mergeResult_skips_empty_cells_witness :
  App.mergeResult
    (App.setMergeSourceColumns ([js "name"] ++ js "medium" :: []) sampleState)
    campaignRow
  = App.mergeResult
      (App.setMergeSourceColumns ([js "name"] ++ []) sampleState) campaignRow.
Proof.
  apply (@mergeResult_skips_empty_cells sampleState campaignRow [js "name"] []
           (js "medium")); reflexivity.
Defined.

Lemma handlers_keep_history_in_step_witness :
  historyInStep (App.processSplit sampleState)
  /\ historyInStep (App.undo (App.processSplit sampleState)).
Proof.
  assert (H0 : historyInStep sampleState)
    by (split; [exact sampleState_historyInRange|exact sampleState_historyCurrent]).
  destruct (proj2 (handlers_keep_history_in_step sampleState) H0)
    as (_ & _ & H1 & _).
  split; [exact H1|].
  destruct (proj2 (handlers_keep_history_in_step (App.processSplit sampleState)) H1)
    as (_ & _ & _ & _ & _ & _ & H2 & _).
  exact H2.
Defined.


Lemma toggleMergeColumn_flips_witness :
  App.mergeSourceColumns
    (App.toggleMergeColumn (js "campaign_url")
       (App.toggleMergeColumn (js "campaign_url") sampleState))
  = App.mergeSourceColumns sampleState.
Proof.
  destruct (toggleMergeColumn_flips (js "campaign_url") sampleState)
    as (_ & _ & _ & H).
  apply H. simpl. intuition discriminate.
Defined.

